(** * certigo/lib/certs.go: reading certificates and keys as PEM blocks

    A shallow embedding of [lib/certs.go] and the properties of its format
    detection, header merging, key encoding and stream readers.

    Conventions.
    - Go [string]s are [string]; byte slices are [list byte].
    - A Go [map[string]string] value is a [gmap string string]; where the
      identity of the map matters (section [GoMaps]) maps live in a heap
      and are named by references, as in Go.
    - A function with a [(T, error)] result returns [result T]; a nil
      dereference is the outcome [Panic].
    - The callback of the readers is modelled by what it is called with:
      the readers return the trace of callback arguments, in call order,
      and the lines written to standard error.
    - The parsers that the file calls ([encoding/pem], [crypto/x509],
      [pkcs7], [pkcs12], [jceks]) are the fields of the class [Decoders];
      statements hold for every instance.  The module [Sample] gives one
      instance, for the inputs of the examples.
    - [bufio.Scanner] is modelled as the Go library has it, with its
      buffer, its reads and its limit on the size of a token.  Module [pem]
      holds [pem.Decode] as the Go library has it, for the one statement
      that depends on how the decoder reads its input. *)

From Stdlib Require Import ZArith Lia List Strings.Byte Strings.Ascii.
From stdpp Require Import gmap strings list fin_maps.

Local Open Scope string_scope.

(** ** Go maps of headers *)

Abbreviation headers := (gmap string string).

(** [headers[k] = v] *)
Definition set_key (h : headers) (kv : string * string) : headers :=
  <[kv.1 := kv.2]> h.

(** [for k, v := range m { headers[k] = v }], the pairs of [m] visited in
    the order [kvs] (Go leaves the order of [range] over a map open). *)
Definition range_set (kvs : list (string * string)) (h : headers) : headers :=
  foldl set_key h kvs.

(** [mergeHeaders] with the two iteration orders made explicit. *)
Definition mergeHeaders_in_order (lb le : list (string * string)) : headers :=
  range_set le (range_set lb ∅).

(** [mergeHeaders(baseHeaders, extraHeaders)] on map values. *)
Definition mergeHeaders (baseHeaders extraHeaders : headers) : headers :=
  mergeHeaders_in_order (map_to_list baseHeaders) (map_to_list extraHeaders).

(** *** Maps as heap objects

    A Go map is a reference: [nil], or a pointer to a table that every
    holder of the reference shares. *)
Module GoMaps.

Definition loc := positive.

Inductive mapref :=
| Nil : mapref
| Ref : loc -> mapref.

Abbreviation heap := (gmap loc headers).

(** The contents read through a reference; ranging over [nil] visits
    nothing. *)
Definition contents (σ : heap) (r : mapref) : headers :=
  match r with
  | Nil => ∅
  | Ref l => default ∅ (σ !! l)
  end.

(** [make(map[string]string)] / [map[string]string{}] *)
Definition make_map (σ : heap) : loc * heap :=
  let l := fresh (dom σ) in (l, <[l := ∅]> σ).

(** [m[k] = v] through the reference [l] *)
Definition store_key (l : loc) (σ : heap) (kv : string * string) : heap :=
  <[l := set_key (default ∅ (σ !! l)) kv]> σ.

Definition range_store (l : loc) (kvs : list (string * string)) (σ : heap) : heap :=
  foldl (store_key l) σ kvs.

(** [mergeHeaders] on references: allocates [headers], then runs the two
    [range] loops, each writing through [headers] only. *)
Definition mergeHeaders (σ : heap) (baseHeaders extraHeaders : mapref)
    : mapref * heap :=
  let '(l, σ0) := make_map σ in
  let σ1 := range_store l (map_to_list (contents σ0 baseHeaders)) σ0 in
  let σ2 := range_store l (map_to_list (contents σ1 extraHeaders)) σ1 in
  (Ref l, σ2).

(** A reference that a Go program can hold: nil, or a map that exists. *)
Definition valid (σ : heap) (r : mapref) : Prop :=
  match r with
  | Nil => True
  | Ref l => l ∈ dom σ
  end.

End GoMaps.

(** ** Results, errors and input streams *)

(** A Go [error] is its message; [fmt.Errorf] builds it from its format. *)
Definition error := string.

Inductive result (A : Type) :=
| Ok (a : A) : result A
| Err (e : error) : result A
| Panic : result A.
Arguments Ok {A} a.
Arguments Err {A} e.
Arguments Panic {A}.

(** The newline that ends several of the messages. *)
Definition nl : string := String (Ascii.ascii_of_nat 10) "".

(** What a reader delivers: [data], and then end of file ([failure = None])
    or an I/O error. *)
Record Stream := {
  data : list byte;
  failure : option error;
}.

(** [Peek(n)] of a [bufio.Reader] for [n] within the buffer size: the next [n]
    bytes without consuming them, or the bytes there are and the error that
    stopped the read. *)
Definition Peek (file : Stream) (n : nat) : list byte * option error :=
  if decide (n <= length (data file))%nat
  then (take n (data file), None)
  else (data file, Some (default "EOF" (failure file))).

(** [ioutil.ReadAll] *)
Definition ReadAll (reader : Stream) : result (list byte) :=
  match failure reader with
  | None => Ok (data reader)
  | Some e => Err e
  end.

(** ** Format detection *)

Definition char_code (c : ascii) : nat := nat_of_ascii c.

Definition lower_char (c : ascii) : ascii :=
  if (65 <=? char_code c)%nat && (char_code c <=? 90)%nat
  then ascii_of_nat (char_code c + 32)
  else c.

Fixpoint all_ascii (s : string) : bool :=
  match s with
  | EmptyString => true
  | String c s' => (char_code c <? 128)%nat && all_ascii s'
  end.

Fixpoint map_string (f : ascii -> ascii) (s : string) : string :=
  match s with
  | EmptyString => EmptyString
  | String c s' => String (f c) (map_string f s')
  end.

Definition fileExtToFormat : gmap string string :=
  list_to_map [
    (".pem", "PEM");
    (".crt", "PEM");
    (".p7b", "PEM");
    (".p7c", "PEM");
    (".p12", "PKCS12");
    (".pfx", "PKCS12");
    (".jceks", "JCEKS");
    (".jks", "JCEKS");
    (".der", "DER")
  ].

(** [os.IsPathSeparator] (Unix) *)
Definition IsPathSeparator (c : Ascii.ascii) : bool :=
  bool_decide (c = "/"%char).

(** [filepath.Ext]: the loop [for i := len(path)-1; i >= 0 &&
    !os.IsPathSeparator(path[i]); i--], entered with [i = n - 1]. *)
Fixpoint Ext_loop (path : string) (n : nat) : string :=
  match n with
  | O => ""
  | S i =>
      match String.get i path with
      | Some c =>
          if IsPathSeparator c then ""
          else if bool_decide (c = "."%char)
               then String.substring i (String.length path - i) path
               else Ext_loop path i
      | None => ""
      end
  end.

Definition Ext (path : string) : string := Ext_loop path (String.length path).

Definition byte_to_Z (b : byte) : Z := Z.of_N (Byte.to_N b).

(** [binary.BigEndian.Uint32]; a slice shorter than 4 bytes is an index out
    of range. *)
Definition BigEndian_Uint32 (b : list byte) : option Z :=
  match b with
  | b0 :: b1 :: b2 :: b3 :: _ =>
      Some (Z.lor (Z.lor (Z.lor (byte_to_Z b3) (Z.shiftl (byte_to_Z b2) 8))
                         (Z.shiftl (byte_to_Z b1) 16))
                  (Z.shiftl (byte_to_Z b0) 24))
  | _ => None
  end.

(** The big-endian word as a number. *)
Definition be32 (b0 b1 b2 b3 : byte) : Z :=
  (byte_to_Z b0 * 2 ^ 24 + byte_to_Z b1 * 2 ^ 16
   + byte_to_Z b2 * 2 ^ 8 + byte_to_Z b3)%Z.

(** The heuristics on the first four bytes. *)
Definition guess_magic (magic : Z) : result string :=
  if bool_decide (magic = 0xCECECECE%Z) || bool_decide (magic = 0xFEEDFEED%Z)
  then Ok "JCEKS"
  else if bool_decide (magic = 0x2D2D2D2D%Z) || bool_decide (magic = 0x434f4e4e%Z)
  then Ok "PEM"
  else if bool_decide (Z.land magic 0xFFFF0000 = 0x30820000)%Z
  then if bool_decide (Z.land magic 0x0000FF00 = 0x0300)%Z
       then Ok "DER"
       else Ok "PKCS12"
  else Err "unable to guess file format".

(** ** Blocks, certificates and keys *)

(** [pem.Block] *)
Record Block := {
  Type' : string;
  Headers : headers;
  Bytes : list byte;
}.

(** Of [x509.Certificate] and [pkcs7.SignedDataEnvelope] the file reads the
    field [Raw] only. *)
Record Certificate := { Raw : list byte }.
Record SignedDataEnvelope := { EnvelopeRaw : list byte }.

Record rsa_PrivateKey := {
  rsa_N : Z; rsa_E : Z; rsa_D : Z; rsa_Primes : list Z;
}.

Record ecdsa_PrivateKey := {
  ec_Curve : string; ec_X : Z; ec_Y : Z; ec_D : Z;
}.

(** [crypto.PrivateKey] is [interface{}]: the two dynamic types [keyToPem]
    knows, or a value of any other type, of which [reflect.TypeOf] gives
    the name. *)
Inductive PrivateKey :=
| RSAKey (k : rsa_PrivateKey)
| ECDSAKey (k : ecdsa_PrivateKey)
| OtherKey (type_name : string).

(** [reflect.TypeOf(key)], printed with [%s] *)
Definition TypeOf (key : PrivateKey) : string :=
  match key with
  | RSAKey _ => "*rsa.PrivateKey"
  | ECDSAKey _ => "*ecdsa.PrivateKey"
  | OtherKey t => t
  end.

(** [jceks.KeyStore], by its four methods. [GetCert] gives the certificate
    pointer, [None] for nil. *)
Record KeyStore := {
  ListCerts : list string;
  GetCert : string -> option Certificate;
  ListPrivateKeys : list string;
  GetPrivateKeyAndCerts :
    string -> list byte -> result (PrivateKey * list Certificate);
}.

(** ** The decoders the file calls

    The parsers of the Go library and of the packages [pkcs7], [pkcs12]
    and [jceks] are services to this file.  Functions with a
    [(value, error)] result whose value is read only when the error is nil
    return a [result]; [pkcs12.ToPEM], whose blocks are read whatever the
    error, returns both. *)
Class Decoders := {
  (** [strings.Map(unicode.ToLower, s)], to which [strings.ToLower] comes
      down on a string that is not all ASCII. *)
  unicode_ToLower : string -> string;
  (** [pem.Decode]: the next block and the remainder of the input, or
      [None] for a nil block.  A block that is found takes up bytes: the
      remainder is shorter than the input. *)
  pem_Decode : list byte -> option (Block * list byte);
  pem_Decode_rest : forall d b r,
    pem_Decode d = Some (b, r) -> (length r < length d)%nat;
  x509_ParseCertificate : list byte -> result Certificate;
  x509_ParseCertificates : list byte -> result (list Certificate);
  x509_MarshalPKCS1PrivateKey : rsa_PrivateKey -> list byte;
  x509_MarshalECPrivateKey : ecdsa_PrivateKey -> result (list byte);
  pkcs7_ParseSignedData : list byte -> result (list SignedDataEnvelope);
  pkcs7_ExtractCertificates : list byte -> result (list Certificate);
  pkcs12_ToPEM : list byte -> string -> list Block * option error;
  jceks_LoadFromReader : Stream -> list byte -> result KeyStore;
  (** How the reader of a stream hands its bytes over: the number of bytes
      that a [Read] delivers when [off] bytes have been delivered and the
      slice to fill has [space] bytes.  The count is cut to the space and
      to the bytes that are left; 0 while bytes are left stands for a
      reader that makes no progress. *)
  read_size : Stream -> nat -> nat -> nat;
}.

(** ** Effects: callback calls and standard error *)

Record World (Ev : Type) := {
  calls : list Ev;
  stderr : list string;
}.
Arguments calls {Ev} w.
Arguments stderr {Ev} w.

Definition io (Ev A : Type) : Type := World Ev -> result A * World Ev.

#[export] Instance io_ret Ev : MRet (io Ev) := fun A a w => (Ok a, w).

#[export] Instance io_bind Ev : MBind (io Ev) := fun A B f m w =>
  match m w with
  | (Ok a, w') => f a w'
  | (Err e, w') => (Err e, w')
  | (Panic, w') => (Panic, w')
  end.

Definition fail {Ev A} (e : error) : io Ev A := fun w => (Err e, w).
Definition panic {Ev A} : io Ev A := fun w => (Panic, w).

(** One call of the callback, recorded. *)
Definition call {Ev} (ev : Ev) : io Ev unit := fun w =>
  (Ok tt, {| calls := calls w ++ [ev]; stderr := stderr w |}).

(** [fmt.Fprint(os.Stderr, msg)] *)
Definition eprint {Ev} (msg : string) : io Ev unit := fun w =>
  (Ok tt, {| calls := calls w; stderr := stderr w ++ [msg] |}).

(** [for _, x := range xs { body }] *)
Fixpoint for_range {Ev X} (xs : list X) (body : X -> io Ev unit) : io Ev unit :=
  match xs with
  | [] => mret tt
  | x :: xs' => body x ;; for_range xs' body
  end.

(** A call whose [error] result the caller drops. *)
Definition discard_error {Ev A} (m : io Ev A) : io Ev unit := fun w =>
  match m w with
  | (Panic, w') => (Panic, w')
  | (_, w') => (Ok tt, w')
  end.

Definition start {Ev} : World Ev := {| calls := []; stderr := [] |}.

(** ** The functions of [certs.go] *)

Definition nameHeader : string := "friendlyName".
Definition fileHeader : string := "originFile".

(** [os.Stdin.Name()] *)
Definition Stdin_Name : string := "/dev/stdin".

Section Certs.
Context {env : Decoders}.

(** [strings.ToLower]: bytes below [utf8.RuneSelf] are lowered one by
    one; other strings go through the Unicode tables. *)
Definition strings_ToLower (s : string) : string :=
  if all_ascii s then map_string lower_char s else unicode_ToLower s.

(** [formatForFile(file, filename, format)] *)
Definition formatForFile (file : Stream) (filename format : string)
    : result string :=
  if negb (bool_decide (format = "")) then Ok format
  else
    match fileExtToFormat !! strings_ToLower (Ext filename) with
    | Some guess => Ok guess
    | None =>
        match Peek file 4 with
        | (_, Some err) => Err ("unable to read file: " ++ err ++ nl)
        | (data, None) =>
            match BigEndian_Uint32 data with
            | Some magic => guess_magic magic
            | None => Panic
            end
        end
    end.

(** [EncodeX509ToPEM(cert, headers)] *)
Definition EncodeX509ToPEM (cert : Certificate) (headers : headers) : Block :=
  {| Type' := "CERTIFICATE"; Bytes := Raw cert; Headers := headers |}.

(** [pkcs7ToPem(block, headers)] *)
Definition pkcs7ToPem (block : SignedDataEnvelope) (headers : headers) : Block :=
  {| Type' := "PKCS7"; Bytes := EnvelopeRaw block; Headers := headers |}.

(** [keyToPem(key, headers)] *)
Definition keyToPem (key : PrivateKey) (headers : headers) : result Block :=
  match key with
  | RSAKey k =>
      Ok {| Type' := "RSA PRIVATE KEY";
            Bytes := x509_MarshalPKCS1PrivateKey k;
            Headers := headers |}
  | ECDSAKey k =>
      match x509_MarshalECPrivateKey k with
      | Ok raw =>
          Ok {| Type' := "EC PRIVATE KEY"; Bytes := raw; Headers := headers |}
      | Err _ => Err ("error marshaling key: " ++ TypeOf key ++ nl)
      | Panic => Panic
      end
  | OtherKey _ => Err ("unknown key type: " ++ TypeOf key ++ nl)
  end.

(** The split function that [pemScanner] installs:
    [(advance, token)], the error being always nil. *)
Definition pemSplit (data : list byte) : nat * option (list byte) :=
  match pem_Decode data with
  | Some (block, rest) =>
      let size := (length data - length rest)%nat in
      (size, Some (take size data))
  | None => (O, None)
  end.

(** *** [bufio.Scanner]

    The scanner that [bufio.NewScanner] makes: no buffer at first, a
    buffer of [startBufSize] bytes at the first read, doubled when it is
    full, up to [MaxScanTokenSize]. *)
Definition MaxScanTokenSize : nat := 64 * 1024.
Definition startBufSize : nat := 4096.

(** The fields of the scanner that [Scan] works on.  [buf_len] is
    [len(s.buf)], [scan_start] is [s.start], [pending] is
    [s.buf[s.start:s.end]]; [unread] is what the reader has not delivered
    yet, [delivered] the number of bytes that it has delivered; [failed] is
    [s.err != nil]. *)
Record Scanner := {
  buf_len : nat;
  scan_start : nat;
  pending : list byte;
  unread : list byte;
  delivered : nat;
  failed : bool;
}.

(** [s.end] *)
Definition scan_end (s : Scanner) : nat := (scan_start s + length (pending s))%nat.

Definition NewScanner (reader : Stream) : Scanner :=
  {| buf_len := 0; scan_start := 0; pending := []; unread := data reader;
     delivered := 0; failed := false |}.

(** One round of the loop of [Scan]: a token, the end of the scan, or
    another round. *)
Inductive ScanStep :=
| Token (token : list byte) (s : Scanner)
| Done (s : Scanner)
| Again (s : Scanner).

(** The read at the end of a round, into [s.buf[s.end:len(s.buf)]].  A
    read that delivers nothing ends the input for the scanner: end of
    file, an I/O error, or [io.ErrNoProgress]. *)
Definition scan_read (reader : Stream) (s : Scanner) : Scanner :=
  let space := (buf_len s - scan_end s)%nat in
  let n := Nat.min (read_size reader (delivered s) space)
                   (Nat.min space (length (unread s))) in
  if (n =? 0)%nat then
    {| buf_len := buf_len s; scan_start := scan_start s; pending := pending s;
       unread := unread s; delivered := delivered s; failed := true |}
  else
    {| buf_len := buf_len s; scan_start := scan_start s;
       pending := pending s ++ take n (unread s);
       unread := drop n (unread s);
       delivered := (delivered s + n)%nat; failed := false |}.

Definition scan_round (reader : Stream) (s : Scanner) : ScanStep :=
  (* See if we can get a token with what we already have. *)
  match (if (0 <? length (pending s))%nat || failed s
         then pemSplit (pending s) else (O, None)) with
  | (advance, Some token) =>
      Token token
        {| buf_len := buf_len s; scan_start := (scan_start s + advance)%nat;
           pending := drop advance (pending s); unread := unread s;
           delivered := delivered s; failed := failed s |}
  | (_, None) =>
      if failed s then
        (* We have hit EOF or an I/O error: shut it down. *)
        Done {| buf_len := buf_len s; scan_start := 0; pending := [];
                unread := unread s; delivered := delivered s;
                failed := true |}
      else
        (* Shift data to the beginning of the buffer. *)
        let start1 :=
          if (0 <? scan_start s)%nat
             && ((scan_end s =? buf_len s)%nat || (buf_len s / 2 <? scan_start s)%nat)
          then O else scan_start s in
        let end1 := (start1 + length (pending s))%nat in
        (* Is the buffer full?  If so, resize. *)
        if (end1 =? buf_len s)%nat then
          if (MaxScanTokenSize <=? buf_len s)%nat then
            (* ErrTooLong *)
            Done {| buf_len := buf_len s; scan_start := start1;
                    pending := pending s; unread := unread s;
                    delivered := delivered s; failed := true |}
          else
            let newSize0 := (buf_len s * 2)%nat in
            let newSize1 := if (newSize0 =? 0)%nat then startBufSize else newSize0 in
            let newSize :=
              if (MaxScanTokenSize <? newSize1)%nat then MaxScanTokenSize
              else newSize1 in
            Again (scan_read reader
                     {| buf_len := newSize; scan_start := 0; pending := pending s;
                        unread := unread s; delivered := delivered s;
                        failed := false |})
        else
          Again (scan_read reader
                   {| buf_len := buf_len s; scan_start := start1;
                      pending := pending s; unread := unread s;
                      delivered := delivered s; failed := false |})
  end.

(** [Scan()]: rounds until a token or the end.  Every round that asks for
    another reads a byte at least or ends the input, so that
    [length (unread s) + 2] rounds are enough ([Scan_rounds_enough]). *)
Fixpoint Scan_rounds (reader : Stream) (n : nat) (s : Scanner)
    : option (list byte) * Scanner :=
  match n with
  | O => (None, s)
  | S n' =>
      match scan_round reader s with
      | Token token s' => (Some token, s')
      | Done s' => (None, s')
      | Again s' => Scan_rounds reader n' s'
      end
  end.

Definition Scan (reader : Stream) (s : Scanner) : option (list byte) * Scanner :=
  Scan_rounds reader (length (unread s) + 2) s.

(** The tokens of [for scanner.Scan() { ... scanner.Bytes() ... }].  Every
    token takes a byte at least, so that [n] tokens are enough when [n]
    bytes are left ([scan_tokens_enough]). *)
Fixpoint scan_tokens (reader : Stream) (n : nat) (s : Scanner)
    : list (list byte) :=
  match n with
  | O => []
  | S n' =>
      match Scan reader s with
      | (Some token, s') => token :: scan_tokens reader n' s'
      | (None, _) => []
      end
  end.

(** The tokens that the loop over [pemScanner(reader)] sees. *)
Definition pemScanner (reader : Stream) : list (list byte) :=
  scan_tokens reader (length (data reader)) (NewScanner reader).

Definition set_Headers (block : Block) (h : headers) : Block :=
  {| Type' := Type' block; Headers := h; Bytes := Bytes block |}.

(** [readCertsFromStream(reader, filename, format, password, callback)] *)
Definition readCertsFromStream {Ev} (reader : Stream) (filename format : string)
    (password : string -> string) (callback : Block -> io Ev unit)
    : io Ev unit :=
  let headers : headers :=
    if bool_decide (filename ≠ "") && bool_decide (filename ≠ Stdin_Name)
    then <[fileHeader := filename]> ∅ else ∅ in
  let unknown : io Ev unit :=
    fail ("unknown file type: " ++ format ++ nl) in
  if bool_decide (format = "PEM") then
    for_range (pemScanner reader) (fun token =>
      match pem_Decode token with
      | Some (block, _) =>
          callback (set_Headers block (mergeHeaders (Headers block) headers))
      | None => panic
      end) ;;
    unknown
  else if bool_decide (format = "DER") then
    match ReadAll reader with
    | Ok data =>
        match x509_ParseCertificates data with
        | Ok x509Certs =>
            for_range x509Certs (fun cert =>
              callback (EncodeX509ToPEM cert headers))
        | Err _ =>
            match pkcs7_ParseSignedData data with
            | Ok p7bBlocks =>
                for_range p7bBlocks (fun block =>
                  callback (pkcs7ToPem block headers))
            | Err _ => fail ("error parsing certificates from DER data" ++ nl)
            | Panic => panic
            end
        | Panic => panic
        end
    | Err err => fail ("error reading input: " ++ err ++ nl)
    | Panic => panic
    end
  else if bool_decide (format = "PKCS12") then
    match ReadAll reader with
    | Ok data =>
        let '(blocks, err) := pkcs12_ToPEM data (password "") in
        (if bool_decide (err ≠ None) || bool_decide (length blocks = O)
         then eprint ("keystore appears to be empty or password was incorrect" ++ nl)
         else mret tt) ;;
        for_range blocks (fun block =>
          callback (set_Headers block (mergeHeaders (Headers block) headers))) ;;
        unknown
    | Err err => fail ("error reading input: " ++ err ++ nl)
    | Panic => panic
    end
  else if bool_decide (format = "JCEKS") then
    match jceks_LoadFromReader reader (String.list_byte_of_string (password "")) with
    | Ok keyStore =>
        for_range (ListCerts keyStore) (fun alias =>
          match GetCert keyStore alias with
          | Some cert =>
              callback (EncodeX509ToPEM cert
                (mergeHeaders headers (<[nameHeader := alias]> ∅)))
          | None => panic
          end) ;;
        for_range (ListPrivateKeys keyStore) (fun alias =>
          match GetPrivateKeyAndCerts keyStore alias
                  (String.list_byte_of_string (password alias)) with
          | Ok (key, certs) =>
              match keyToPem key (mergeHeaders headers (<[nameHeader := alias]> ∅)) with
              | Ok block =>
                  callback block ;;
                  for_range certs (fun cert =>
                    callback (EncodeX509ToPEM cert
                      (mergeHeaders headers (<[nameHeader := alias]> ∅))))
              | Err err => fail ("error reading key: " ++ err ++ nl)
              | Panic => panic
              end
          | Err err => fail ("error parsing keystore: " ++ err ++ nl)
          | Panic => panic
          end) ;;
        unknown
    | Err err => fail ("error parsing keystore: " ++ err ++ nl)
    | Panic => panic
    end
  else unknown.

(** [pemToX509(callback)]: the calls of [callback] that one call of the
    returned function makes. *)
Definition pemToX509 (callback : Certificate -> io Certificate unit)
    (block : Block) : io Certificate unit :=
  if bool_decide (Type' block = "CERTIFICATE") then
    match x509_ParseCertificate (Bytes block) with
    | Ok cert => callback cert
    | Err _ => mret tt
    | Panic => panic
    end
  else if bool_decide (Type' block = "PKCS7") then
    match pkcs7_ExtractCertificates (Bytes block) with
    | Ok certs => for_range certs callback
    | Err _ => mret tt
    | Panic => panic
    end
  else mret tt.

(** [os.File]: its name and what reading it delivers. *)
Record File := {
  Name : string;
  content : Stream;
}.

(** [ReadPEMFromFiles(files, format, password, callback)] *)
Definition ReadPEMFromFiles {Ev} (files : list File) (format : string)
    (password : string -> string) (callback : Block -> io Ev unit)
    : io Ev unit :=
  for_range files (fun file =>
    let reader := content file in
    match formatForFile reader (Name file) format with
    | Ok format =>
        discard_error
          (readCertsFromStream reader (Name file) format password callback)
    | Err _ =>
        fail ("unable to guess file type (for file " ++ Name file ++ ")" ++ nl)
    | Panic => panic
    end).

(** [ReadPEM(readers, format, password, callback)] *)
Definition ReadPEM {Ev} (readers : list Stream) (format : string)
    (password : string -> string) (callback : Block -> io Ev unit)
    : io Ev unit :=
  for_range readers (fun r =>
    let reader := r in
    match formatForFile reader "" format with
    | Ok format =>
        discard_error (readCertsFromStream reader "" format password callback)
    | Err _ => fail "unable to guess format for input stream"
    | Panic => panic
    end).

(** [ReadX509FromFiles(files, format, password, callback)] *)
Definition ReadX509FromFiles (files : list File) (format : string)
    (password : string -> string)
    (callback : Certificate -> io Certificate unit)
    : io Certificate unit :=
  for_range files (fun file =>
    let reader := content file in
    match formatForFile reader (Name file) format with
    | Ok format =>
        discard_error
          (readCertsFromStream reader (Name file) format password
             (pemToX509 callback))
    | Err _ =>
        fail ("unable to guess file type (for file " ++ Name file ++ ")")
    | Panic => panic
    end).

(** [ReadX509(readers, format, password, callback)] *)
Definition ReadX509 (readers : list Stream) (format : string)
    (password : string -> string)
    (callback : Certificate -> io Certificate unit)
    : io Certificate unit :=
  for_range readers (fun r =>
    let reader := r in
    match formatForFile reader "" format with
    | Ok format =>
        discard_error
          (readCertsFromStream reader "" format password (pemToX509 callback))
    | Err _ => fail "unable to guess format for input stream"
    | Panic => panic
    end).

End Certs.

(** ** Vocabulary of the statements *)

(** The reader of the stream makes progress: while bytes are left, a
    read into a slice that has room delivers one byte at least. *)
Definition delivers {env : Decoders} (reader : Stream) : Prop :=
  forall off space,
    (0 < space)%nat -> (off < length (data reader))%nat ->
    (0 < read_size reader off space)%nat.

(** [input] holds the blocks [blocks], as [pem.Decode] finds them in the
    buffers of a scanner.  Whatever part of the unread input, up to
    [MaxScanTokenSize] bytes from its start, is in the buffer: [pem.Decode]
    finds no block in it, or finds one, and then the bytes that it took
    decode to the first of the blocks and the input after them holds the
    other blocks in the same way.  When [MaxScanTokenSize] bytes of the
    input, or all of it, are in the buffer, [pem.Decode] finds a block.
    After the last block it finds none. *)
Fixpoint reads {env : Decoders} (blocks : list Block) (input : list byte) : Prop :=
  match blocks with
  | [] =>
      forall n, (n <= MaxScanTokenSize)%nat -> pem_Decode (take n input) = None
  | block :: blocks' =>
      pem_Decode (take MaxScanTokenSize input) ≠ None /\
      forall n found rest,
        (n <= MaxScanTokenSize)%nat ->
        pem_Decode (take n input) = Some (found, rest) ->
        let size := (length (take n input) - length rest)%nat in
        (exists rest', pem_Decode (take size input) = Some (block, rest')) /\
        reads blocks' (drop size input)
  end.

(** What holds of a scanner between rounds: the pending bytes lie in the
    buffer, and the buffer is not larger than a token may be. *)
Definition scanner_ok (s : Scanner) : Prop :=
  (scan_end s <= buf_len s)%nat /\ (buf_len s <= MaxScanTokenSize)%nat.

(** The rounds that a scan can still ask for. *)
Definition scan_measure (s : Scanner) : nat :=
  (length (unread s) + (if failed s then 0 else 1))%nat.

(** What holds of a scanner over [reader] between rounds when the reader
    delivers: every byte of the stream is delivered or unread, and a read
    came back empty only at the end of the stream. *)
Definition scan_inv (reader : Stream) (s : Scanner) : Prop :=
  scanner_ok s /\
  (delivered s + length (unread s) = length (data reader))%nat /\
  (failed s = true -> unread s = []).

(** The provenance headers that [readCertsFromStream] builds from the file
    name. *)
Definition origin_headers (filename : string) : headers :=
  if bool_decide (filename ≠ "") && bool_decide (filename ≠ Stdin_Name)
  then <[fileHeader := filename]> ∅ else ∅.

(** The warning of the PKCS12 branch. *)
Definition pkcs12_warning : string :=
  "keystore appears to be empty or password was incorrect" ++ nl.

(** The headers of the blocks of one keystore alias:
    [mergeHeaders(headers, map[string]string{nameHeader: alias})]. *)
Definition alias_headers (filename alias : string) : headers :=
  mergeHeaders (origin_headers filename) (<[nameHeader := alias]> ∅).

(** The world after the callback has been called with [evs], in order. *)
Definition called {Ev} (w : World Ev) (evs : list Ev) : World Ev :=
  {| calls := calls w ++ evs; stderr := stderr w |}.

(** The world after [msgs] have been written to standard error. *)
Definition warned {Ev} (w : World Ev) (msgs : list string) : World Ev :=
  {| calls := calls w; stderr := stderr w ++ msgs |}.

(** The outcome [r] of the inputs before, and then the error [e] if they
    all went through. *)
Definition then_fail {Ev} (r : result unit * World Ev) (e : error)
    : result unit * World Ev :=
  match r with
  | (Ok _, w') => (Err e, w')
  | (Err e', w') => (Err e', w')
  | (Panic, w') => (Panic, w')
  end.

(** The outcome [r] of the inputs before, and then [k] on the world they
    left if they all went through. *)
Definition and_then {Ev} (r : result unit * World Ev)
    (k : World Ev -> result unit * World Ev) : result unit * World Ev :=
  match r with
  | (Ok _, w') => k w'
  | (Err e', w') => (Err e', w')
  | (Panic, w') => (Panic, w')
  end.

(** ** Vocabulary of the further properties *)

(** An extension body: no dot and no path separator in it. *)
Fixpoint plain_suffix (s : string) : bool :=
  match s with
  | EmptyString => true
  | String c s' =>
      negb (IsPathSeparator c) && negb (bool_decide (c = "."%char))
      && plain_suffix s'
  end.

(** The certificates that one call of [pemToX509(callback)] hands to
    [callback]. *)
Definition certs_of_block {env : Decoders} (block : Block) : list Certificate :=
  if bool_decide (Type' block = "CERTIFICATE") then
    match x509_ParseCertificate (Bytes block) with
    | Ok cert => [cert]
    | _ => []
    end
  else if bool_decide (Type' block = "PKCS7") then
    match pkcs7_ExtractCertificates (Bytes block) with
    | Ok certs => certs
    | _ => []
    end
  else [].

(** The world of a certificate consumer that corresponds to the world of a
    block consumer. *)
Definition to_certs {env : Decoders} (w : World Block) : World Certificate :=
  {| calls := calls w ≫= certs_of_block; stderr := stderr w |}.

Definition as_certs {env : Decoders} (o : result unit * World Block)
    : result unit * World Certificate :=
  (o.1, to_certs o.2).

(** The two parsers of [pemToX509] return: with a value or with an error. *)
Definition parsers_return {env : Decoders} : Prop :=
  forall der, x509_ParseCertificate der ≠ Panic /\
              pkcs7_ExtractCertificates der ≠ Panic.

(** A computation of a block consumer and one of a certificate consumer
    that end alike, in corresponding worlds, when started in corresponding
    worlds. *)
Definition commutes {env : Decoders}
    (m1 : io Block unit) (m2 : io Certificate unit) : Prop :=
  forall w, m2 (to_certs w) = as_certs (m1 w).

(** The headers that the PEM and PKCS12 branches give a block. *)
Definition annotate (filename : string) (block : Block) : Block :=
  set_Headers block (mergeHeaders (Headers block) (origin_headers filename)).

(** ** A sample environment

    Decoders that answer as the libraries do on the inputs of the examples
    below, and reject every other input.  The PEM decoder reads one of
    four known block texts at the head of its input.  A read delivers 16
    bytes at most. *)

#[export] Instance byte_eq_decision : EqDecision byte := Byte.byte_eq_dec.

Fixpoint is_prefix (t d : list byte) : bool :=
  match t, d with
  | [], _ => true
  | x :: t', y :: d' => bool_decide (x = y) && is_prefix t' d'
  | _ :: _, [] => false
  end.

(** The first text of the table that the input starts with, its block, and
    the input after the text. *)
Fixpoint decode_head (tbl : list (list byte * Block)) (d : list byte)
    : option (Block * list byte) :=
  match tbl with
  | [] => None
  | (t, b) :: tbl' =>
      if is_prefix t d then Some (b, drop (length t) d) else decode_head tbl' d
  end.

Module Sample.

Definition bytes (s : string) : list byte := String.list_byte_of_string s.

Definition pem_text (type : string) (header_lines : string) (body : string)
    : list byte :=
  bytes ("-----BEGIN " ++ type ++ "-----" ++ nl ++ header_lines
         ++ body ++ nl ++ "-----END " ++ type ++ "-----" ++ nl).

(** Three blocks without headers; the bodies are the base64 forms of
    the bytes 1 2 3, 4 5 6 and 7 8 9. *)
Definition text1 : list byte := pem_text "CERTIFICATE" "" "AQID".
Definition text2 : list byte := pem_text "CERTIFICATE" "" "BAUG".
Definition text3 : list byte := pem_text "CERTIFICATE" "" "BwgJ".

Definition block1 : Block :=
  {| Type' := "CERTIFICATE"; Headers := ∅; Bytes := [x01; x02; x03] |}.
Definition block2 : Block :=
  {| Type' := "CERTIFICATE"; Headers := ∅; Bytes := [x04; x05; x06] |}.
Definition block3 : Block :=
  {| Type' := "CERTIFICATE"; Headers := ∅; Bytes := [x07; x08; x09] |}.

(** A block that carries an [originFile] header of its own. *)
Definition text_with_header : list byte :=
  pem_text "CERTIFICATE" ("originFile: other.pem" ++ nl ++ nl) "AQID".

Definition block_with_header : Block :=
  {| Type' := "CERTIFICATE";
     Headers := <[fileHeader := "other.pem"]> ∅;
     Bytes := [x01; x02; x03] |}.

Definition pem_table : list (list byte * Block) :=
  [ (text1, block1); (text2, block2); (text3, block3);
    (text_with_header, block_with_header) ].

(** Bytes that look like DER but hold no certificate and no PKCS#7
    structure. *)
Definition der_garbage : list byte := [x30; x82; x03; x00; xff; xff].

(** A certificate in DER form, by its bytes alone. *)
Definition der_cert : list byte := [x30; x82; x03; x01; x30; x00].

Definition p12_data : list byte := [x30; x82; x0a; x00; x02; x01; x03].

Definition p12_key_block : Block :=
  {| Type' := "PRIVATE KEY"; Headers := ∅; Bytes := [x0a; x0b] |}.

Definition jceks_data : list byte := [xce; xce; xce; xce; x00; x00; x00; x02].

Definition cert_a : Certificate := {| Raw := [xa1] |}.
Definition cert_b : Certificate := {| Raw := [xb2] |}.
Definition cert_c : Certificate := {| Raw := [xc3] |}.

Definition rsa_key : rsa_PrivateKey :=
  {| rsa_N := 3233; rsa_E := 17; rsa_D := 413; rsa_Primes := [61; 53]%Z |}.

Definition ec_key : ecdsa_PrivateKey :=
  {| ec_Curve := "P-256"; ec_X := 1; ec_Y := 2; ec_D := 3 |}.

(** A key on a curve that [x509] has no object identifier for. *)
Definition ec_key_custom_curve : ecdsa_PrivateKey :=
  {| ec_Curve := "custom"; ec_X := 1; ec_Y := 2; ec_D := 3 |}.

(** One trusted certificate [ca] and one key [server] with a chain of
    two certificates, the key under the password ["keypass"]. *)
Definition key_store : KeyStore :=
  {| ListCerts := ["ca"];
     GetCert := fun alias =>
       if bool_decide (alias = "ca") then Some cert_a else None;
     ListPrivateKeys := ["server"];
     GetPrivateKeyAndCerts := fun alias password =>
       if bool_decide (alias = "server") then
         if bool_decide (password = bytes "keypass")
         then Ok (RSAKey rsa_key, [cert_b; cert_c])
         else Err "jceks: private key decrypt error"
       else Err "jceks: no such alias" |}.

#[export, refine] Instance decoders : Decoders := {|
  unicode_ToLower := fun s => s;
  pem_Decode := decode_head pem_table;
  x509_ParseCertificate := fun der =>
    if bool_decide (der = []) then Err "asn1: syntax error"
    else Ok {| Raw := der |};
  x509_ParseCertificates := fun der =>
    if bool_decide (der = der_cert) then Ok [{| Raw := der_cert |}]
    else Err "asn1: structure error";
  x509_MarshalPKCS1PrivateKey := fun k => [x30; x00];
  x509_MarshalECPrivateKey := fun k =>
    if bool_decide (ec_Curve k ∈ ["P-224"; "P-256"; "P-384"; "P-521"])
    then Ok [x30; x01]
    else Err "x509: unknown elliptic curve";
  pkcs7_ParseSignedData := fun der => Err "asn1: structure error";
  pkcs7_ExtractCertificates := fun der => Err "asn1: structure error";
  pkcs12_ToPEM := fun pfxData password =>
    if bool_decide (pfxData = p12_data) && bool_decide (password = "storepass")
    then ([p12_key_block], None)
    else ([], Some "pkcs12: decryption password incorrect");
  jceks_LoadFromReader := fun reader password =>
    if bool_decide (data reader = jceks_data)
       && bool_decide (failure reader = None)
       && bool_decide (password = bytes "storepass")
    then Ok key_store
    else Err "jceks: invalid digest";
  read_size := fun reader off space => 16%nat;
|}.
Proof.
  intros d b r Hd.
  assert (Forall (fun e => 0 < length (e.1))%nat pem_table) as Htbl.
  { repeat constructor. }
  induction Htbl as [|[t b'] tbl Ht Htbl IH]; simpl in Hd; [done|].
  destruct (is_prefix t d) eqn:Hpre; [|by apply IH].
  injection Hd as _ <-. simpl in Ht.
  destruct d as [|y d]; [by destruct t|].
  rewrite length_drop. simpl. lia.
Defined.

(** The password provider of the examples. *)
Definition password (alias : string) : string :=
  if bool_decide (alias = "") then "storepass" else "keypass".

Definition wrong_password (alias : string) : string := "guess".

End Sample.

(** ** [encoding/pem]

    [pem.Decode] is a function of the Go library, not of the repository.
    What follows is that function as the library has it, for the statements
    that depend on how it reads its input.  Two functions that it calls are
    left open: [bytes.TrimSpace], which trims the key and the value of a
    header, and [base64.StdEncoding.Decode], which decodes the body. *)
Module pem.

Definition bytes_of (s : string) : list byte := String.list_byte_of_string s.

(** [var pemStart = []byte("\n-----BEGIN ")] and the other markers. *)
Definition pemStart : list byte := bytes_of (nl ++ "-----BEGIN ").
Definition pemEnd : list byte := bytes_of (nl ++ "-----END ").
Definition pemEndOfLine : list byte := bytes_of "-----".
Definition colon : list byte := bytes_of ":".

(** *** The functions of package [bytes] that [pem.Decode] calls *)

(** [bytes.HasPrefix(s, prefix)] *)
Definition HasPrefix (s prefix : list byte) : bool :=
  bool_decide (take (length prefix) s = prefix).

(** [bytes.HasSuffix(s, suffix)] *)
Definition HasSuffix (s suffix : list byte) : bool :=
  bool_decide (drop (length s - length suffix) s = suffix).

(** [bytes.Index(s, sep)]: the index of the first instance of [sep] in [s],
    [None] for -1. *)
Fixpoint Index (s sep : list byte) : option nat :=
  if HasPrefix s sep then Some O
  else match s with
       | [] => None
       | _ :: s' => S <$> Index s' sep
       end.

(** [bytes.IndexByte(b, c)] *)
Definition IndexByte (b : list byte) (c : byte) : option nat := Index b [c].

(** [bytes.Cut(s, sep)]: [s] around the first instance of [sep]. *)
Definition Cut (s sep : list byte) : option (list byte * list byte) :=
  match Index s sep with
  | Some i => Some (take i s, drop (i + length sep) s)
  | None => None
  end.

(** [bytes.TrimRight(s, cutset)] *)
Fixpoint TrimRight (s cutset : list byte) : list byte :=
  match s with
  | [] => []
  | c :: s' =>
      match TrimRight s' cutset with
      | [] => if bool_decide (c ∈ cutset) then [] else [c]
      | t => c :: t
      end
  end.

(** [getLine(data)]: the first line of [data], without its line end and
    without blanks at its end, and what follows the line. *)
Definition getLine (data : list byte) : list byte * list byte :=
  let '(i, j) :=
    match IndexByte data x0a with
    | None => (length data, length data)
    | Some i =>
        (if (0 <? i)%nat && bool_decide (data !! (i - 1)%nat = Some x0d)
         then (i - 1)%nat else i,
         (i + 1)%nat)
    end in
  (TrimRight (take i data) [x20; x09], drop j data).

(** [removeSpacesAndTabs(data)] *)
Definition removeSpacesAndTabs (data : list byte) : list byte :=
  filter (fun b => b ≠ x20 /\ b ≠ x09) data.

Section Decode.
Variable TrimSpace : list byte -> list byte.
Variable StdEncoding_Decode : list byte -> option (list byte).

(** The loop over the header lines: the headers read so far and the input
    from the first line that has no colon, or [None] where the input ends
    first.  Every line read makes the input shorter, so [length rest] turns
    are enough for [n]. *)
Fixpoint read_headers (n : nat) (Headers : headers) (rest : list byte)
    : option (headers * list byte) :=
  if (length rest =? 0)%nat then None
  else
    let '(line, next) := getLine rest in
    match Cut line colon with
    | None => Some (Headers, rest)
    | Some (key, val) =>
        match n with
        | O => None
        | S n' =>
            read_headers n'
              (<[String.string_of_list_byte (TrimSpace key) :=
                   String.string_of_list_byte (TrimSpace val)]> Headers)
              next
        end
    end.

(** One turn of the loop of [Decode] returns, with a block or without, or
    goes on with what is left of the input. *)
Inductive Turn :=
| Return (p : option Block) (rest : list byte)
| Continue (rest : list byte).

(** The start of a turn: the input after the next BEGIN marker, which at
    the very start of the input needs no line end before it. *)
Definition after_start (rest : list byte) : option (list byte) :=
  if HasPrefix rest (drop 1 pemStart)
  then Some (drop (length pemStart - 1) rest)
  else match Cut rest pemStart with
       | Some (_, after) => Some after
       | None => None
       end.

(** Where the END marker is: [endIndex] and [endTrailerIndex].  Without
    headers the marker may come at once, and then needs no line end before
    it. *)
Definition end_marker (Headers : headers) (rest : list byte) : option (nat * nat) :=
  if bool_decide (size Headers = O) && HasPrefix rest (drop 1 pemEnd)
  then Some (O, (length pemEnd - 1)%nat)
  else match Index rest pemEnd with
       | Some endIndex => Some (endIndex, (endIndex + length pemEnd)%nat)
       | None => None
       end.

(** The end of a turn, from the search for the END marker on. *)
Definition to_end (typeLine : list byte) (Headers : headers) (rest : list byte)
    : Turn :=
  match end_marker Headers rest with
  | None => Continue rest
  | Some (endIndex, endTrailerIndex) =>
      let endTrailer := drop endTrailerIndex rest in
      let endTrailerLen := (length typeLine + length pemEndOfLine)%nat in
      if (length endTrailer <? endTrailerLen)%nat then Continue rest
      else
        let restOfEndLine := drop endTrailerLen endTrailer in
        let endTrailer := take endTrailerLen endTrailer in
        if negb (HasPrefix endTrailer typeLine)
           || negb (HasSuffix endTrailer pemEndOfLine)
        then Continue rest
        else if negb (length (getLine restOfEndLine).1 =? 0)%nat
        then Continue rest
        else
          match StdEncoding_Decode (removeSpacesAndTabs (take endIndex rest)) with
          | None => Continue rest
          | Some decoded =>
              Return
                (Some {| Type' := String.string_of_list_byte typeLine;
                         Headers := Headers;
                         Bytes := decoded |})
                (getLine (drop (endIndex + length pemEnd - 1) rest)).2
          end
  end.

Definition turn (data rest : list byte) : Turn :=
  match after_start rest with
  | None => Return None data
  | Some rest =>
      let '(typeLine, rest) := getLine rest in
      if negb (HasSuffix typeLine pemEndOfLine) then Continue rest
      else
        let typeLine := take (length typeLine - length pemEndOfLine) typeLine in
        match read_headers (length rest) ∅ rest with
        | None => Return None data
        | Some (Headers, rest) => to_end typeLine Headers rest
        end
  end.

(** The loop of [Decode]; every turn that continues has made [rest]
    shorter, so [length data + 1] turns are enough for [n]. *)
Fixpoint loop (n : nat) (data rest : list byte) : option Block * list byte :=
  match n with
  | O => (None, data)
  | S n' =>
      match turn data rest with
      | Return p rest' => (p, rest')
      | Continue rest' => loop n' data rest'
      end
  end.

(** [pem.Decode(data)]: the next block and the rest of the input, or no
    block and the input. *)
Definition Decode (data : list byte) : option (Block * list byte) :=
  match loop (S (length data)) data data with
  | (Some p, rest) => Some (p, rest)
  | (None, _) => None
  end.

End Decode.

End pem.

(** ** The decoder of the library, as an instance

    [pem.Decode] with a [bytes.TrimSpace] for ASCII input and the standard
    base64 decoding of the body; the other decoders are those of [Sample].
    A read fills the slice that it is given. *)
Module GoPem.

Definition is_space (b : byte) : bool :=
  bool_decide (b ∈ [x09; x0a; x0b; x0c; x0d; x20]).

Fixpoint TrimLeft (s : list byte) : list byte :=
  match s with
  | [] => []
  | b :: s' => if is_space b then TrimLeft s' else s
  end.

(** [bytes.TrimSpace], on input that is ASCII. *)
Definition TrimSpace (s : list byte) : list byte :=
  pem.TrimRight (TrimLeft s) [x09; x0a; x0b; x0c; x0d; x20].

(** The value of a digit of the standard base64 alphabet. *)
Definition base64_digit (b : byte) : option N :=
  let n := Byte.to_N b in
  if (65 <=? n)%N && (n <=? 90)%N then Some (n - 65)%N
  else if (97 <=? n)%N && (n <=? 122)%N then Some (n - 71)%N
  else if (48 <=? n)%N && (n <=? 57)%N then Some (n + 4)%N
  else if (n =? 43)%N then Some 62%N
  else if (n =? 47)%N then Some 63%N
  else None.

Definition byte_of_N (n : N) : byte := default x00 (Byte.of_N (n mod 256)%N).

(** Groups of four digits, the last one padded with [=] where the bytes
    are one or two short of a multiple of three. *)
Fixpoint base64_quads (s : list byte) : option (list byte) :=
  match s with
  | [] => Some []
  | c1 :: c2 :: c3 :: c4 :: s' =>
      match base64_digit c1, base64_digit c2 with
      | Some d1, Some d2 =>
          let b1 := byte_of_N (d1 * 4 + d2 / 16) in
          if bool_decide (c3 = x3d) then
            if bool_decide (c4 = x3d) && bool_decide (s' = [])
            then Some [b1] else None
          else
            match base64_digit c3 with
            | Some d3 =>
                let b2 := byte_of_N (d2 * 16 + d3 / 4) in
                if bool_decide (c4 = x3d) then
                  if bool_decide (s' = []) then Some [b1; b2] else None
                else
                  match base64_digit c4 with
                  | Some d4 =>
                      let b3 := byte_of_N (d3 * 64 + d4) in
                      (fun decoded => b1 :: b2 :: b3 :: decoded)
                        <$> base64_quads s'
                  | None => None
                  end
            | None => None
            end
      | _, _ => None
      end
  | _ => None
  end.

(** [base64.StdEncoding.Decode], which passes over line ends. *)
Definition StdEncoding_Decode (src : list byte) : option (list byte) :=
  base64_quads (filter (fun b => b ≠ x0d /\ b ≠ x0a) src).

Definition Decode : list byte -> option (Block * list byte) :=
  pem.Decode TrimSpace StdEncoding_Decode.

(** The instance, for a proof that a block that is found takes up bytes. *)
Definition decoders
    (shorter : forall d b r,
       Decode d = Some (b, r) -> (length r < length d)%nat)
    : Decoders :=
  {| unicode_ToLower := unicode_ToLower (Decoders := Sample.decoders);
     pem_Decode := Decode;
     pem_Decode_rest := shorter;
     x509_ParseCertificate := x509_ParseCertificate (Decoders := Sample.decoders);
     x509_ParseCertificates := x509_ParseCertificates (Decoders := Sample.decoders);
     x509_MarshalPKCS1PrivateKey :=
       x509_MarshalPKCS1PrivateKey (Decoders := Sample.decoders);
     x509_MarshalECPrivateKey :=
       x509_MarshalECPrivateKey (Decoders := Sample.decoders);
     pkcs7_ParseSignedData := pkcs7_ParseSignedData (Decoders := Sample.decoders);
     pkcs7_ExtractCertificates :=
       pkcs7_ExtractCertificates (Decoders := Sample.decoders);
     pkcs12_ToPEM := pkcs12_ToPEM (Decoders := Sample.decoders);
     jceks_LoadFromReader := jceks_LoadFromReader (Decoders := Sample.decoders);
     read_size := fun reader off space => space |}.

End GoPem.

(** ** Checking that an input reads as blocks *)

#[export] Instance Block_eq_decision : EqDecision Block.
Proof. solve_decision. Defined.

(** The numbers of bytes that [pem.Decode] takes where it finds a block in
    the first [n] bytes of [input], for every [n]. *)
Definition consumed_sizes {env : Decoders} (input : list byte) : list nat :=
  remove_dups
    (omap (fun n =>
             match pem_Decode (take n input) with
             | Some (_, rest) => Some (length (take n input) - length rest)%nat
             | None => None
             end)
          (seq 0 (S (length input)))).

(** [reads blocks input], decided for an input that fits the buffer of a
    scanner. *)
Fixpoint reads_check {env : Decoders} (blocks : list Block) (input : list byte)
    : bool :=
  (length input <=? MaxScanTokenSize)%nat &&
  match blocks with
  | [] => bool_decide (consumed_sizes input = [])
  | block :: blocks' =>
      match pem_Decode input with Some _ => true | None => false end &&
      forallb (fun size =>
                 match pem_Decode (take size input) with
                 | Some (found, _) =>
                     bool_decide (found = block)
                     && reads_check blocks' (drop size input)
                 | None => false
                 end)
              (consumed_sizes input)
  end.

(** * Properties *)

(** ** Header merging *)

Lemma range_set_lookup kvs (h : headers) k :
  NoDup kvs.*1 ->
  range_set kvs h !! k =
    match list_to_map (M := headers) kvs !! k with
    | Some v => Some v
    | None => h !! k
    end.
Proof.
  revert h. induction kvs as [|[k' v'] kvs IH]; intros h Hnd; simpl.
  - by rewrite lookup_empty.
  - apply NoDup_cons in Hnd as [Hnotin Hnd].
    rewrite IH by done. unfold set_key; simpl.
    destruct (decide (k' = k)) as [->|Hne].
    + rewrite lookup_insert_eq.
      rewrite (not_elem_of_list_to_map_1 (M := gmap string) kvs k Hnotin).
      by rewrite lookup_insert_eq.
    + by rewrite !lookup_insert_ne.
Qed.

Lemma range_set_perm kvs (m h : headers) k :
  kvs ≡ₚ map_to_list m ->
  range_set kvs h !! k = match m !! k with Some v => Some v | None => h !! k end.
Proof.
  intros Hp.
  assert (NoDup kvs.*1) as Hnd.
  { rewrite Hp. apply NoDup_fst_map_to_list. }
  rewrite range_set_lookup by done.
  assert (list_to_map (M := headers) kvs = m) as ->; [|done].
  rewrite <- (list_to_map_to_list m).
  by apply list_to_map_proper.
Qed.

Lemma mergeHeaders_in_order_lookup lb le (base extra : headers) k :
  lb ≡ₚ map_to_list base -> le ≡ₚ map_to_list extra ->
  mergeHeaders_in_order lb le !! k =
    match extra !! k with Some v => Some v | None => base !! k end.
Proof.
  intros Hb He. unfold mergeHeaders_in_order.
  rewrite (range_set_perm le extra) by done.
  destruct (extra !! k); [done|].
  rewrite (range_set_perm lb base) by done.
  rewrite lookup_empty. by destruct (base !! k).
Qed.

Lemma mergeHeaders_lookup (base extra : headers) k :
  mergeHeaders base extra !! k =
    match extra !! k with Some v => Some v | None => base !! k end.
Proof. by apply mergeHeaders_in_order_lookup. Qed.

Lemma mergeHeaders_union (base extra : headers) :
  mergeHeaders base extra = extra ∪ base.
Proof.
  apply map_eq; intros k. rewrite mergeHeaders_lookup, lookup_union.
  by destruct (extra !! k), (base !! k).
Qed.

Lemma mergeHeaders_empty_r (base : headers) : mergeHeaders base ∅ = base.
Proof. rewrite mergeHeaders_union. apply (left_id_L ∅ (∪)). Qed.

Lemma mergeHeaders_dom (base extra : headers) :
  dom (mergeHeaders base extra) = dom base ∪ dom extra.
Proof. rewrite mergeHeaders_union, dom_union_L. apply (comm_L (∪)). Qed.

Lemma mergeHeaders_in_order_eq lb le (base extra : headers) :
  lb ≡ₚ map_to_list base -> le ≡ₚ map_to_list extra ->
  mergeHeaders_in_order lb le = mergeHeaders base extra.
Proof.
  intros Hb He. apply map_eq; intros k.
  by rewrite (mergeHeaders_in_order_lookup lb le base extra), mergeHeaders_lookup.
Qed.

Lemma range_store_insert l kvs (σ : GoMaps.heap) (m : headers) :
  σ !! l = Some m ->
  GoMaps.range_store l kvs σ = <[l := range_set kvs m]> σ.
Proof.
  revert σ m. induction kvs as [|kv kvs IH]; intros σ m Hl; simpl.
  - by rewrite insert_id.
  - change (GoMaps.range_store l kvs (GoMaps.store_key l σ kv)
            = <[l := range_set kvs (set_key m kv)]> σ).
    assert (GoMaps.store_key l σ kv = <[l := set_key m kv]> σ) as ->
      by (unfold GoMaps.store_key; by rewrite Hl).
    rewrite (IH _ (set_key m kv)) by apply lookup_insert_eq.
    by rewrite insert_insert_eq.
Qed.

Lemma contents_insert_valid (σ : GoMaps.heap) l m r :
  l ∉ dom σ -> GoMaps.valid σ r ->
  GoMaps.contents (<[l := m]> σ) r = GoMaps.contents σ r.
Proof.
  intros Hfresh Hvalid. destruct r as [|l']; simpl in *; [done|].
  rewrite lookup_insert_ne; [done|]. by intros ->.
Qed.

Lemma mergeHeaders_heap_value (σ : GoMaps.heap) (base extra : GoMaps.mapref) :
  GoMaps.valid σ base -> GoMaps.valid σ extra ->
  GoMaps.mergeHeaders σ base extra =
    (GoMaps.Ref (fresh (dom σ)),
     <[fresh (dom σ) :=
         mergeHeaders (GoMaps.contents σ base) (GoMaps.contents σ extra)]> σ).
Proof.
  intros Hb He.
  set (l := fresh (dom σ)).
  assert (l ∉ dom σ) as Hfresh by apply is_fresh.
  unfold GoMaps.mergeHeaders, GoMaps.make_map. fold l.
  set (σ0 := <[l := ∅]> σ).
  assert (GoMaps.contents σ0 base = GoMaps.contents σ base) as ->
    by (by apply contents_insert_valid).
  set (lb := map_to_list (GoMaps.contents σ base)).
  assert (GoMaps.range_store l lb σ0 = <[l := range_set lb ∅]> σ) as ->.
  { rewrite (range_store_insert l lb σ0 ∅) by apply lookup_insert_eq.
    apply insert_insert_eq. }
  assert (GoMaps.contents (<[l := range_set lb ∅]> σ) extra
          = GoMaps.contents σ extra) as ->
    by (by apply contents_insert_valid).
  set (le := map_to_list (GoMaps.contents σ extra)).
  f_equal.
  rewrite (range_store_insert l le _ (range_set lb ∅)) by apply lookup_insert_eq.
  apply insert_insert_eq.
Qed.

(** C6: [mergeHeaders(base, extra)] returns a new map whose keys are those
    of [base] and of [extra] together; a key of [extra] has the value of
    [extra], any other key the value of [base]; no map that existed before
    the call is changed, the two arguments among them; and the result does
    not depend on the order in which the two [range] loops visit the
    keys. *)
Theorem mergeHeaders_spec (σ : GoMaps.heap) (base extra : GoMaps.mapref) :
  GoMaps.valid σ base -> GoMaps.valid σ extra ->
  let b := GoMaps.contents σ base in
  let e := GoMaps.contents σ extra in
  let r := (GoMaps.mergeHeaders σ base extra).1 in
  let σ' := (GoMaps.mergeHeaders σ base extra).2 in
  let m := GoMaps.contents σ' r in
  dom m = (dom b ∪ dom e) /\
  (forall k v, e !! k = Some v -> m !! k = Some v) /\
  (forall k, e !! k = None -> m !! k = b !! k) /\
  (exists l, r = GoMaps.Ref l /\ (l ∉ dom σ) /\
             forall l', l' ≠ l -> σ' !! l' = σ !! l') /\
  GoMaps.contents σ' base = b /\
  GoMaps.contents σ' extra = e /\
  (forall lb le, lb ≡ₚ map_to_list b -> le ≡ₚ map_to_list e ->
                 mergeHeaders_in_order lb le = m) /\
  m = mergeHeaders b e.
Proof.
  intros Hb He b e r σ' m.
  set (l := fresh (dom σ)).
  assert (l ∉ dom σ) as Hfresh by apply is_fresh.
  pose proof (mergeHeaders_heap_value σ base extra Hb He) as Hvalue.
  fold l b e in Hvalue.
  assert (r = GoMaps.Ref l /\
          σ' = <[l := mergeHeaders b e]> σ) as [Hr Hσ'].
  { subst r σ'. by rewrite Hvalue. }
  assert (m = mergeHeaders b e) as Hm.
  { subst m. rewrite Hr, Hσ'. simpl. by rewrite lookup_insert_eq. }
  repeat split.
  - rewrite Hm. apply mergeHeaders_dom.
  - intros k v Hk. by rewrite Hm, mergeHeaders_lookup, Hk.
  - intros k Hk. by rewrite Hm, mergeHeaders_lookup, Hk.
  - exists l. repeat split; [done..|].
    intros l' Hne. rewrite Hσ'. by rewrite lookup_insert_ne.
  - rewrite Hσ'. by apply contents_insert_valid.
  - rewrite Hσ'. by apply contents_insert_valid.
  - intros lb le Hlb Hle. rewrite Hm. by apply mergeHeaders_in_order_eq.
  - done.
Qed.

(** [mergeHeaders_spec] on a heap of two maps that share the key
    [originFile]. *)
Lemma mergeHeaders_spec_witness :
  let σ : GoMaps.heap :=
    <[1%positive := <["originFile" := "a.pem"]> (<["Proc-Type" := "4"]> (∅ : headers))]>
      (<[2%positive := <["originFile" := "b.pem"]> (∅ : headers)]> ∅) in
  let r := (GoMaps.mergeHeaders σ (GoMaps.Ref 1%positive) (GoMaps.Ref 2%positive)).1 in
  let σ' := (GoMaps.mergeHeaders σ (GoMaps.Ref 1%positive) (GoMaps.Ref 2%positive)).2 in
  GoMaps.valid σ (GoMaps.Ref 1%positive) /\ GoMaps.valid σ (GoMaps.Ref 2%positive) /\
  GoMaps.contents σ' r =
    mergeHeaders (GoMaps.contents σ (GoMaps.Ref 1%positive))
                 (GoMaps.contents σ (GoMaps.Ref 2%positive)).
Proof.
  intros σ r σ'.
  assert (GoMaps.valid σ (GoMaps.Ref 1%positive)) as H1 by (vm_compute; set_solver).
  assert (GoMaps.valid σ (GoMaps.Ref 2%positive)) as H2 by (vm_compute; set_solver).
  split; [exact H1|]. split; [exact H2|].
  apply (mergeHeaders_spec σ (GoMaps.Ref 1%positive) (GoMaps.Ref 2%positive) H1 H2).
Defined.

(** ** Format detection *)

Lemma byte_to_Z_range b : (0 <= byte_to_Z b < 256)%Z.
Proof.
  unfold byte_to_Z. pose proof (Byte.to_N_bounded b). lia.
Qed.

Lemma byte_to_Z_inj b b' : byte_to_Z b = byte_to_Z b' -> b = b'.
Proof.
  unfold byte_to_Z. intros Heq%(inj Z.of_N).
  pose proof (Byte.of_to_N b) as Hb. rewrite Heq, Byte.of_to_N in Hb.
  congruence.
Qed.

Lemma lor_shiftl_add (hi lo n : Z) :
  (0 <= n)%Z -> (0 <= lo < 2 ^ n)%Z ->
  Z.lor lo (Z.shiftl hi n) = (lo + hi * 2 ^ n)%Z.
Proof.
  intros Hn Hlo.
  assert (Z.land lo (Z.shiftl hi n) = 0%Z) as Hdisj.
  { apply Z.bits_inj'. intros k Hk.
    rewrite Z.land_spec, Z.bits_0.
    destruct (decide (k < n)%Z) as [Hlt|Hge].
    - rewrite (Z.shiftl_spec_low hi n k) by lia. apply andb_false_r.
    - assert (lo = lo mod 2 ^ n)%Z as -> by (symmetry; apply Z.mod_small; lia).
      rewrite Z.mod_pow2_bits_high by lia. done. }
  rewrite <- Z.lxor_lor by done.
  rewrite <- Z.add_nocarry_lxor by done.
  rewrite Z.shiftl_mul_pow2 by lia. done.
Qed.

Lemma BigEndian_Uint32_value b0 b1 b2 b3 rest :
  BigEndian_Uint32 (b0 :: b1 :: b2 :: b3 :: rest) = Some (be32 b0 b1 b2 b3).
Proof.
  unfold BigEndian_Uint32, be32.
  pose proof (byte_to_Z_range b0). pose proof (byte_to_Z_range b1).
  pose proof (byte_to_Z_range b2). pose proof (byte_to_Z_range b3).
  f_equal.
  rewrite (lor_shiftl_add _ (byte_to_Z b3) 8) by lia.
  rewrite (lor_shiftl_add _ _ 16) by lia.
  rewrite (lor_shiftl_add _ _ 24) by lia.
  lia.
Qed.

Lemma land_field (a w s : Z) :
  (0 <= w)%Z -> (0 <= s)%Z ->
  Z.land a (Z.shiftl (Z.ones w) s) = (((a / 2 ^ s) mod 2 ^ w) * 2 ^ s)%Z.
Proof.
  intros Hw Hs.
  rewrite <- Z.shiftl_mul_pow2, <- Z.land_ones, <- Z.shiftr_div_pow2 by lia.
  apply Z.bits_inj'. intros k Hk.
  rewrite Z.land_spec.
  destruct (decide (k < s)%Z) as [Hlt|Hge].
  - rewrite !Z.shiftl_spec_low by lia. apply andb_false_r.
  - rewrite !Z.shiftl_spec by lia.
    rewrite Z.land_spec, Z.shiftr_spec by lia.
    do 2 f_equal. lia.
Qed.

Lemma magic_top16 b0 b1 b2 b3 :
  Z.land (be32 b0 b1 b2 b3) 0xFFFF0000 = 0x30820000%Z <->
  b0 = x30 /\ b1 = x82.
Proof.
  change 0xFFFF0000%Z with (Z.shiftl (Z.ones 16) 16).
  rewrite land_field by lia. unfold be32.
  pose proof (byte_to_Z_range b0). pose proof (byte_to_Z_range b1).
  pose proof (byte_to_Z_range b2). pose proof (byte_to_Z_range b3).
  assert ((byte_to_Z b0 * 2 ^ 24 + byte_to_Z b1 * 2 ^ 16
           + byte_to_Z b2 * 2 ^ 8 + byte_to_Z b3) / 2 ^ 16
          = byte_to_Z b0 * 256 + byte_to_Z b1)%Z as ->.
  { symmetry. apply (Z.div_unique _ _ _ (byte_to_Z b2 * 2 ^ 8 + byte_to_Z b3)); lia. }
  rewrite Z.mod_small by lia.
  split.
  - intros Heq.
    assert (byte_to_Z b0 = byte_to_Z x30 /\ byte_to_Z b1 = byte_to_Z x82) as [H30 H82].
    { change (byte_to_Z x30) with 48%Z. change (byte_to_Z x82) with 130%Z. lia. }
    split; by apply byte_to_Z_inj.
  - intros [-> ->]. reflexivity.
Qed.

Lemma magic_third b0 b1 b2 b3 :
  Z.land (be32 b0 b1 b2 b3) 0x0000FF00 = 0x0300%Z <-> b2 = x03.
Proof.
  change 0x0000FF00%Z with (Z.shiftl (Z.ones 8) 8).
  rewrite land_field by lia. unfold be32.
  pose proof (byte_to_Z_range b0). pose proof (byte_to_Z_range b1).
  pose proof (byte_to_Z_range b2). pose proof (byte_to_Z_range b3).
  assert ((byte_to_Z b0 * 2 ^ 24 + byte_to_Z b1 * 2 ^ 16
           + byte_to_Z b2 * 2 ^ 8 + byte_to_Z b3) / 2 ^ 8
          = (byte_to_Z b0 * 256 + byte_to_Z b1) * 2 ^ 8 + byte_to_Z b2)%Z as ->.
  { symmetry. apply (Z.div_unique _ _ _ (byte_to_Z b3)); lia. }
  rewrite Z.add_comm, Z.mod_add by lia.
  rewrite Z.mod_small by lia.
  split.
  - intros Heq. apply byte_to_Z_inj.
    change (byte_to_Z x03) with 3%Z. lia.
  - intros ->. reflexivity.
Qed.

Section FormatDetection.
Context {env : Decoders}.

Lemma formatForFile_hint file filename format :
  format ≠ "" -> formatForFile file filename format = Ok format.
Proof.
  intros Hne. unfold formatForFile.
  by rewrite bool_decide_eq_false_2.
Qed.

Lemma formatForFile_ext file filename guess :
  fileExtToFormat !! strings_ToLower (Ext filename) = Some guess ->
  formatForFile file filename "" = Ok guess.
Proof. intros Hext. unfold formatForFile. simpl. by rewrite Hext. Qed.

Lemma formatForFile_sniff file filename b0 b1 b2 b3 rest :
  fileExtToFormat !! strings_ToLower (Ext filename) = None ->
  data file = b0 :: b1 :: b2 :: b3 :: rest ->
  formatForFile file filename "" = guess_magic (be32 b0 b1 b2 b3).
Proof.
  intros Hext Hdata. unfold formatForFile, Peek. simpl.
  rewrite Hext, Hdata. simpl.
  pose proof (BigEndian_Uint32_value b0 b1 b2 b3 rest) as Hv.
  unfold BigEndian_Uint32 in Hv. injection Hv as Hv. by rewrite Hv.
Qed.

Lemma formatForFile_short file filename :
  fileExtToFormat !! strings_ToLower (Ext filename) = None ->
  (length (data file) < 4)%nat ->
  formatForFile file filename "" =
    Err ("unable to read file: " ++ default "EOF" (failure file) ++ nl).
Proof.
  intros Hext Hlen. unfold formatForFile, Peek. simpl.
  rewrite Hext. destruct (decide _) as [Hle|_]; [lia|done].
Qed.

End FormatDetection.

Lemma guess_magic_top magic :
  Z.land magic 0xFFFF0000 = 0x30820000%Z ->
  guess_magic magic =
    if bool_decide (Z.land magic 0x0000FF00 = 0x0300)%Z
    then Ok "DER" else Ok "PKCS12".
Proof.
  intros Htop. unfold guess_magic.
  rewrite (bool_decide_eq_true_2 _ Htop).
  assert (forall c : Z, Z.land c 0xFFFF0000 ≠ 0x30820000%Z ->
            bool_decide (magic = c) = false) as Hconst.
  { intros c Hc. apply bool_decide_eq_false_2. by intros ->. }
  by rewrite !Hconst by (vm_compute; discriminate).
Qed.

Lemma guess_magic_not_top magic :
  Z.land magic 0xFFFF0000 ≠ 0x30820000%Z ->
  guess_magic magic ≠ Ok "DER" /\ guess_magic magic ≠ Ok "PKCS12".
Proof.
  intros Htop. unfold guess_magic.
  rewrite (bool_decide_eq_false_2 _ Htop).
  by repeat case_bool_decide.
Qed.

Lemma guess_magic_DER b0 b1 b2 b3 :
  guess_magic (be32 b0 b1 b2 b3) = Ok "DER" <->
  b0 = x30 /\ b1 = x82 /\ b2 = x03.
Proof.
  split.
  - intros Hg.
    destruct (decide (Z.land (be32 b0 b1 b2 b3) 0xFFFF0000 = 0x30820000%Z))
      as [Htop|Htop].
    + rewrite guess_magic_top in Hg by done.
      case_bool_decide as Hthird; [|discriminate].
      apply magic_top16 in Htop as [-> ->].
      by apply magic_third in Hthird as ->.
    + by destruct (guess_magic_not_top _ Htop).
  - intros (-> & -> & ->).
    rewrite guess_magic_top by (by apply magic_top16).
    rewrite bool_decide_eq_true_2; [done|by apply magic_third].
Qed.

Lemma guess_magic_PKCS12 b0 b1 b2 b3 :
  guess_magic (be32 b0 b1 b2 b3) = Ok "PKCS12" <->
  b0 = x30 /\ b1 = x82 /\ b2 ≠ x03.
Proof.
  split.
  - intros Hg.
    destruct (decide (Z.land (be32 b0 b1 b2 b3) 0xFFFF0000 = 0x30820000%Z))
      as [Htop|Htop].
    + rewrite guess_magic_top in Hg by done.
      case_bool_decide as Hthird; [discriminate|].
      apply magic_top16 in Htop as [-> ->].
      by rewrite magic_third in Hthird.
    + by destruct (guess_magic_not_top _ Htop).
  - intros (-> & -> & Hne).
    rewrite guess_magic_top by (by apply magic_top16).
    rewrite bool_decide_eq_false_2; [done|by rewrite magic_third].
Qed.

(** C2 (as amended): with an empty format hint and a file extension that is
    not in the extension table, the first four bytes, read as a big-endian
    32-bit number, decide the format whatever the file name is: JCEKS for
    0xCECECECE and 0xFEEDFEED, PEM for 0x2D2D2D2D and 0x434F4E4E, DER when
    the first three bytes are 0x30 0x82 0x03 (pattern 0x308203xx), PKCS12
    when the first two bytes are 0x30 0x82 and the third is not 0x03, and
    an error for every other value. *)
Theorem formatForFile_magic {env : Decoders} file filename b0 b1 b2 b3 rest :
  fileExtToFormat !! strings_ToLower (Ext filename) = None ->
  data file = b0 :: b1 :: b2 :: b3 :: rest ->
  let magic := be32 b0 b1 b2 b3 in
  let detected := formatForFile file filename "" in
  BigEndian_Uint32 (b0 :: b1 :: b2 :: b3 :: rest) = Some magic /\
  (magic = 0xCECECECE%Z \/ magic = 0xFEEDFEED%Z -> detected = Ok "JCEKS") /\
  (magic = 0x2D2D2D2D%Z \/ magic = 0x434F4E4E%Z -> detected = Ok "PEM") /\
  (b0 = x30 /\ b1 = x82 /\ b2 = x03 <-> detected = Ok "DER") /\
  (b0 = x30 /\ b1 = x82 /\ b2 ≠ x03 <-> detected = Ok "PKCS12") /\
  (magic ≠ 0xCECECECE%Z -> magic ≠ 0xFEEDFEED%Z ->
   magic ≠ 0x2D2D2D2D%Z -> magic ≠ 0x434F4E4E%Z ->
   ~ (b0 = x30 /\ b1 = x82) ->
   detected = Err "unable to guess file format").
Proof.
  intros Hext Hdata magic detected.
  assert (detected = guess_magic magic) as ->
    by (by apply formatForFile_sniff with rest).
  split; [apply BigEndian_Uint32_value|].
  split; [|split; [|split; [|split]]].
  - intros [Hm|Hm]; unfold guess_magic; rewrite Hm; reflexivity.
  - intros [Hm|Hm]; unfold guess_magic; rewrite Hm; reflexivity.
  - symmetry. apply guess_magic_DER.
  - symmetry. apply guess_magic_PKCS12.
  - intros H1 H2 H3 H4 Htop. unfold guess_magic.
    rewrite (bool_decide_eq_false_2 _ H1), (bool_decide_eq_false_2 _ H2).
    rewrite (bool_decide_eq_false_2 _ H3), (bool_decide_eq_false_2 _ H4).
    rewrite <- magic_top16 with (b2 := b2) (b3 := b3) in Htop.
    by rewrite (bool_decide_eq_false_2 _ Htop).
Qed.

(** The sniffing of [formatForFile_magic] at the first bytes of a DER
    certificate of length 0x0301, under the name [in.bin]. *)
Lemma formatForFile_magic_witness :
  let file := {| data := Sample.der_cert; failure := None |} in
  fileExtToFormat !! strings_ToLower (env := Sample.decoders) (Ext "in.bin") = None /\
  data file = [x30; x82; x03; x01; x30; x00] /\
  formatForFile (env := Sample.decoders) file "in.bin" "" = Ok "DER".
Proof.
  split; [reflexivity|]. split; [reflexivity|].
  apply (formatForFile_magic (env := Sample.decoders)
           {| data := Sample.der_cert; failure := None |}
           "in.bin" x30 x82 x03 x01 [x30; x00]); [reflexivity..|].
  done.
Defined.

(** C2 (as stated) fails: the bytes 0x30 0x82 0x00 0x03 match the pattern
    0x3082xx03 (fourth byte 0x03), yet [formatForFile] answers PKCS12, not
    DER: the code tests the third byte. *)
Lemma formatForFile_fourth_byte_not_DER :
  let file := {| data := [x30; x82; x00; x03]; failure := None |} in
  fileExtToFormat !! strings_ToLower (env := Sample.decoders) (Ext "") = None /\
  formatForFile (env := Sample.decoders) file "" "" = Ok "PKCS12" /\
  formatForFile (env := Sample.decoders) file "" "" ≠ Ok "DER".
Proof. split; [reflexivity|]. split; [reflexivity|]. discriminate. Qed.

(** C5: a non-empty format hint is returned as it is, whatever the file
    name and the stream; with an empty hint, an extension found in the
    table decides, whatever the stream holds; the stream is looked at only
    when both fail; and [cert.pem] is PEM whatever its first bytes are. *)
Theorem formatForFile_precedence {env : Decoders} :
  (forall file filename format,
     format ≠ "" -> formatForFile file filename format = Ok format) /\
  (forall file filename guess,
     fileExtToFormat !! strings_ToLower (Ext filename) = Some guess ->
     formatForFile file filename "" = Ok guess) /\
  (forall file file' filename format,
     format ≠ "" \/ is_Some (fileExtToFormat !! strings_ToLower (Ext filename)) ->
     formatForFile file filename format = formatForFile file' filename format) /\
  (forall file, formatForFile file "cert.pem" "" = Ok "PEM") /\
  formatForFile {| data := [x30; x82; x03; x01]; failure := None |} "cert.pem" ""
    = Ok "PEM".
Proof.
  split; [|split; [|split; [|split]]].
  - intros. by apply formatForFile_hint.
  - intros. by apply formatForFile_ext.
  - intros file file' filename format [Hne|[guess Hext]].
    + by rewrite !formatForFile_hint.
    + destruct (decide (format = "")) as [->|Hne].
      * by rewrite !(formatForFile_ext _ _ guess).
      * by rewrite !formatForFile_hint.
  - intros file. by apply formatForFile_ext.
  - by apply formatForFile_ext.
Qed.

(** ** Key encoding *)

(** C8 (as amended): [keyToPem] knows two kinds of key.  An RSA key gives a
    block [RSA PRIVATE KEY] with the PKCS#1 form of the key; an
    elliptic-curve key whose SEC1 marshaling succeeds gives a block
    [EC PRIVATE KEY] with that form, and one whose marshaling fails gives
    an error that names the type and no block; a key of any other type
    gives an error that names the type and no block.  A block is returned
    for keys of these two kinds only. *)
Theorem keyToPem_spec {env : Decoders} (key : PrivateKey) (headers : headers) :
  (forall k, key = RSAKey k ->
     keyToPem key headers =
       Ok {| Type' := "RSA PRIVATE KEY";
             Bytes := x509_MarshalPKCS1PrivateKey k;
             Headers := headers |}) /\
  (forall k raw, key = ECDSAKey k -> x509_MarshalECPrivateKey k = Ok raw ->
     keyToPem key headers =
       Ok {| Type' := "EC PRIVATE KEY"; Bytes := raw; Headers := headers |}) /\
  (forall k e, key = ECDSAKey k -> x509_MarshalECPrivateKey k = Err e ->
     keyToPem key headers =
       Err ("error marshaling key: *ecdsa.PrivateKey" ++ nl)) /\
  (forall t, key = OtherKey t ->
     keyToPem key headers = Err ("unknown key type: " ++ t ++ nl)) /\
  (forall block, keyToPem key headers = Ok block ->
     (exists k, key = RSAKey k /\ Type' block = "RSA PRIVATE KEY") \/
     (exists k, key = ECDSAKey k /\ Type' block = "EC PRIVATE KEY")).
Proof.
  repeat split.
  - by intros k ->.
  - intros k raw -> Hraw. simpl. by rewrite Hraw.
  - intros k e -> He. simpl. by rewrite He.
  - by intros t ->.
  - intros block Hblock. destruct key as [k|k|t]; simpl in Hblock.
    + left. exists k. by injection Hblock as <-.
    + right. exists k.
      destruct (x509_MarshalECPrivateKey k); [|done..].
      by injection Hblock as <-.
    + done.
Qed.

(** C8 (as stated) fails: an elliptic-curve key on a curve for which the
    marshaling reports an error gets no [EC PRIVATE KEY] block but the
    error of the marshaling branch. *)
Lemma keyToPem_ec_marshal_error :
  x509_MarshalECPrivateKey (Decoders := Sample.decoders) Sample.ec_key_custom_curve
    = Err "x509: unknown elliptic curve" /\
  keyToPem (env := Sample.decoders) (ECDSAKey Sample.ec_key_custom_curve) ∅
    = Err ("error marshaling key: *ecdsa.PrivateKey" ++ nl) /\
  ~ exists block,
      keyToPem (env := Sample.decoders) (ECDSAKey Sample.ec_key_custom_curve) ∅
        = Ok block.
Proof.
  split; [reflexivity|]. split; [reflexivity|].
  intros [block Hblock]. vm_compute in Hblock. discriminate.
Qed.


(** ** The effect monad *)

Lemma called_nil {Ev} (w : World Ev) : called w [] = w.
Proof. destruct w. unfold called. simpl. by rewrite app_nil_r. Qed.

Lemma called_app {Ev} (w : World Ev) evs evs' :
  called (called w evs) evs' = called w (evs ++ evs').
Proof. unfold called. simpl. by rewrite app_assoc. Qed.

Lemma bind_Ok {Ev A B} (m : io Ev A) (f : A -> io Ev B) w a w' :
  m w = (Ok a, w') -> (m ≫= f) w = f a w'.
Proof. intros Hm. unfold mbind, io_bind. by rewrite Hm. Qed.

Lemma bind_Err {Ev A B} (m : io Ev A) (f : A -> io Ev B) w e w' :
  m w = (Err e, w') -> (m ≫= f) w = (Err e, w').
Proof. intros Hm. unfold mbind, io_bind. by rewrite Hm. Qed.

Lemma bind_Panic {Ev A B} (m : io Ev A) (f : A -> io Ev B) w w' :
  m w = (Panic, w') -> (m ≫= f) w = (Panic, w').
Proof. intros Hm. unfold mbind, io_bind. by rewrite Hm. Qed.

Lemma for_range_cons {Ev X} (x : X) xs (body : X -> io Ev unit) w :
  for_range (x :: xs) body w =
    match body x w with
    | (Ok _, w') => for_range xs body w'
    | (Err e, w') => (Err e, w')
    | (Panic, w') => (Panic, w')
    end.
Proof. reflexivity. Qed.

Lemma for_range_app {Ev X} (xs ys : list X) (body : X -> io Ev unit) w :
  for_range (xs ++ ys) body w =
    match for_range xs body w with
    | (Ok _, w') => for_range ys body w'
    | (Err e, w') => (Err e, w')
    | (Panic, w') => (Panic, w')
    end.
Proof.
  revert w. induction xs as [|x xs IH]; intros w; [done|].
  rewrite <- app_comm_cons, !for_range_cons.
  destruct (body x w) as [[[]|e|] w']; [apply IH|done..].
Qed.

Lemma for_range_call {Ev X} (xs : list X) (f : X -> Ev) (w : World Ev) :
  for_range xs (fun x => call (f x)) w = (Ok tt, called w (f <$> xs)).
Proof.
  revert w. induction xs as [|x xs IH]; intros w.
  - simpl. by rewrite called_nil.
  - rewrite for_range_cons. unfold call at 1. rewrite IH.
    f_equal. unfold called. simpl. by rewrite <- app_assoc.
Qed.

(** ** The decoders of [readCertsFromStream], one format at a time *)

Section Formats.
Context {env : Decoders} {Ev : Type}.
Implicit Types (reader : Stream) (filename : string)
  (password : string -> string) (callback : Block -> io Ev unit).

Lemma readCertsFromStream_PEM reader filename password callback :
  readCertsFromStream reader filename "PEM" password callback =
    (for_range (pemScanner reader) (fun token =>
       match pem_Decode token with
       | Some (block, _) =>
           callback (set_Headers block
                       (mergeHeaders (Headers block) (origin_headers filename)))
       | None => panic
       end) ;;
     fail ("unknown file type: PEM" ++ nl)).
Proof. reflexivity. Qed.

Lemma readCertsFromStream_DER reader filename password callback :
  readCertsFromStream reader filename "DER" password callback =
    match ReadAll reader with
    | Ok data =>
        match x509_ParseCertificates data with
        | Ok x509Certs =>
            for_range x509Certs (fun cert =>
              callback (EncodeX509ToPEM cert (origin_headers filename)))
        | Err _ =>
            match pkcs7_ParseSignedData data with
            | Ok p7bBlocks =>
                for_range p7bBlocks (fun block =>
                  callback (pkcs7ToPem block (origin_headers filename)))
            | Err _ => fail ("error parsing certificates from DER data" ++ nl)
            | Panic => panic
            end
        | Panic => panic
        end
    | Err err => fail ("error reading input: " ++ err ++ nl)
    | Panic => panic
    end.
Proof. reflexivity. Qed.

Lemma readCertsFromStream_PKCS12 reader filename password callback :
  readCertsFromStream reader filename "PKCS12" password callback =
    match ReadAll reader with
    | Ok data =>
        let '(blocks, err) := pkcs12_ToPEM data (password "") in
        (if bool_decide (err ≠ None) || bool_decide (length blocks = O)
         then eprint ("keystore appears to be empty or password was incorrect" ++ nl)
         else mret tt) ;;
        for_range blocks (fun block =>
          callback (set_Headers block
                      (mergeHeaders (Headers block) (origin_headers filename)))) ;;
        fail ("unknown file type: PKCS12" ++ nl)
    | Err err => fail ("error reading input: " ++ err ++ nl)
    | Panic => panic
    end.
Proof. reflexivity. Qed.

End Formats.

(** ** Scanning PEM input *)

Section Scanning.
Context {env : Decoders}.

Lemma pem_Decode_nil : pem_Decode [] = None.
Proof.
  destruct (pem_Decode []) as [[b r]|] eqn:Hd; [|done].
  apply pem_Decode_rest in Hd. simpl in Hd. lia.
Qed.

(** A token of the split function: the consumed prefix of the buffer, cut
    where [pem.Decode] left off, and never empty. *)
Lemma pemSplit_token buf size token :
  pemSplit buf = (size, Some token) ->
  exists block rest,
    pem_Decode buf = Some (block, rest) /\
    size = (length buf - length rest)%nat /\
    token = take size buf /\
    (0 < size <= length buf)%nat.
Proof.
  unfold pemSplit.
  destruct (pem_Decode buf) as [[block rest]|] eqn:Hd; [|done].
  intros [= <- <-]. exists block, rest.
  apply pem_Decode_rest in Hd as Hlen. repeat split; lia.
Qed.

Lemma pemSplit_None buf size :
  pemSplit buf = (size, None) -> pem_Decode buf = None.
Proof.
  unfold pemSplit. by destruct (pem_Decode buf) as [[block rest]|].
Qed.

(** *** One read *)

Lemma scan_read_spec reader s :
  (scan_end s < buf_len s)%nat ->
  (buf_len s <= MaxScanTokenSize)%nat ->
  let s' := scan_read reader s in
  scanner_ok s' /\
  (pending s' ++ unread s' = pending s ++ unread s)%list /\
  (delivered s' + length (unread s') = delivered s + length (unread s))%nat /\
  (if failed s'
   then pending s' = pending s /\ unread s' = unread s /\
        (unread s = [] \/
         read_size reader (delivered s) (buf_len s - scan_end s) = 0%nat)
   else (length (unread s') < length (unread s))%nat).
Proof.
  intros Hroom Hmax. unfold scan_read.
  set (space := (buf_len s - scan_end s)%nat).
  set (n := Nat.min _ _).
  destruct (n =? 0)%nat eqn:Hn.
  - apply Nat.eqb_eq in Hn. unfold scanner_ok, scan_end in *. simpl.
    repeat split; try lia.
    destruct (unread s) as [|x u]; [by left|right].
    subst n. simpl in Hn. lia.
  - apply Nat.eqb_neq in Hn. unfold scanner_ok, scan_end in *. simpl.
    assert (n <= space /\ n <= length (unread s))%nat as [Hspace Hleft]
      by (subst n; lia).
    rewrite length_app, length_take, length_drop.
    repeat split; try lia.
    by rewrite <- app_assoc, take_drop.
Qed.


(** *** One round *)

Lemma scan_round_spec reader s :
  scanner_ok s ->
  match scan_round reader s with
  | Token token s' =>
      exists block rest,
        pem_Decode (pending s) = Some (block, rest) /\
        let size := (length (pending s) - length rest)%nat in
        token = take size (pending s) /\
        (0 < size <= length (pending s))%nat /\
        pending s' = drop size (pending s) /\
        unread s' = unread s /\ delivered s' = delivered s /\
        failed s' = failed s /\ scanner_ok s'
  | Done s' =>
      pem_Decode (pending s) = None /\
      (failed s = true \/ length (pending s) = MaxScanTokenSize)
  | Again s' =>
      pem_Decode (pending s) = None /\ failed s = false /\
      scanner_ok s' /\
      (pending s' ++ unread s' = pending s ++ unread s)%list /\
      (delivered s' + length (unread s') = delivered s + length (unread s))%nat /\
      (if failed s'
       then pending s' = pending s /\ unread s' = unread s /\
            (unread s = [] \/
             exists space, (0 < space)%nat /\
                           read_size reader (delivered s) space = 0%nat)
       else (length (unread s') < length (unread s))%nat)
  end.
Proof.
  intros [Hend Hmax]. unfold scan_round.
  set (split := if _ || _ then _ else _).
  assert (match split with
          | (advance, Some token) =>
              exists block rest,
                pem_Decode (pending s) = Some (block, rest) /\
                advance = (length (pending s) - length rest)%nat /\
                token = take advance (pending s) /\
                (0 < advance <= length (pending s))%nat
          | (_, None) => pem_Decode (pending s) = None
          end) as Hsplit.
  { subst split. destruct (_ || _) eqn:Hcall.
    - destruct (pemSplit (pending s)) as [advance [token|]] eqn:Hsplit.
      + by apply pemSplit_token.
      + by apply pemSplit_None in Hsplit.
    - apply orb_false_elim in Hcall as [Hempty _].
      apply Nat.ltb_ge in Hempty.
      destruct (pending s); [apply pem_Decode_nil|simpl in Hempty; lia]. }
  destruct split as [advance [token|]].
  { destruct Hsplit as (block & rest & Hd & -> & -> & Hsize).
    exists block, rest. simpl. repeat split; try done; try lia.
    - unfold scan_end in *. simpl. rewrite length_drop. lia. }
  destruct (failed s) eqn:Hfailed; [by split; [|left]|].
  set (start1 := if _ && _ then 0%nat else scan_start s).
  assert (start1 <= scan_start s)%nat as Hstart1.
  { subst start1. destruct (_ && _); lia. }
  unfold scan_end in Hend.
  destruct (start1 + length (pending s) =? buf_len s)%nat eqn:Hfull.
  - apply Nat.eqb_eq in Hfull.
    assert (start1 = 0%nat) as Hzero.
    { subst start1. destruct (_ && _) eqn:Hshift; [done|].
      apply andb_false_iff in Hshift as [Hpos|Hstay].
      - apply Nat.ltb_ge in Hpos. lia.
      - apply orb_false_elim in Hstay as [Hfull' _].
        apply Nat.eqb_neq in Hfull'. unfold scan_end in Hfull'. lia. }
    rewrite Hzero in Hfull. rewrite Nat.add_0_l in Hfull.
    destruct (MaxScanTokenSize <=? buf_len s)%nat eqn:Htoo.
    + apply Nat.leb_le in Htoo. split; [done|]. right. lia.
    + apply Nat.leb_gt in Htoo.
      set (newSize := if (MaxScanTokenSize <? _)%nat then _ else _).
      assert (length (pending s) < newSize <= MaxScanTokenSize)%nat as Hnew.
      { subst newSize.
        destruct (buf_len s * 2 =? 0)%nat eqn:Hzero2.
        - apply Nat.eqb_eq in Hzero2.
          destruct (MaxScanTokenSize <? startBufSize)%nat eqn:Hcap;
            [apply Nat.ltb_lt in Hcap|apply Nat.ltb_ge in Hcap];
            unfold MaxScanTokenSize, startBufSize in *; lia.
        - apply Nat.eqb_neq in Hzero2.
          destruct (MaxScanTokenSize <? buf_len s * 2)%nat eqn:Hcap;
            [apply Nat.ltb_lt in Hcap|apply Nat.ltb_ge in Hcap]; lia. }
      split; [done|]. split; [done|].
      match goal with
      | |- context [scan_read reader ?s0] =>
          pose proof (scan_read_spec reader s0) as Hread
      end.
      unfold scan_end in Hread. simpl in Hread.
      destruct Hread as (Hok & Hsame & Hcount & Hleft); [lia..|].
      split; [done|]. split; [done|]. split; [done|].
      destruct (failed (scan_read reader _)); [|done].
      destruct Hleft as (Hp & Hu & [Hnil|Hstall]); repeat split; try done.
      * by left.
      * right. exists (newSize - (0 + length (pending s)))%nat. split; [lia|done].
  - apply Nat.eqb_neq in Hfull.
    split; [done|]. split; [done|].
    match goal with
    | |- context [scan_read reader ?s0] =>
        pose proof (scan_read_spec reader s0) as Hread
    end.
    unfold scan_end in Hread. simpl in Hread.
    destruct Hread as (Hok & Hsame & Hcount & Hleft); [lia..|].
    split; [done|]. split; [done|]. split; [done|].
    destruct (failed (scan_read reader _)); [|done].
    destruct Hleft as (Hp & Hu & [Hnil|Hstall]); repeat split; try done.
    * by left.
    * right. exists (buf_len s - (start1 + length (pending s)))%nat.
      split; [lia|done].
Qed.


(** *** One call of [Scan] *)

Lemma scan_measure_Again reader s s' :
  scanner_ok s -> scan_round reader s = Again s' ->
  scanner_ok s' /\ (scan_measure s' < scan_measure s)%nat.
Proof.
  intros Hok Hround. pose proof (scan_round_spec reader s Hok) as Hspec.
  rewrite Hround in Hspec.
  destruct Hspec as (_ & Hfailed & Hok' & _ & _ & Hleft).
  split; [done|].
  unfold scan_measure. rewrite Hfailed.
  destruct (failed s'); [|lia].
  destruct Hleft as (_ & -> & _). lia.
Qed.

(** Any number of rounds beyond the measure gives the same result. *)
Lemma Scan_rounds_enough reader n m s :
  scanner_ok s ->
  (scan_measure s < n)%nat -> (scan_measure s < m)%nat ->
  Scan_rounds reader n s = Scan_rounds reader m s.
Proof.
  revert m s. induction n as [|n IH]; intros m s Hok Hn Hm; [lia|].
  destruct m as [|m]; [lia|]. simpl.
  destruct (scan_round reader s) as [token s'|s'|s'] eqn:Hround; [done..|].
  destruct (scan_measure_Again reader s s' Hok Hround) as [Hok' Hless].
  apply IH; [done|lia..].
Qed.

Lemma Scan_enough reader n s :
  scanner_ok s -> (scan_measure s < n)%nat ->
  Scan_rounds reader n s = Scan reader s.
Proof.
  intros Hok Hn. apply Scan_rounds_enough; [done..|].
  unfold scan_measure. destruct (failed s); lia.
Qed.

(** A token of [Scan] is what [pem.Decode] took from a buffer that held the
    first [n] bytes of the input that was not yet consumed. *)
Lemma Scan_rounds_token reader k s token s' :
  scanner_ok s ->
  Scan_rounds reader k s = (Some token, s') ->
  exists n block rest,
    (n <= MaxScanTokenSize)%nat /\
    pem_Decode (take n (pending s ++ unread s)) = Some (block, rest) /\
    token = take (length (take n (pending s ++ unread s)) - length rest)
              (pending s ++ unread s) /\
    (0 < length token <= MaxScanTokenSize)%nat /\
    (pending s ++ unread s = token ++ pending s' ++ unread s')%list /\
    scanner_ok s'.
Proof.
  revert s. induction k as [|k IH]; intros s Hok Hscan; [done|].
  simpl in Hscan.
  pose proof (scan_round_spec reader s Hok) as Hspec.
  destruct (scan_round reader s) as [token0 s0|s0|s0] eqn:Hround; [|done|].
  - injection Hscan as -> ->.
    destruct Hspec as (block & rest & Hd & Htoken & Hsize & Hpending & Hunread
                       & Hdelivered & Hfailed & Hok').
    destruct Hok as [Hend Hmax]. unfold scan_end in Hend.
    exists (length (pending s)), block, rest.
    rewrite take_app_length. rewrite Hd.
    split; [lia|]. split; [done|].
    split; [by rewrite take_app_le by lia|].
    rewrite Htoken at 1 2.
    rewrite length_take. split; [lia|].
    split; [|done].
    rewrite Hpending, Hunread, Htoken, app_assoc. by rewrite take_drop.
  - destruct Hspec as (Hnone & Hfailed & Hok' & Hsame & Hcount & Hleft).
    destruct (IH s0 Hok' Hscan)
      as (n & block & rest & Hn & Hd & Htoken & Hlen & Hcut & Hok'').
    rewrite Hsame in *.
    by exists n, block, rest.
Qed.

(** A call of [Scan] moves no byte: what was unconsumed before is the token,
    if there is one, and what is unconsumed after. *)
Lemma Scan_token reader s token s' :
  scanner_ok s -> Scan reader s = (Some token, s') ->
  (0 < length token <= MaxScanTokenSize)%nat /\
  (pending s ++ unread s = token ++ pending s' ++ unread s')%list /\
  scanner_ok s'.
Proof.
  intros Hok Hscan.
  destruct (Scan_rounds_token reader _ s token s' Hok Hscan)
    as (n & block & rest & _ & _ & _ & Hlen & Hcut & Hok').
  done.
Qed.

(** [Scan] finds nothing where no buffer of at most 64 KiB decodes. *)
Lemma Scan_rounds_nothing reader k s :
  scanner_ok s -> reads [] (pending s ++ unread s) ->
  (Scan_rounds reader k s).1 = None.
Proof.
  intros Hok Hreads.
  destruct (Scan_rounds reader k s) as [[token|] s'] eqn:Hscan; [|done].
  destruct (Scan_rounds_token reader k s token s' Hok Hscan)
    as (n & block & rest & Hn & Hd & _).
  simpl in Hreads. by rewrite (Hreads n Hn) in Hd.
Qed.

(** The invariant of a scanner whose reader delivers. *)
Lemma scan_inv_NewScanner reader : scan_inv reader (NewScanner reader).
Proof.
  unfold scan_inv, scanner_ok, scan_end, NewScanner. simpl.
  repeat split; [lia|unfold MaxScanTokenSize; lia|done].
Qed.

Lemma scan_inv_round reader s :
  delivers reader -> scan_inv reader s ->
  match scan_round reader s with
  | Token _ s' | Again s' => scan_inv reader s'
  | Done _ => True
  end.
Proof.
  intros Hdelivers (Hok & Hcount & Hfailed).
  pose proof (scan_round_spec reader s Hok) as Hspec.
  destruct (scan_round reader s) as [token s'|s'|s'] eqn:Hround; [|done|].
  - destruct Hspec as (block & rest & _ & _ & _ & _ & Hunread
                       & Hdelivered & Hfailed' & Hok').
    split; [done|]. rewrite Hunread, Hdelivered, Hfailed'. done.
  - destruct Hspec as (_ & Hfalse & Hok' & _ & Hcount' & Hleft).
    split; [done|]. split; [lia|].
    intros Hf. rewrite Hf in Hleft.
    destruct Hleft as (_ & Hunread & [Hnil|(space & Hspace & Hstall)]);
      rewrite Hunread; [done|].
    destruct (unread s) as [|b l] eqn:Hu; [done|].
    simpl in Hcount.
    pose proof (Hdelivers (delivered s) space Hspace ltac:(lia)). lia.
Qed.

(** Where the input reads as a block and more, [Scan] finds the text of the
    block and leaves the rest. *)
Lemma Scan_rounds_block reader k s block blocks :
  delivers reader -> scan_inv reader s ->
  (scan_measure s < k)%nat ->
  reads (block :: blocks) (pending s ++ unread s) ->
  exists token s' rest,
    Scan_rounds reader k s = (Some token, s') /\
    pem_Decode token = Some (block, rest) /\
    scan_inv reader s' /\
    reads blocks (pending s' ++ unread s') /\
    (length (pending s' ++ unread s') < length (pending s ++ unread s))%nat.
Proof.
  intros Hdelivers. revert s.
  induction k as [|k IH]; intros s Hinv Hk Hreads; [lia|].
  pose proof (scan_inv_round reader s Hdelivers Hinv) as Hinv'.
  destruct Hinv as (Hok & Hcount & Hfailed).
  pose proof (scan_round_spec reader s Hok) as Hspec.
  simpl.
  destruct (scan_round reader s) as [token s'|s'|s'] eqn:Hround.
  - destruct Hspec as (found & rest & Hd & Htoken & Hsize & Hpending & Hunread
                       & _).
    destruct Hok as [Hend Hmax]. unfold scan_end in Hend.
    destruct Hreads as [_ Hreads].
    destruct (Hreads (length (pending s)) found rest) as [[rest' Hblock] Hnext].
    { lia. }
    { by rewrite take_app_length. }
    rewrite take_app_length in Hblock, Hnext.
    rewrite take_app_le in Hblock by lia.
    rewrite drop_app_le in Hnext by lia.
    exists token, s', rest'.
    split; [done|]. split; [by rewrite Htoken|]. split; [done|].
    rewrite Hpending, Hunread. split; [done|].
    rewrite !length_app, length_drop. lia.
  - exfalso. destruct Hspec as (Hnone & Hwhy).
    destruct Hreads as [Hsome _]. apply Hsome.
    destruct Hok as [Hend Hmax]. unfold scan_end in Hend.
    destruct Hwhy as [Hf|Hfull].
    + rewrite (Hfailed Hf), app_nil_r.
      rewrite take_ge by lia. done.
    + rewrite <- Hfull, take_app_length. done.
  - destruct (scan_measure_Again reader s s' Hok Hround) as [Hok' Hless].
    destruct Hspec as (_ & _ & _ & Hsame & _).
    rewrite <- Hsame in Hreads.
    destruct (IH s' Hinv' ltac:(lia) Hreads)
      as (token & s'' & rest & Hscan & Hd & Hinv'' & Hnext & Hshorter).
    exists token, s'', rest. rewrite <- Hsame. done.
Qed.

(** *** The tokens of a stream *)

Lemma reads_nil blocks : reads blocks [] -> blocks = [].
Proof.
  destruct blocks as [|block blocks]; [done|].
  intros [Hsome _]. exfalso. apply Hsome.
  rewrite take_nil. apply pem_Decode_nil.
Qed.

(** The tokens are consecutive pieces of the input, none of them empty or
    longer than 64 KiB. *)
Lemma scan_tokens_pieces reader n s :
  scanner_ok s ->
  exists leftover,
    (pending s ++ unread s = concat (scan_tokens reader n s) ++ leftover)%list /\
    Forall (fun token => (0 < length token <= MaxScanTokenSize)%nat)
           (scan_tokens reader n s).
Proof.
  revert s. induction n as [|n IH]; intros s Hok; simpl.
  { by exists (pending s ++ unread s)%list. }
  destruct (Scan reader s) as [[token|] s'] eqn:Hscan.
  - destruct (Scan_token reader s token s' Hok Hscan) as (Hlen & Hcut & Hok').
    destruct (IH s' Hok') as (leftover & Hrest & Hall).
    exists leftover. simpl. rewrite Hcut, Hrest, app_assoc.
    split; [done|]. by constructor.
  - by exists (pending s ++ unread s)%list.
Qed.

(** Where the input reads as [blocks], the tokens are the texts of these
    blocks, in their order. *)
Lemma scan_tokens_blocks reader n s blocks :
  delivers reader -> scan_inv reader s ->
  (length (pending s ++ unread s) <= n)%nat ->
  reads blocks (pending s ++ unread s) ->
  Forall2 (fun token block => exists rest, pem_Decode token = Some (block, rest))
          (scan_tokens reader n s) blocks.
Proof.
  intros Hdelivers. revert s blocks.
  induction n as [|n IH]; intros s blocks Hinv Hn Hreads.
  { destruct (pending s ++ unread s)%list eqn:Hinput; [|simpl in Hn; lia].
    apply reads_nil in Hreads as ->. constructor. }
  simpl. destruct blocks as [|block blocks].
  - pose proof (Scan_rounds_nothing reader (length (unread s) + 2) s
                  (proj1 Hinv) Hreads) as Hnone.
    fold (Scan reader s) in Hnone.
    destruct (Scan reader s) as [[token|] s']; [done|constructor].
  - destruct (Scan_rounds_block reader (length (unread s) + 2) s block blocks)
      as (token & s' & rest & Hscan & Hd & Hinv' & Hnext & Hshorter);
      [done|done| |done|].
    { unfold scan_measure. destruct (failed s); lia. }
    fold (Scan reader s) in Hscan. rewrite Hscan.
    constructor; [by exists rest|].
    apply IH; [done|lia|done].
Qed.

(** Scanning for longer than the input has bytes finds nothing more. *)
Lemma scan_tokens_enough reader n m s :
  scanner_ok s ->
  (length (pending s ++ unread s) <= n)%nat ->
  (length (pending s ++ unread s) <= m)%nat ->
  scan_tokens reader n s = scan_tokens reader m s.
Proof.
  revert m s. induction n as [|n IH]; intros m s Hok Hn Hm.
  - destruct (pending s ++ unread s)%list eqn:Hinput; [|simpl in Hn; lia].
    destruct m as [|m]; [done|]. simpl.
    destruct (Scan reader s) as [[token|] s'] eqn:Hscan; [|done].
    destruct (Scan_token reader s token s' Hok Hscan) as (Hlen & Hcut & _).
    rewrite Hinput in Hcut. destruct token; [simpl in Hlen; lia|done].
  - destruct m as [|m].
    + destruct (pending s ++ unread s)%list eqn:Hinput; [|simpl in Hm; lia].
      simpl.
      destruct (Scan reader s) as [[token|] s'] eqn:Hscan; [|done].
      destruct (Scan_token reader s token s' Hok Hscan) as (Hlen & Hcut & _).
      rewrite Hinput in Hcut. destruct token; [simpl in Hlen; lia|done].
    + simpl.
      destruct (Scan reader s) as [[token|] s'] eqn:Hscan; [|done].
      destruct (Scan_token reader s token s' Hok Hscan) as (Hlen & Hcut & Hok').
      f_equal. rewrite Hcut, length_app in Hn, Hm.
      apply IH; [done|lia..].
Qed.

Lemma pemScanner_blocks reader blocks :
  delivers reader -> reads blocks (data reader) ->
  Forall2 (fun token block => exists rest, pem_Decode token = Some (block, rest))
          (pemScanner reader) blocks.
Proof.
  intros Hdelivers Hreads. apply scan_tokens_blocks; try done.
  apply scan_inv_NewScanner.
Qed.

(** *** Deciding [reads] *)

Lemma consumed_sizes_spec input n found rest :
  pem_Decode (take n input) = Some (found, rest) ->
  (length (take n input) - length rest)%nat ∈ consumed_sizes input.
Proof.
  intros Hd. unfold consumed_sizes.
  apply elem_of_remove_dups, list_elem_of_omap.
  exists (Nat.min n (length input)).
  assert (take (Nat.min n (length input)) input = take n input) as Hwindow.
  { destruct (decide (n <= length input)%nat) as [Hn|Hn].
    - by rewrite Nat.min_l.
    - rewrite Nat.min_r by lia. by rewrite !take_ge by lia. }
  split.
  - apply elem_of_seq. lia.
  - by rewrite Hwindow, Hd.
Qed.

Lemma reads_check_sound blocks input :
  reads_check blocks input = true -> reads blocks input.
Proof.
  revert input. induction blocks as [|block blocks IH]; intros input; simpl.
  - intros [_ Hnone%bool_decide_eq_true]%andb_prop n _.
    destruct (pem_Decode (take n input)) as [[found rest]|] eqn:Hd; [|done].
    apply consumed_sizes_spec in Hd. rewrite Hnone in Hd.
    by apply elem_of_nil in Hd.
  - intros [Hlen%Nat.leb_le [Hsome Hsizes]%andb_prop]%andb_prop.
    rewrite forallb_forall in Hsizes. split.
    + rewrite take_ge by lia. by destruct (pem_Decode input).
    + intros n found rest _ Hd. cbv zeta.
      apply consumed_sizes_spec in Hd.
      apply list_elem_of_In, Hsizes in Hd.
      destruct (pem_Decode (take _ input)) as [[found' rest']|]; [|done].
      apply andb_prop in Hd as [->%bool_decide_eq_true Hnext].
      split; [by exists rest'|by apply IH].
Qed.

(** *** The loop over the tokens *)

Lemma PEM_loop_blocks {Ev} tokens blocks (note : Block -> Ev) (w : World Ev) :
  Forall2 (fun token block => exists rest, pem_Decode token = Some (block, rest))
          tokens blocks ->
  for_range tokens (fun token =>
    match pem_Decode token with
    | Some (block, _) => call (note block)
    | None => panic
    end) w = (Ok tt, called w (note <$> blocks)).
Proof.
  intros Hall. revert w.
  induction Hall as [|token block tokens blocks [rest Htoken] Hall IH]; intros w.
  - simpl. by rewrite called_nil.
  - rewrite for_range_cons, Htoken. unfold call at 1.
    fold (called w [note block]). rewrite IH. by rewrite called_app.
Qed.

(** The PEM branch on an input that reads as [blocks]. *)
Lemma readCertsFromStream_PEM_blocks reader filename password blocks
    (w : World Block) :
  delivers reader -> reads blocks (data reader) ->
  readCertsFromStream reader filename "PEM" password call w =
    (Err ("unknown file type: PEM" ++ nl),
     called w ((fun block =>
                  set_Headers block
                    (mergeHeaders (Headers block) (origin_headers filename)))
               <$> blocks)).
Proof.
  intros Hdelivers Hreads. rewrite readCertsFromStream_PEM.
  pose proof (pemScanner_blocks reader blocks Hdelivers Hreads) as Htokens.
  by rewrite (bind_Ok _ _ _ _ _ (PEM_loop_blocks _ _ _ w Htokens)).
Qed.

(** Every token of the scanner is a token of the split function, run on a
    buffer of 64 KiB at most. *)
Lemma scan_tokens_split reader n s :
  scanner_ok s ->
  Forall (fun token =>
            exists buf size,
              (length buf <= MaxScanTokenSize)%nat /\
              pemSplit buf = (size, Some token))
         (scan_tokens reader n s).
Proof.
  revert s. induction n as [|n IH]; intros s Hok; simpl; [constructor|].
  destruct (Scan reader s) as [[token|] s'] eqn:Hscan; [|constructor].
  destruct (Scan_rounds_token reader _ s token s' Hok Hscan)
    as (k & block & rest & Hk & Hd & Htoken & _ & _ & Hok').
  constructor; [|by apply IH].
  exists (take k (pending s ++ unread s)), (length token).
  split; [rewrite length_take; lia|].
  unfold pemSplit. rewrite Hd.
  assert (token = take (length (take k (pending s ++ unread s)) - length rest)
                    (take k (pending s ++ unread s))) as Hprefix.
  { rewrite Htoken at 1. rewrite take_take. f_equal.
    rewrite length_take. lia. }
  rewrite <- Hprefix. f_equal.
  apply pem_Decode_rest in Hd. apply (f_equal length) in Hprefix.
  rewrite !length_take in Hprefix. rewrite length_take in Hd |- *. lia.
Qed.

End Scanning.

(** ** The four readers *)

Section Readers.
Context {env : Decoders}.

Lemma ReadPEMFromFiles_cons {Ev} file files format password
    (callback : Block -> io Ev unit) w :
  ReadPEMFromFiles (file :: files) format password callback w =
    match formatForFile (content file) (Name file) format with
    | Ok format' =>
        match readCertsFromStream (content file) (Name file) format'
                password callback w with
        | (Panic, w') => (Panic, w')
        | (_, w') => ReadPEMFromFiles files format password callback w'
        end
    | Err _ =>
        (Err ("unable to guess file type (for file " ++ Name file ++ ")" ++ nl), w)
    | Panic => (Panic, w)
    end.
Proof.
  unfold ReadPEMFromFiles. rewrite for_range_cons.
  destruct (formatForFile _ _ _) as [format'|e|]; [|done..].
  unfold discard_error.
  by destruct (readCertsFromStream _ _ _ _ _ w) as [[[]|e|] w'].
Qed.

Lemma ReadPEM_cons {Ev} r readers format password
    (callback : Block -> io Ev unit) w :
  ReadPEM (r :: readers) format password callback w =
    match formatForFile r "" format with
    | Ok format' =>
        match readCertsFromStream r "" format' password callback w with
        | (Panic, w') => (Panic, w')
        | (_, w') => ReadPEM readers format password callback w'
        end
    | Err _ => (Err "unable to guess format for input stream", w)
    | Panic => (Panic, w)
    end.
Proof.
  unfold ReadPEM. rewrite for_range_cons.
  destruct (formatForFile _ _ _) as [format'|e|]; [|done..].
  unfold discard_error.
  by destruct (readCertsFromStream _ _ _ _ _ w) as [[[]|e|] w'].
Qed.

Lemma ReadX509FromFiles_cons file files format password callback w :
  ReadX509FromFiles (file :: files) format password callback w =
    match formatForFile (content file) (Name file) format with
    | Ok format' =>
        match readCertsFromStream (content file) (Name file) format'
                password (pemToX509 callback) w with
        | (Panic, w') => (Panic, w')
        | (_, w') => ReadX509FromFiles files format password callback w'
        end
    | Err _ =>
        (Err ("unable to guess file type (for file " ++ Name file ++ ")"), w)
    | Panic => (Panic, w)
    end.
Proof.
  unfold ReadX509FromFiles. rewrite for_range_cons.
  destruct (formatForFile _ _ _) as [format'|e|]; [|done..].
  unfold discard_error.
  by destruct (readCertsFromStream _ _ _ _ _ w) as [[[]|e|] w'].
Qed.

Lemma ReadX509_cons r readers format password callback w :
  ReadX509 (r :: readers) format password callback w =
    match formatForFile r "" format with
    | Ok format' =>
        match readCertsFromStream r "" format' password (pemToX509 callback) w with
        | (Panic, w') => (Panic, w')
        | (_, w') => ReadX509 readers format password callback w'
        end
    | Err _ => (Err "unable to guess format for input stream", w)
    | Panic => (Panic, w)
    end.
Proof.
  unfold ReadX509. rewrite for_range_cons.
  destruct (formatForFile _ _ _) as [format'|e|]; [|done..].
  unfold discard_error.
  by destruct (readCertsFromStream _ _ _ _ _ w) as [[[]|e|] w'].
Qed.

End Readers.

(** ** [encoding/pem]: a block is found again in the bytes it took *)

Section PemBytes.
Import pem.
Open Scope list_scope.
Implicit Types (s p sep X r a b d : list byte) (c : byte).

Lemma HasPrefix_true s p : HasPrefix s p = true <-> take (length p) s = p.
Proof. unfold HasPrefix. apply bool_decide_eq_true. Qed.

Lemma HasPrefix_length s p : HasPrefix s p = true -> (length p <= length s)%nat.
Proof.
  intros Hp%HasPrefix_true. apply (f_equal length) in Hp.
  rewrite length_take in Hp. lia.
Qed.

Lemma HasPrefix_app_long s p r :
  (length p <= length s)%nat -> HasPrefix (s ++ r) p = HasPrefix s p.
Proof. intros Hlen. unfold HasPrefix. by rewrite take_app_le. Qed.

Lemma HasPrefix_app_true s p r :
  HasPrefix s p = true -> HasPrefix (s ++ r) p = true.
Proof.
  intros Hp. rewrite HasPrefix_app_long; [done|]. by apply HasPrefix_length.
Qed.

Lemma HasPrefix_app_false s p r :
  HasPrefix (s ++ r) p = false -> HasPrefix s p = false.
Proof.
  intros Hp. destruct (HasPrefix s p) eqn:Hs; [|done].
  by rewrite (HasPrefix_app_true s p r Hs) in Hp.
Qed.

Lemma Index_bound s sep i : Index s sep = Some i -> (i + length sep <= length s)%nat.
Proof.
  revert i. induction s as [|c s IH]; intros i; simpl.
  - destruct (HasPrefix [] sep) eqn:Hp; [|done].
    intros [= <-]. apply HasPrefix_length in Hp. simpl in *. lia.
  - destruct (HasPrefix (c :: s) sep) eqn:Hp.
    + intros [= <-]. apply HasPrefix_length in Hp. simpl in *. lia.
    + destruct (Index s sep) as [j|] eqn:Hj; [|done].
      intros [= <-]. specialize (IH j eq_refl). simpl. lia.
Qed.

Lemma Index_at s sep i : Index s sep = Some i -> HasPrefix (drop i s) sep = true.
Proof.
  revert i. induction s as [|c s IH]; intros i; simpl.
  - destruct (HasPrefix [] sep) eqn:Hp; [|done]. by intros [= <-].
  - destruct (HasPrefix (c :: s) sep) eqn:Hp.
    + by intros [= <-].
    + destruct (Index s sep) as [j|] eqn:Hj; [|done].
      intros [= <-]. simpl. by apply IH.
Qed.

Lemma Index_found s sep i :
  HasPrefix (drop i s) sep = true ->
  exists j, Index s sep = Some j /\ (j <= i)%nat.
Proof.
  revert i. induction s as [|c s IH]; intros i Hp; simpl.
  - rewrite drop_nil in Hp. rewrite Hp. exists O. split; [done|lia].
  - destruct (HasPrefix (c :: s) sep) eqn:Hhere.
    + exists O. split; [done|lia].
    + destruct i as [|i]; [rewrite drop_0 in Hp; congruence|]. simpl in Hp.
      destruct (IH i Hp) as (j & -> & Hj). exists (S j). split; [done|lia].
Qed.

Lemma Index_app_found s sep r i :
  Index s sep = Some i -> Index (s ++ r) sep = Some i.
Proof.
  revert i. induction s as [|c s IH]; intros i; simpl.
  - destruct (HasPrefix [] sep) eqn:Hp; [|done].
    intros [= <-]. apply HasPrefix_length in Hp.
    destruct sep; [|simpl in Hp; lia]. by destruct r.
  - destruct (HasPrefix (c :: s) sep) eqn:Hp.
    + intros [= <-].
      change (c :: s ++ r)%list with ((c :: s) ++ r)%list.
      by rewrite (HasPrefix_app_true (c :: s) sep r Hp).
    + destruct (Index s sep) as [j|] eqn:Hj; [|done].
      intros [= <-].
      pose proof (Index_bound _ _ _ Hj) as Hb.
      change (c :: s ++ r)%list with ((c :: s) ++ r)%list.
      rewrite (HasPrefix_app_long (c :: s) sep r), Hp by (simpl; lia).
      by rewrite (IH j eq_refl).
Qed.

Lemma Index_app_within s sep r i :
  Index (s ++ r) sep = Some i -> (i + length sep <= length s)%nat ->
  Index s sep = Some i.
Proof.
  intros Hi Hb.
  destruct (Index_found s sep i) as (j & Hj & Hle).
  { apply Index_at in Hi. rewrite drop_app_le in Hi by lia.
    rewrite HasPrefix_app_long in Hi; [done|]. rewrite length_drop. lia. }
  rewrite (Index_app_found s sep r j Hj) in Hi. by injection Hi as ->.
Qed.

Lemma Index_prepend a s sep :
  is_Some (Index s sep) -> is_Some (Index (a ++ s) sep).
Proof.
  intros [i Hi]. destruct (Index_found (a ++ s) sep (length a + i)) as (j & Hj & _).
  - rewrite <- drop_drop, drop_app_length. by apply Index_at.
  - by exists j.
Qed.

Lemma IndexByte_None d c : c ∉ d -> IndexByte d c = None.
Proof.
  unfold IndexByte. induction d as [|x d IH]; intros Hc; simpl.
  - reflexivity.
  - apply not_elem_of_cons in Hc as [Hx Hd].
    unfold HasPrefix. simpl. rewrite take_0.
    rewrite bool_decide_eq_false_2 by congruence.
    by rewrite IH.
Qed.

Lemma IndexByte_first a b c : c ∉ a -> IndexByte (a ++ c :: b) c = Some (length a).
Proof.
  unfold IndexByte. induction a as [|x a IH]; intros Hc; simpl.
  - unfold HasPrefix. simpl. rewrite take_0. by rewrite bool_decide_eq_true_2.
  - apply not_elem_of_cons in Hc as [Hx Hd].
    unfold HasPrefix. simpl. rewrite take_0.
    rewrite bool_decide_eq_false_2 by congruence.
    by rewrite IH.
Qed.

Lemma IndexByte_None_inv d c : IndexByte d c = None -> c ∉ d.
Proof.
  intros Hnone Hin.
  apply list_elem_of_split_l in Hin as (a & b & -> & Ha).
  by rewrite IndexByte_first in Hnone.
Qed.

Lemma TrimRight_elem s cutset c : c ∈ TrimRight s cutset -> c ∈ s.
Proof.
  induction s as [|x s IH]; simpl; [done|].
  destruct (TrimRight s cutset) as [|y t].
  - case_bool_decide; [by intros ?%elem_of_nil|].
    intros ->%list_elem_of_singleton. by left.
  - intros [->|Hin]%elem_of_cons; [by left|]. right. by apply IH.
Qed.

Lemma TrimRight_keeps s cutset c : c ∉ cutset -> c ∈ s -> c ∈ TrimRight s cutset.
Proof.
  intros Hc. induction s as [|x s IH]; simpl; [done|].
  intros [->|Hin]%elem_of_cons.
  - destruct (TrimRight s cutset) as [|y t]; [|by left].
    rewrite bool_decide_eq_false_2 by done. by left.
  - specialize (IH Hin).
    destruct (TrimRight s cutset) as [|y t]; [by apply elem_of_nil in IH|].
    by right.
Qed.

End PemBytes.

Section PemLines.
Import pem.
Open Scope list_scope.
Implicit Types (s p sep X r a b d line next : list byte) (c : byte).

Lemma getLine_eof d : x0a ∉ d -> getLine d = (TrimRight d [x20; x09], []).
Proof.
  intros Hd. unfold getLine. rewrite IndexByte_None by done.
  by rewrite take_ge, drop_ge by lia.
Qed.

Lemma getLine_newline_line a b :
  x0a ∉ a ->
  getLine (a ++ x0a :: b) =
    (TrimRight
       (take (if (0 <? length a)%nat && bool_decide (a !! (length a - 1)%nat = Some x0d)
              then (length a - 1)%nat else length a) a)
       [x20; x09],
     b).
Proof.
  intros Ha. unfold getLine. rewrite IndexByte_first by done.
  assert ((a ++ x0a :: b) !! (length a - 1)%nat = a !! (length a - 1)%nat
          \/ length a = O) as [Hlook|Hnil].
  { destruct a as [|x a]; [by right|left].
    apply lookup_app_l. simpl. lia. }
  - rewrite Hlook. f_equal.
    + f_equal. apply take_app_le.
      destruct (_ && _); lia.
    + rewrite (cons_middle x0a a b), app_assoc.
      rewrite drop_app_length'; [done|]. rewrite length_app. simpl. lia.
  - destruct a; [|done]. reflexivity.
Qed.

Lemma getLine_newline a b :
  x0a ∉ a -> getLine (a ++ x0a :: b) = ((getLine (a ++ [x0a])).1, b).
Proof.
  intros Ha. by rewrite !getLine_newline_line.
Qed.

(** The first line of an input and of a part of it that holds the line end
    are the same. *)
Lemma getLine_app X r line next :
  getLine (X ++ r) = (line, next) -> (length r <= length next)%nat ->
  exists X', next = (X' ++ r)%list /\ getLine X = (line, X').
Proof.
  intros Hline Hlen.
  destruct (decide (x0a ∈ X)) as [Hin|Hnot].
  - apply list_elem_of_split_l in Hin as (a & b & -> & Ha).
    rewrite <- app_assoc in Hline. simpl in Hline.
    rewrite getLine_newline in Hline by done. injection Hline as <- <-.
    exists b. split; [done|]. by rewrite getLine_newline.
  - destruct (decide (x0a ∈ r)) as [Hin|Hnot'].
    + apply list_elem_of_split_l in Hin as (a & b & -> & Ha).
      rewrite app_assoc in Hline.
      rewrite getLine_newline in Hline
        by (rewrite elem_of_app; tauto).
      injection Hline as <- <-. rewrite length_app in Hlen. simpl in Hlen. lia.
    + rewrite getLine_eof in Hline by (rewrite elem_of_app; tauto).
      injection Hline as <- <-. destruct r; [|simpl in Hlen; lia].
      exists []. rewrite !app_nil_r. split; [done|]. by apply getLine_eof.
Qed.

Lemma getLine_consumed d line next :
  getLine d = (line, next) ->
  (next = [] /\ x0a ∉ d) \/ exists a, d = (a ++ x0a :: next)%list /\ x0a ∉ a.
Proof.
  intros Hline.
  destruct (decide (x0a ∈ d)) as [Hin|Hnot].
  - apply list_elem_of_split_l in Hin as (a & b & -> & Ha).
    rewrite getLine_newline in Hline by done. injection Hline as <- <-.
    right. by exists a.
  - rewrite getLine_eof in Hline by done. injection Hline as <- <-. by left.
Qed.

Lemma getLine_shorter d : d ≠ [] -> (length (getLine d).2 < length d)%nat.
Proof.
  intros Hd. destruct (getLine d) as [line next] eqn:Hline.
  apply getLine_consumed in Hline as [[-> _]|(a & -> & _)]; simpl.
  - destruct d; [done|simpl; lia].
  - rewrite length_app. simpl. lia.
Qed.

Lemma getLine_line_elem d c : c ∈ (getLine d).1 -> c ∈ d /\ c ≠ x0a.
Proof.
  destruct (decide (x0a ∈ d)) as [Hin|Hnot].
  - apply list_elem_of_split_l in Hin as (a & b & -> & Ha).
    rewrite getLine_newline_line by done. cbn [fst snd].
    intros Hc%TrimRight_elem%elem_of_take. destruct Hc as (i & Hc & _).
    apply list_elem_of_lookup_2 in Hc. split.
    + rewrite elem_of_app. by left.
    + by intros ->.
  - rewrite getLine_eof by done. cbn [fst snd]. intros Hc%TrimRight_elem.
    split; [done|]. by intros ->.
Qed.

Lemma getLine_line_no_newline d : x0a ∉ (getLine d).1.
Proof. intros Hin%getLine_line_elem. by destruct Hin. Qed.

(** A byte that is no blank and no line end is in the first line of an
    input when it is in the first line of a part of it. *)
Lemma getLine_line_app X r c :
  c ≠ x20 -> c ≠ x09 -> c ≠ x0d ->
  c ∈ (getLine X).1 -> c ∈ (getLine (X ++ r)).1.
Proof.
  intros Hsp Htab Hcr.
  assert (c ∉ [x20; x09]) as Hcut.
  { rewrite !not_elem_of_cons. repeat split; try done. apply not_elem_of_nil. }
  destruct (decide (x0a ∈ X)) as [Hin|Hnot].
  - apply list_elem_of_split_l in Hin as (a & b & -> & Ha).
    rewrite <- app_assoc. simpl. by rewrite !getLine_newline_line.
  - rewrite getLine_eof by done. cbn [fst snd]. intros Hc%TrimRight_elem.
    destruct (decide (x0a ∈ r)) as [Hin|Hnot'].
    + apply list_elem_of_split_l in Hin as (a & b & -> & Ha).
      rewrite app_assoc.
      rewrite getLine_newline_line by (rewrite elem_of_app; tauto). cbn [fst snd].
      apply TrimRight_keeps; [done|].
      apply list_elem_of_lookup_1 in Hc as (i & Hi).
      pose proof (lookup_lt_Some _ _ _ Hi) as Hlt.
      assert ((X ++ a) !! i = Some c) as Hi' by (by apply lookup_app_l_Some).
      apply (list_elem_of_lookup_2 _ i). rewrite lookup_take_lt; [done|].
      rewrite length_app.
      destruct (_ && _) eqn:Hcond; [|lia].
      apply andb_prop in Hcond as [_ Hlast]. apply bool_decide_eq_true in Hlast.
      destruct (decide (i = length X + length a - 1)%nat) as [->|Hne]; [|lia].
      rewrite Hi' in Hlast. congruence.
    + rewrite getLine_eof by (rewrite elem_of_app; tauto). cbn [fst snd].
      apply TrimRight_keeps; [done|]. rewrite elem_of_app. by left.
Qed.

Lemma getLine_skip a s : x0a ∉ a -> (getLine (a ++ s)).2 = (getLine s).2.
Proof.
  intros Ha.
  destruct (decide (x0a ∈ s)) as [Hin|Hnot].
  - apply list_elem_of_split_l in Hin as (a' & b & -> & Ha').
    rewrite app_assoc.
    rewrite (getLine_newline (a ++ a') b) by (rewrite elem_of_app; tauto).
    by rewrite (getLine_newline a' b).
  - rewrite (getLine_eof s), (getLine_eof (a ++ s)); [done| |done].
    rewrite elem_of_app. tauto.
Qed.

Lemma Cut_None s c : Cut s [c] = None <-> c ∉ s.
Proof.
  unfold Cut. split.
  - intros Hcut. apply IndexByte_None_inv. unfold IndexByte.
    by destruct (Index s [c]).
  - intros Hc. fold (IndexByte s c). by rewrite IndexByte_None.
Qed.

End PemLines.

Section PemDecode.
Import pem.
Open Scope list_scope.
Context (TrimSpace : list byte -> list byte)
        (StdEncoding_Decode : list byte -> option (list byte)).
Implicit Types (s p sep X T r a b d line next rest typeLine : list byte) (c : byte)
  (hs : headers).

Local Abbreviation read_headers := (read_headers TrimSpace).
Local Abbreviation to_end := (to_end StdEncoding_Decode).
Local Abbreviation turn := (turn TrimSpace StdEncoding_Decode).
Local Abbreviation loop := (loop TrimSpace StdEncoding_Decode).
Local Abbreviation Decode := (Decode TrimSpace StdEncoding_Decode).

(** *** The header lines *)

Lemma read_headers_eq n hs rest :
  read_headers n hs rest =
    if (length rest =? 0)%nat then None
    else
      let '(line, next) := getLine rest in
      match Cut line colon with
      | None => Some (hs, rest)
      | Some (key, val) =>
          match n with
          | O => None
          | S n' =>
              read_headers n'
                (<[String.string_of_list_byte (TrimSpace key) :=
                     String.string_of_list_byte (TrimSpace val)]> hs)
                next
          end
      end.
Proof. by destruct n. Qed.

Lemma read_headers_suffix n hs rest hs' rest' :
  read_headers n hs rest = Some (hs', rest') ->
  rest' ≠ [] /\ exists consumed, rest = consumed ++ rest'.
Proof.
  revert hs rest. induction n as [|n IH]; intros hs rest; rewrite read_headers_eq;
    (destruct (length rest =? 0)%nat eqn:Hlen; [done|]);
    apply Nat.eqb_neq in Hlen;
    destruct (getLine rest) as [line next] eqn:Hline;
    destruct (Cut line colon) as [[key val]|]; try done.
  - intros [= <- <-]. split; [by destruct rest|]. by exists [].
  - intros [Hne (consumed & ->)]%IH. split; [done|].
    apply getLine_consumed in Hline as [[Hnil _]|(a & -> & _)].
    + by destruct consumed.
    + exists (a ++ x0a :: consumed). by rewrite <- app_assoc.
  - intros [= <- <-]. split; [by destruct rest|]. by exists [].
Qed.

(** Turns beyond the length of the input change nothing. *)
Lemma read_headers_enough n m hs rest :
  (length rest <= n)%nat -> (length rest <= m)%nat ->
  read_headers n hs rest = read_headers m hs rest.
Proof.
  revert m hs rest. induction n as [|n IH]; intros m hs rest Hn Hm.
  - destruct rest; [|simpl in Hn; lia]. by rewrite !read_headers_eq.
  - rewrite (read_headers_eq (S n)), (read_headers_eq m).
    destruct (length rest =? 0)%nat eqn:Hlen; [done|].
    apply Nat.eqb_neq in Hlen.
    pose proof (getLine_shorter rest ltac:(by destruct rest)) as Hshort.
    destruct (getLine rest) as [line next] eqn:Hline. simpl in Hshort.
    destruct (Cut line colon) as [[key val]|]; [|done].
    destruct m as [|m]; [lia|].
    apply IH; lia.
Qed.

(** The headers are empty only when no line was read. *)
Lemma read_headers_none n hs rest hs' rest' :
  read_headers n hs rest = Some (hs', rest') ->
  (hs' = hs /\ rest' = rest) \/ size hs' ≠ O.
Proof.
  revert hs rest. induction n as [|n IH]; intros hs rest; rewrite read_headers_eq;
    (destruct (length rest =? 0)%nat; [done|]);
    destruct (getLine rest) as [line next];
    destruct (Cut line colon) as [[key val]|]; try done.
  - intros [= <- <-]. by left.
  - intros [[-> _]|Hsize]%IH; right; [|done].
    rewrite map_size_ne_0_lookup. eexists. by rewrite lookup_insert_eq.
  - intros [= <- <-]. by left.
Qed.

Lemma getLine_no_colon X r :
  Cut (getLine (X ++ r)).1 colon = None -> Cut (getLine X).1 colon = None.
Proof.
  intros Hcolon. apply Cut_None. intros Hin. apply Cut_None in Hcolon.
  apply Hcolon. by apply getLine_line_app.
Qed.

(** The header lines of an input and of a part of it that holds them and
    one byte more are the same. *)
Lemma read_headers_app n hs X r hs' T :
  read_headers n hs (X ++ r) = Some (hs', T ++ r) -> T ≠ [] ->
  read_headers n hs X = Some (hs', T).
Proof.
  intros Hread HT. revert hs X Hread.
  induction n as [|n IH]; intros hs X Hread.
  - pose proof (read_headers_suffix _ _ _ _ _ Hread) as [_ (consumed & Hcut)].
    rewrite read_headers_eq in Hread |- *.
    destruct (length (X ++ r) =? 0)%nat; [done|].
    pose proof (getLine_no_colon X r) as Hstop.
    destruct (getLine (X ++ r)) as [line next].
    destruct (Cut line colon) as [[key val]|] eqn:Hcolon; [done|].
    injection Hread as <- ->%app_inv_tail.
    destruct (length T =? 0)%nat eqn:Hlen;
      [apply Nat.eqb_eq in Hlen; by destruct T|].
    destruct (getLine T) as [line' next']. cbn [fst] in Hstop.
    by rewrite (Hstop Hcolon).
  - pose proof (read_headers_suffix _ _ _ _ _ Hread) as [_ (consumed & Hcut)].
    rewrite read_headers_eq in Hread |- *.
    destruct (length (X ++ r) =? 0)%nat; [done|].
    pose proof (getLine_no_colon X r) as Hstop.
    destruct (getLine (X ++ r)) as [line next] eqn:Hline.
    destruct (Cut line colon) as [[key val]|] eqn:Hcolon.
    + pose proof (read_headers_suffix _ _ _ _ _ Hread) as [_ (consumed' & ->)].
      apply getLine_app in Hline as (X' & Heq & HlineX);
        [|rewrite !length_app; lia].
      rewrite Heq in Hread. apply IH in Hread.
      assert (X ≠ []) as HX.
      { intros ->. apply (f_equal length) in Hcut.
        rewrite !length_app in Hcut. simpl in Hcut.
        destruct T; [done|simpl in Hcut; lia]. }
      destruct (length X =? 0)%nat eqn:Hlen;
        [apply Nat.eqb_eq in Hlen; by destruct X|].
      by rewrite HlineX, Hcolon.
    + injection Hread as <- ->%app_inv_tail.
      destruct (length T =? 0)%nat eqn:Hlen;
        [apply Nat.eqb_eq in Hlen; by destruct T|].
      destruct (getLine T) as [line' next']. cbn [fst] in Hstop.
      by rewrite (Hstop Hcolon).
Qed.

(** *** The markers *)

Lemma pemStart_length : length pemStart = 12%nat.
Proof. reflexivity. Qed.

Lemma pemEnd_length : length pemEnd = 10%nat.
Proof. reflexivity. Qed.

Lemma pemEndOfLine_length : length pemEndOfLine = 5%nat.
Proof. reflexivity. Qed.

Lemma pemEnd_newline : pemEnd = x0a :: drop 1 pemEnd.
Proof. reflexivity. Qed.

Lemma pemEnd_blank : pemEnd = take 9 pemEnd ++ [x20].
Proof. reflexivity. Qed.

Lemma pemEndOfLine_dash : pemEndOfLine = take 4 pemEndOfLine ++ [x2d].
Proof. reflexivity. Qed.

Lemma pemEndOfLine_no_newline : x0a ∉ pemEndOfLine.
Proof.
  intros Hin. apply IndexByte_None_inv in Hin; [done|]. reflexivity.
Qed.

Lemma after_start_suffix rest after :
  after_start rest = Some after ->
  exists consumed, rest = consumed ++ after /\ (11 <= length consumed)%nat.
Proof.
  unfold after_start. destruct (HasPrefix rest (drop 1 pemStart)) eqn:Hp.
  - intros [= <-]. apply HasPrefix_length in Hp.
    rewrite length_drop in Hp. rewrite pemStart_length in *.
    exists (take (12 - 1) rest). rewrite take_drop, length_take. split; [done|lia].
  - unfold Cut. destruct (Index rest pemStart) as [i|] eqn:Hi; [|done].
    intros [= <-]. apply Index_bound in Hi. rewrite pemStart_length in *.
    exists (take (i + 12) rest). rewrite take_drop, length_take. split; [done|lia].
Qed.

(** The BEGIN marker of an input and of a part of it that holds the marker
    are at the same place. *)
Lemma after_start_app X r after :
  after_start (X ++ r) = Some after -> (length r <= length after)%nat ->
  exists X1, after = X1 ++ r /\ after_start X = Some X1.
Proof.
  unfold after_start. destruct (HasPrefix (X ++ r) (drop 1 pemStart)) eqn:Hp.
  - intros [= <-] Hlen. pose proof (HasPrefix_length _ _ Hp) as Hall.
    rewrite length_drop, length_app in Hlen, Hall.
    rewrite pemStart_length in *.
    rewrite HasPrefix_app_long in Hp by (rewrite length_drop, pemStart_length; lia).
    rewrite Hp. exists (drop (12 - 1) X). by rewrite drop_app_le by lia.
  - intros Hcut Hlen. rewrite (HasPrefix_app_false _ _ _ Hp). unfold Cut in *.
    destruct (Index (X ++ r) pemStart) as [i|] eqn:Hi; [|done].
    injection Hcut as <-. pose proof (Index_bound _ _ _ Hi) as Hall.
    rewrite length_drop, length_app in Hlen. rewrite length_app in Hall.
    rewrite pemStart_length in *.
    rewrite (Index_app_within X pemStart r i Hi) by (rewrite pemStart_length; lia).
    exists (drop (i + 12) X). by rewrite drop_app_le by lia.
Qed.

(** *** The END marker *)

Lemma end_marker_Some hs rest e eti :
  end_marker hs rest = Some (e, eti) ->
  ((size hs = O /\ HasPrefix rest (drop 1 pemEnd) = true) \/
   (Index rest pemEnd = Some e /\ eti = (e + 10)%nat)) /\
  (9 <= eti <= length rest)%nat /\ (e + 9 <= eti)%nat /\
  (exists before, (x0a ∉ before) /\
     drop (e + length pemEnd - 1) rest = before ++ drop eti rest) /\
  (exists before, take eti rest = before ++ [x20]).
Proof.
  unfold end_marker.
  destruct (bool_decide (size hs = O) && HasPrefix rest (drop 1 pemEnd)) eqn:Hnow.
  - intros [= <- <-]. apply andb_prop in Hnow as [Hsize%bool_decide_eq_true Hp].
    pose proof (HasPrefix_length _ _ Hp) as Hlen.
    rewrite length_drop in Hlen. rewrite pemEnd_length in *.
    split; [by left|]. split; [lia|]. split; [lia|]. split.
    + exists []. split; [apply not_elem_of_nil|done].
    + apply HasPrefix_true in Hp. rewrite length_drop, pemEnd_length in Hp.
      exists (take 8 (drop 1 pemEnd)). change (10 - 1)%nat with 9%nat in *.
      by rewrite Hp.
  - destruct (Index rest pemEnd) as [i|] eqn:Hi; [|done].
    intros [= <- <-]. pose proof (Index_bound _ _ _ Hi) as Hlen.
    pose proof (Index_at _ _ _ Hi) as Hp%HasPrefix_true.
    rewrite pemEnd_length in *.
    split; [by right|]. split; [lia|]. split; [lia|].
    assert (drop i rest = pemEnd ++ drop (i + 10) rest) as Hcut.
    { rewrite <- (take_drop 10 (drop i rest)) at 1. by rewrite Hp, drop_drop. }
    split.
    + exists [x20]. split.
      * rewrite not_elem_of_cons. split; [done|apply not_elem_of_nil].
      * replace (i + 10 - 1)%nat with (i + 9)%nat by lia.
        rewrite <- drop_drop, Hcut. reflexivity.
    + exists (take i rest ++ take 9 pemEnd).
      rewrite <- (take_drop i rest) at 1.
      rewrite take_app_ge by (rewrite length_take; lia).
      rewrite length_take, Nat.min_l by lia.
      replace (i + 10 - i)%nat with 10%nat by lia.
      rewrite Hp, <- app_assoc. by rewrite <- pemEnd_blank.
Qed.

Lemma end_marker_app hs X r :
  (9 <= length X)%nat ->
  ((size hs = O /\ HasPrefix X (drop 1 pemEnd) = true) \/
   is_Some (Index X pemEnd)) ->
  end_marker hs (X ++ r) = end_marker hs X /\ is_Some (end_marker hs X).
Proof.
  intros Hlen Hmarker. unfold end_marker.
  rewrite HasPrefix_app_long by (rewrite length_drop, pemEnd_length; lia).
  destruct (bool_decide (size hs = O) && HasPrefix X (drop 1 pemEnd)) eqn:Hnow;
    [by split|].
  destruct Hmarker as [[Hsize Hp]|[i Hi]].
  - by rewrite Hp, bool_decide_eq_true_2 in Hnow.
  - by rewrite (Index_app_found X pemEnd r i Hi), Hi.
Qed.

Lemma to_end_Continue typeLine hs rest rest' :
  to_end typeLine hs rest = Continue rest' -> rest' = rest.
Proof.
  unfold to_end. destruct (end_marker hs rest) as [[e eti]|]; [|by intros [= <-]].
  cbv zeta. repeat (match goal with
  | |- context [if ?b then _ else _] => destruct b
  | |- context [match ?o with Some _ => _ | None => _ end] => destruct o
  end; try (by intros [= <-])).
Qed.

Lemma trailer_eq t typeLine :
  length t = (length typeLine + length pemEndOfLine)%nat ->
  HasPrefix t typeLine = true -> HasSuffix t pemEndOfLine = true ->
  t = typeLine ++ pemEndOfLine.
Proof.
  intros Hlen Hp%HasPrefix_true Hs. unfold HasSuffix in Hs.
  apply bool_decide_eq_true in Hs.
  replace (length t - length pemEndOfLine)%nat with (length typeLine) in Hs by lia.
  by rewrite <- (take_drop (length typeLine) t), Hp, Hs.
Qed.

Lemma getLine_app_rest d r :
  r = [] \/ x0a ∈ d ->
  getLine (d ++ r) = ((getLine d).1, (getLine d).2 ++ r).
Proof.
  intros [->|Hin].
  - rewrite !app_nil_r. by destruct (getLine d).
  - apply list_elem_of_split_l in Hin as (a & b & -> & Ha).
    rewrite <- app_assoc. simpl.
    rewrite (getLine_newline a (b ++ r)), (getLine_newline a b) by done.
    reflexivity.
Qed.

Lemma snoc_in_tail X X' c before tail :
  X = X' ++ [c] -> X = before ++ tail -> tail ≠ [] -> c ∈ tail.
Proof.
  intros -> Hcut Htail.
  destruct (exists_last Htail) as (tail' & c' & ->).
  rewrite app_assoc in Hcut. apply app_inj_tail in Hcut as [_ ->].
  rewrite elem_of_app. right. by left.
Qed.

(** The end of a turn on an input and on a part of it are the same, when
    the part holds an END marker and ends with a line, or is all of the
    input. *)
Lemma to_end_app typeLine hs X r :
  x0a ∉ typeLine ->
  (9 <= length X)%nat ->
  ((size hs = O /\ HasPrefix X (drop 1 pemEnd) = true) \/
   is_Some (Index X pemEnd)) ->
  (r = [] \/ exists X', X = X' ++ [x0a]) ->
  to_end typeLine hs (X ++ r) =
    match to_end typeLine hs X with
    | Return p r' => Return p (r' ++ r)
    | Continue _ => Continue (X ++ r)
    end.
Proof.
  intros Htype Hlen Hmarker [->|[X' HX]].
  { rewrite app_nil_r. destruct (to_end typeLine hs X) as [p r'|rest'] eqn:Hend.
    - by rewrite app_nil_r.
    - by apply to_end_Continue in Hend as ->. }
  unfold to_end.
  destruct (end_marker_app hs X r Hlen Hmarker) as [-> [[e eti] Hm]].
  rewrite Hm.
  destruct (end_marker_Some _ _ _ _ Hm)
    as (_ & Heti & He & _ & (before & Hblank)).
  cbv zeta. rewrite (drop_app_le X r eti) by lia.
  assert (X = (before ++ [x20]) ++ drop eti X) as Hcut
    by (by rewrite <- Hblank, take_drop).
  set (D := drop eti X) in *. rewrite length_app.
  set (etl := (length typeLine + length pemEndOfLine)%nat).
  assert (forall t, length t = etl -> 
            negb (HasPrefix t typeLine) || negb (HasSuffix t pemEndOfLine) = false ->
            t = typeLine ++ pemEndOfLine /\ x0a ∉ t) as Htrailer.
  { intros t Ht Hchk. apply orb_false_elim in Hchk as [Hp Hs].
    apply negb_false_iff in Hp, Hs.
    pose proof (trailer_eq t typeLine Ht Hp Hs) as ->. split; [done|].
    rewrite elem_of_app. intros [?|?]; [done|].
    by apply pemEndOfLine_no_newline. }
  destruct (length D <? etl)%nat eqn:Hshort.
  - apply Nat.ltb_lt in Hshort.
    destruct (length D + length r <? etl)%nat eqn:Hall; [done|].
    apply Nat.ltb_ge in Hall.
    destruct (negb (HasPrefix (take etl (D ++ r)) typeLine)
              || negb (HasSuffix (take etl (D ++ r)) pemEndOfLine)) eqn:Hchk;
      [done|exfalso].
    apply Htrailer in Hchk as [_ Hnl];
      [|rewrite length_take, length_app; lia].
    assert (D = [] \/ x0a ∈ D) as [HD|HD].
    { destruct D as [|d D']; [by left|right].
      by apply (snoc_in_tail X X' x0a (before ++ [x20]) (d :: D')). }
    + rewrite HD, app_nil_r in Hcut. rewrite Hcut in HX.
      by apply app_inj_tail in HX as [_ ?].
    + apply Hnl. apply list_elem_of_lookup_1 in HD as (i & Hi).
      pose proof (lookup_lt_Some _ _ _ Hi) as Hlt.
      apply (list_elem_of_lookup_2 _ i).
      rewrite lookup_take_lt by lia. by apply lookup_app_l_Some.
  - apply Nat.ltb_ge in Hshort.
    assert ((length D + length r <? etl)%nat = false) as ->
      by (apply Nat.ltb_ge; lia).
    rewrite (take_app_le D r etl), (drop_app_le D r etl) by lia.
    destruct (negb (HasPrefix (take etl D) typeLine)
              || negb (HasSuffix (take etl D) pemEndOfLine)) eqn:Hchk; [done|].
    apply Htrailer in Hchk as [Ht Hnl]; [|rewrite length_take; lia].
    assert (x0a ∈ drop etl D) as Hline.
    { destruct (drop etl D) as [|d R'] eqn:HR.
      - exfalso. rewrite <- (take_drop etl D), HR, app_nil_r, Ht in Hcut.
        rewrite pemEndOfLine_dash in Hcut. rewrite !app_assoc in Hcut.
        rewrite Hcut in HX. by apply app_inj_tail in HX as [_ ?].
      - apply (snoc_in_tail X X' x0a ((before ++ [x20]) ++ take etl D) (d :: R'));
          [done| |done].
        by rewrite <- HR, <- app_assoc, take_drop. }
    rewrite (getLine_app_rest (drop etl D) r) by (by right). cbn [fst].
    destruct (negb (length (getLine (drop etl D)).1 =? 0)%nat); [done|].
    rewrite (take_app_le X r e) by lia.
    destruct (StdEncoding_Decode (removeSpacesAndTabs (take e X)))
      as [decoded|]; [|done].
    f_equal. rewrite pemEnd_length.
    rewrite (drop_app_le X r (e + 10 - 1)) by lia.
    rewrite getLine_app_rest; [done|]. right.
    assert (drop etl D = drop (eti + etl - (e + 10 - 1)) (drop (e + 10 - 1) X))
      as Hsuffix.
    { unfold D. rewrite !drop_drop. f_equal. lia. }
    rewrite Hsuffix in Hline.
    rewrite <- (take_drop (eti + etl - (e + 10 - 1)) (drop (e + 10 - 1) X)).
    rewrite elem_of_app. by right.
Qed.

(** A turn that finds a block leaves it in the input before its rest. *)
Lemma to_end_Return typeLine hs rest (found : option Block) r :
  x0a ∉ typeLine ->
  to_end typeLine hs rest = Return found r ->
  exists X,
    rest = X ++ r /\ (9 <= length X)%nat /\
    ((size hs = O /\ HasPrefix X (drop 1 pemEnd) = true) \/
     is_Some (Index X pemEnd)) /\
    (r = [] \/ exists X', X = X' ++ [x0a]) /\
    to_end typeLine hs X = Return found [].
Proof.
  intros Htype Hend. pose proof Hend as Hfound. unfold to_end in Hend.
  destruct (end_marker hs rest) as [[e eti]|] eqn:Hm; [|done].
  destruct (end_marker_Some _ _ _ _ Hm)
    as (Hmarker & Heti & He & (before & Hbefore & Hafter) & (blank & Hblank)).
  cbv zeta in Hend.
  set (etl := (length typeLine + length pemEndOfLine)%nat) in *.
  destruct (length (drop eti rest) <? etl)%nat eqn:Hshort; [done|].
  apply Nat.ltb_ge in Hshort.
  destruct (negb (HasPrefix (take etl (drop eti rest)) typeLine)
            || negb (HasSuffix (take etl (drop eti rest)) pemEndOfLine))
    eqn:Hchk; [done|].
  apply orb_false_elim in Hchk as [Hp Hs]. apply negb_false_iff in Hp, Hs.
  assert (length (take etl (drop eti rest)) = etl) as Hlen
    by (rewrite length_take; lia).
  pose proof (trailer_eq _ typeLine Hlen Hp Hs) as Ht.
  destruct (negb (length (getLine (drop etl (drop eti rest))).1 =? 0)%nat);
    [done|].
  destruct (StdEncoding_Decode (removeSpacesAndTabs (take e rest)))
    as [decoded|]; [|done].
  injection Hend as <- Hr.
  rewrite pemEnd_length in Hafter.
  rewrite Hafter, <- (take_drop etl (drop eti rest)), Ht, app_assoc in Hr.
  rewrite getLine_skip in Hr.
  2:{ rewrite !elem_of_app. intros [?|[?|?]]; [done..|].
      by apply pemEndOfLine_no_newline. }
  assert (rest = (take eti rest ++ typeLine ++ pemEndOfLine)
                   ++ drop etl (drop eti rest)) as Hcut.
  { rewrite <- Ht, <- app_assoc, take_drop. by rewrite take_drop. }
  assert (9 <= length (take eti rest))%nat as Hnine
    by (rewrite length_take; lia).
  set (R := drop etl (drop eti rest)) in *.
  destruct (getLine R) as [line next] eqn:Hline. cbn [snd] in Hr. subst next.
  assert (exists X, rest = X ++ r /\ (eti <= length X)%nat /\
                    (r = [] \/ exists X', X = X' ++ [x0a])) as (X & HX & HlenX & Hlast).
  { apply getLine_consumed in Hline as [[-> _]|(a & HR & _)].
    - exists rest. rewrite app_nil_r. split; [done|]. split; [lia|by left].
    - exists ((take eti rest ++ typeLine ++ pemEndOfLine) ++ a ++ [x0a]).
      split; [|split].
      + rewrite Hcut at 1. rewrite HR. by rewrite <- !app_assoc.
      + rewrite !length_app, length_take. lia.
      + right. exists ((take eti rest ++ typeLine ++ pemEndOfLine) ++ a).
        by rewrite <- !app_assoc. }
  assert ((size hs = O /\ HasPrefix X (drop 1 pemEnd) = true) \/
          is_Some (Index X pemEnd)) as HmarkerX.
  { destruct Hmarker as [[Hsize Hnow]|[Hi ->]].
    - left. split; [done|]. rewrite HX in Hnow.
      rewrite HasPrefix_app_long in Hnow; [done|].
      rewrite length_drop, pemEnd_length. lia.
    - right. exists e. rewrite HX in Hi. apply Index_app_within in Hi; [done|].
      rewrite pemEnd_length. lia. }
  exists X. split; [done|]. split; [lia|]. split; [done|]. split; [done|].
  rewrite HX in Hfound. rewrite to_end_app in Hfound by (done || lia).
  destruct (to_end typeLine hs X) as [found' r'|]; [|done].
  injection Hfound as -> Hrest. f_equal.
  apply (f_equal length) in Hrest. rewrite length_app in Hrest.
  destruct r'; [done|simpl in Hrest; lia].
Qed.

(** *** One turn *)

Lemma getLine_suffix d line next :
  getLine d = (line, next) -> exists consumed, d = consumed ++ next.
Proof.
  intros [[-> _]|(a & -> & _)]%getLine_consumed.
  - exists d. by rewrite app_nil_r.
  - exists (a ++ [x0a]). by rewrite <- app_assoc.
Qed.

Lemma take_no_newline d n : x0a ∉ d -> x0a ∉ take n d.
Proof.
  intros Hd (i & Hi & _)%elem_of_take. by apply list_elem_of_lookup_2 in Hi.
Qed.

(** A turn that goes on has taken a BEGIN marker from the input. *)
Lemma turn_Continue data rest rest' :
  turn data rest = Continue rest' ->
  exists consumed, rest = consumed ++ rest' /\ (11 <= length consumed)%nat.
Proof.
  unfold turn.
  destruct (after_start rest) as [rest1|] eqn:Hstart; [|done].
  apply after_start_suffix in Hstart as (c0 & -> & Hc0).
  destruct (getLine rest1) as [line rest2] eqn:Hline.
  apply getLine_suffix in Hline as (c1 & ->).
  destruct (negb (HasSuffix line pemEndOfLine)).
  - intros [= <-]. exists (c0 ++ c1). rewrite <- app_assoc, length_app.
    split; [done|lia].
  - destruct (read_headers (length rest2) ∅ rest2) as [[hs rest3]|] eqn:Hheaders;
      [|done].
    apply read_headers_suffix in Hheaders as (_ & c2 & ->).
    intros ->%to_end_Continue. exists (c0 ++ c1 ++ c2).
    rewrite <- !app_assoc, length_app. split; [done|lia].
Qed.

(** A turn that finds a block has found it in the bytes before the rest
    that it returns. *)
Lemma turn_Return data rest block r :
  turn data rest = Return (Some block) r ->
  exists T,
    rest = T ++ r /\ (11 <= length T)%nat /\ is_Some (Index T pemEnd) /\
    (r = [] \/ exists T', T = T' ++ [x0a]) /\
    forall data', turn data' T = Return (Some block) [].
Proof.
  unfold turn.
  destruct (after_start rest) as [rest1|] eqn:Hstart; [|done].
  destruct (getLine rest1) as [line rest2] eqn:Hline.
  destruct (negb (HasSuffix line pemEndOfLine)) eqn:Hsuffix; [done|].
  destruct (read_headers (length rest2) ∅ rest2) as [[hs rest3]|] eqn:Hheaders;
    [|done].
  set (typeLine := take (length line - length pemEndOfLine) line).
  assert (x0a ∉ typeLine) as Htype.
  { apply take_no_newline. pose proof (getLine_line_no_newline rest1) as Hnl.
    by rewrite Hline in Hnl. }
  intros (X3 & -> & Hnine & Hmarker & Hlast & Hend)%to_end_Return; [|done].
  pose proof (after_start_suffix _ _ Hstart) as (c0 & -> & Hc0).
  pose proof (read_headers_suffix _ _ _ _ _ Hheaders) as (_ & c2 & ->).
  pose proof (getLine_consumed _ _ _ Hline) as [[Hnil _]|(a & -> & Ha)].
  { apply (f_equal length) in Hnil. rewrite !length_app in Hnil. simpl in Hnil. lia. }
  set (X2 := c2 ++ X3). set (X1 := a ++ x0a :: X2).
  assert (c2 ++ X3 ++ r = X2 ++ r) as HX2 by (by rewrite app_assoc).
  assert (a ++ x0a :: c2 ++ X3 ++ r = X1 ++ r) as HX1.
  { unfold X1. by rewrite HX2, <- app_assoc. }
  rewrite HX1 in Hstart, Hline |- *. rewrite HX2 in Hline, Hheaders.
  exists (c0 ++ X1). split; [by rewrite app_assoc|].
  split; [rewrite length_app; lia|]. split; [|split].
  - apply Index_prepend. destruct Hmarker as [[Hsize Hnow]|Hfound].
    + apply read_headers_none in Hheaders as [[_ Hsame]|Hsize']; [|done].
      assert (c2 = []) as Hc2.
      { apply (f_equal length) in Hsame. unfold X2 in Hsame.
        rewrite !length_app in Hsame. destruct c2; [done|simpl in Hsame; lia]. }
      destruct (Index_found X1 pemEnd (length a)) as (j & Hj & _); [|by exists j].
      unfold X1, X2. rewrite Hc2, drop_app_length. simpl app.
      apply HasPrefix_true. rewrite pemEnd_newline at 2.
      rewrite pemEnd_length. simpl take. f_equal.
      apply HasPrefix_true in Hnow. by rewrite length_drop, pemEnd_length in Hnow.
    + unfold X1, X2.
      replace (a ++ x0a :: c2 ++ X3) with ((a ++ x0a :: c2) ++ X3)
        by (by rewrite <- app_assoc).
      by apply Index_prepend.
  - destruct Hlast as [->|[X' ->]]; [by left|right].
    exists (c0 ++ a ++ x0a :: c2 ++ X'). unfold X1, X2.
    rewrite <- !app_assoc. cbn [app]. by rewrite <- !app_assoc.
  - intros data'. rewrite (app_assoc c0 X1 r) in Hstart.
    apply after_start_app in Hstart as (X1' & HX1'%app_inv_tail & Hstart);
      [|rewrite length_app; lia].
    rewrite <- HX1' in Hstart. rewrite Hstart.
    apply getLine_app in Hline as (X2' & HX2'%app_inv_tail & Hline);
      [|rewrite length_app; lia].
    rewrite <- HX2' in Hline. rewrite Hline, Hsuffix.
    apply read_headers_app in Hheaders; [|by destruct X3; [simpl in Hnine; lia|]].
    rewrite (read_headers_enough _ (length (X2 ++ r))) by (rewrite ?length_app; lia).
    by rewrite Hheaders.
Qed.

(** A turn that goes on to an input in which a block is found goes on in
    the same way on the input up to the end of that block. *)
Lemma turn_Continue_app data before T r :
  (11 <= length T)%nat -> is_Some (Index T pemEnd) ->
  (r = [] \/ exists T', T = T' ++ [x0a]) ->
  turn data (before ++ T ++ r) = Continue (T ++ r) ->
  forall data', turn data' (before ++ T) = Continue T.
Proof.
  intros Hlen Hmarker Hlast. rewrite app_assoc. unfold turn.
  destruct (after_start ((before ++ T) ++ r)) as [rest1|] eqn:Hstart; [|done].
  destruct (getLine rest1) as [line rest2] eqn:Hline.
  pose proof (getLine_suffix _ _ _ Hline) as (c1 & Hc1).
  destruct (negb (HasSuffix line pemEndOfLine)) eqn:Hsuffix.
  - intros [= ->] data'.
    apply after_start_app in Hstart as (X1 & -> & ->);
      [|rewrite Hc1, !length_app; lia].
    apply getLine_app in Hline as (X2 & <-%app_inv_tail & ->);
      [|rewrite length_app; lia].
    by rewrite Hsuffix.
  - destruct (read_headers (length rest2) ∅ rest2) as [[hs rest3]|] eqn:Hheaders;
      [|done].
    pose proof (read_headers_suffix _ _ _ _ _ Hheaders) as (_ & c2 & Hc2).
    set (typeLine := take (length line - length pemEndOfLine) line).
    assert (x0a ∉ typeLine) as Htype.
    { apply take_no_newline. pose proof (getLine_line_no_newline rest1) as Hnl.
      by rewrite Hline in Hnl. }
    intros Hend data'. pose proof (to_end_Continue _ _ _ _ Hend) as Hrest3.
    subst rest3.
    apply after_start_app in Hstart as (X1 & -> & ->);
      [|rewrite Hc1, Hc2, !length_app; lia].
    apply getLine_app in Hline as (X2 & -> & ->);
      [|rewrite Hc2, !length_app; lia].
    rewrite Hsuffix.
    apply read_headers_app in Hheaders; [|by destruct T; [simpl in Hlen; lia|]].
    rewrite (read_headers_enough _ (length (X2 ++ r))) by (rewrite ?length_app; lia).
    rewrite Hheaders.
    rewrite to_end_app in Hend by (done || lia || by right).
    fold typeLine.
    destruct (to_end typeLine hs T) as [found r'|rest'] eqn:HendT; [done|].
    by apply to_end_Continue in HendT as ->.
Qed.

(** *** The loop *)

Lemma loop_enough n m data rest :
  (length rest < n)%nat -> (length rest < m)%nat ->
  loop n data rest = loop m data rest.
Proof.
  revert m rest. induction n as [|n IH]; intros m rest Hn Hm; [lia|].
  destruct m as [|m]; [lia|]. simpl.
  destruct (turn data rest) as [found r|rest'] eqn:Hturn; [done|].
  apply turn_Continue in Hturn as (consumed & -> & Hlen).
  rewrite length_app in Hn, Hm. apply IH; lia.
Qed.

(** The block that the loop finds is found again, and nothing after it,
    in the input up to the rest that the loop returns. *)
Lemma loop_token n data rest block r :
  loop n data rest = (Some block, r) ->
  exists T,
    rest = T ++ r /\ (11 <= length T)%nat /\ is_Some (Index T pemEnd) /\
    (r = [] \/ exists T', T = T' ++ [x0a]) /\
    forall data', loop n data' T = (Some block, []).
Proof.
  revert rest. induction n as [|n IH]; intros rest; [done|]. simpl.
  destruct (turn data rest) as [found r'|rest'] eqn:Hturn.
  - intros [= -> ->].
    apply turn_Return in Hturn as (T & -> & Hlen & Hmarker & Hlast & HT).
    exists T. repeat split; try done. intros data'. by rewrite HT.
  - intros (T & -> & Hlen & Hmarker & Hlast & HT)%IH.
    pose proof (turn_Continue _ _ _ Hturn) as (before & -> & _).
    exists (before ++ T). split; [by rewrite app_assoc|].
    split; [rewrite length_app; lia|]. split; [by apply Index_prepend|].
    split.
    + destruct Hlast as [->|[T' ->]]; [by left|right].
      exists (before ++ T'). by rewrite app_assoc.
    + intros data'.
      by rewrite (turn_Continue_app data before T r Hlen Hmarker Hlast Hturn data').
Qed.

(** [pem.Decode] finds a block again in the bytes that it took to find it:
    the same block, and nothing is left. *)
Lemma Decode_again data block r :
  Decode data = Some (block, r) ->
  (length r < length data)%nat /\
  Decode (take (length data - length r) data) = Some (block, []).
Proof.
  unfold Decode.
  destruct (loop (S (length data)) data data) as [[found|] r'] eqn:Hloop; [|done].
  intros [= -> ->].
  apply loop_token in Hloop as (T & -> & Hlen & _ & _ & HT).
  rewrite length_app. split; [lia|].
  replace (length T + length r - length r)%nat with (length T) by lia.
  rewrite take_app_length.
  rewrite (loop_enough (S (length T)) (S (length (T ++ r))))
    by (rewrite ?length_app; lia).
  by rewrite HT.
Qed.

End PemDecode.

Lemma GoPem_Decode_shorter d b r :
  GoPem.Decode d = Some (b, r) -> (length r < length d)%nat.
Proof. intros Hd. by apply Decode_again in Hd as [Hlen _]. Qed.

(** ** PEM input *)

Lemma set_Headers_same block : set_Headers block (Headers block) = block.
Proof. by destruct block. Qed.

Lemma mergeHeaders_origin (h : headers) filename :
  filename ≠ "" -> filename ≠ Stdin_Name ->
  mergeHeaders h (origin_headers filename) = <[fileHeader := filename]> h.
Proof.
  intros Hne Hstdin. unfold origin_headers.
  rewrite !bool_decide_eq_true_2 by done. simpl.
  rewrite mergeHeaders_union, <- insert_union_l. by rewrite (left_id_L ∅ (∪)).
Qed.

Lemma mergeHeaders_no_origin (h : headers) filename :
  filename = "" \/ filename = Stdin_Name ->
  mergeHeaders h (origin_headers filename) = h.
Proof.
  intros Hname. unfold origin_headers.
  assert (bool_decide (filename ≠ "") && bool_decide (filename ≠ Stdin_Name)
          = false) as ->.
  { destruct Hname as [->| ->]; reflexivity. }
  apply mergeHeaders_empty_r.
Qed.

(** An anonymous stream that reads as [blocks]: the callback gets the blocks
    as they were decoded. *)
Lemma ReadPEM_anonymous_blocks {env : Decoders} stream format password
    blocks (w : World Block) :
  delivers stream -> reads blocks (data stream) ->
  formatForFile stream "" format = Ok "PEM" ->
  ReadPEM [stream] format password call w = (Ok tt, called w blocks).
Proof.
  intros Hdelivers Hreads Hfmt.
  rewrite ReadPEM_cons, Hfmt.
  rewrite (readCertsFromStream_PEM_blocks _ _ _ _ w Hdelivers Hreads).
  simpl. f_equal. f_equal.
  clear. induction blocks as [|b blocks IH]; [done|].
  rewrite fmap_cons, IH.
  by rewrite mergeHeaders_no_origin, set_Headers_same by (by left).
Qed.

(** C7 (as amended): a PEM input that reads as three certificate blocks,
    each of them found by [pem.Decode] in a buffer of the scanner, which
    holds 64 KiB at most, gives exactly three calls of the callback, in the
    order of the file, with blocks of type CERTIFICATE and the bytes of the
    blocks.  Read from a file with a name other than the empty name and that
    of standard input, each block has the header [originFile] set to the
    name of the file and keeps its other headers.  Read from a file with the
    empty name or the name of standard input, or as an anonymous stream,
    each block has the headers of its PEM text and no other: [originFile] is
    absent unless the text of the block has it. *)
Theorem ReadPEM_three_certificates {env : Decoders}
    (file : File) format password b1 b2 b3 (w : World Block) :
  delivers (content file) ->
  reads [b1; b2; b3] (data (content file)) ->
  Type' b1 = "CERTIFICATE" -> Type' b2 = "CERTIFICATE" -> Type' b3 = "CERTIFICATE" ->
  let with_origin b :=
    set_Headers b (<[fileHeader := Name file]> (Headers b)) in
  (forall b, Type' (with_origin b) = Type' b /\ Bytes (with_origin b) = Bytes b /\
             Headers (with_origin b) !! fileHeader = Some (Name file) /\
             forall k, k ≠ fileHeader ->
                       Headers (with_origin b) !! k = Headers b !! k) /\
  (formatForFile (content file) (Name file) format = Ok "PEM" ->
   Name file ≠ "" -> Name file ≠ Stdin_Name ->
   ReadPEMFromFiles [file] format password call w =
     (Ok tt, called w [with_origin b1; with_origin b2; with_origin b3])) /\
  (formatForFile (content file) (Name file) format = Ok "PEM" ->
   Name file = "" \/ Name file = Stdin_Name ->
   ReadPEMFromFiles [file] format password call w =
     (Ok tt, called w [b1; b2; b3])) /\
  (formatForFile (content file) "" format = Ok "PEM" ->
   ReadPEM [content file] format password call w =
     (Ok tt, called w [b1; b2; b3])).
Proof.
  intros Hdelivers Hreads Ht1 Ht2 Ht3 with_origin.
  split; [|split; [|split]].
  - intros b. repeat split; simpl.
    + apply lookup_insert_eq.
    + intros k Hk. by rewrite lookup_insert_ne.
  - intros Hfmt Hne Hstdin.
    rewrite ReadPEMFromFiles_cons, Hfmt.
    rewrite (readCertsFromStream_PEM_blocks _ _ _ _ w Hdelivers Hreads).
    simpl. by rewrite !mergeHeaders_origin.
  - intros Hfmt Hname.
    rewrite ReadPEMFromFiles_cons, Hfmt.
    rewrite (readCertsFromStream_PEM_blocks _ _ _ _ w Hdelivers Hreads).
    simpl. by rewrite !mergeHeaders_no_origin, !set_Headers_same.
  - intros Hfmt.
    rewrite ReadPEM_cons, Hfmt.
    rewrite (readCertsFromStream_PEM_blocks _ _ _ _ w Hdelivers Hreads).
    simpl. by rewrite !mergeHeaders_no_origin, !set_Headers_same by (by left).
Qed.

Lemma sample_delivers reader : delivers (env := Sample.decoders) reader.
Proof. intros off space _ _. simpl. lia. Qed.

Lemma GoPem_delivers shorter reader :
  delivers (env := GoPem.decoders shorter) reader.
Proof. intros off space Hspace _. exact Hspace. Qed.

(** [ReadPEM_three_certificates] with the decoder of the library, on the
    file [chain.pem] of three blocks and on the same bytes as an anonymous
    stream. *)
Lemma ReadPEM_three_certificates_witness :
  let env := GoPem.decoders GoPem_Decode_shorter in
  let stream :=
    {| data := (Sample.text1 ++ Sample.text2 ++ Sample.text3)%list;
       failure := None |} in
  let file := {| Name := "chain.pem"; content := stream |} in
  let with_origin b := set_Headers b (<[fileHeader := "chain.pem"]> (Headers b)) in
  ReadPEMFromFiles (env := env) [file] "" Sample.password call start =
    (Ok tt, called start [with_origin Sample.block1; with_origin Sample.block2;
                          with_origin Sample.block3]) /\
  ReadPEM (env := env) [stream] "" Sample.password call start =
    (Ok tt, called start [Sample.block1; Sample.block2; Sample.block3]).
Proof.
  intros env stream file with_origin.
  assert (reads (env := env) [Sample.block1; Sample.block2; Sample.block3]
            (data stream)) as Hreads.
  { apply reads_check_sound. vm_compute. reflexivity. }
  pose proof (ReadPEM_three_certificates (env := env)
                file "" Sample.password
                Sample.block1 Sample.block2 Sample.block3 start
                (GoPem_delivers GoPem_Decode_shorter stream) Hreads
                eq_refl eq_refl eq_refl) as (_ & Hnamed & _ & Hanon).
  split.
  - apply Hnamed; [reflexivity|discriminate..].
  - apply Hanon. reflexivity.
Defined.

(** C7 (as stated) fails: an anonymous stream of three certificate blocks,
    the first with a header [originFile] in its own text, gives a first
    block that has the key [originFile]. *)
Lemma ReadPEM_anonymous_keeps_originFile :
  let stream :=
    {| data := (Sample.text_with_header ++ Sample.text2 ++ Sample.text3)%list;
       failure := None |} in
  ReadPEM (env := Sample.decoders) [stream] "" Sample.password call start =
    (Ok tt, called start [Sample.block_with_header; Sample.block2; Sample.block3]) /\
  Type' Sample.block_with_header = "CERTIFICATE" /\
  Headers Sample.block_with_header !! fileHeader = Some "other.pem".
Proof.
  intros stream.
  split; [|split; [reflexivity|apply lookup_insert_eq]].
  apply ReadPEM_anonymous_blocks; [apply sample_delivers| |reflexivity].
  apply reads_check_sound. vm_compute. reflexivity.
Qed.



(** ** No nil block in the PEM loop *)

Section NoNilBlock.
Context {env : Decoders}.
Context (TrimSpace : list byte -> list byte)
        (StdEncoding_Decode : list byte -> option (list byte)).
Hypothesis library :
  forall data, pem_Decode data = pem.Decode TrimSpace StdEncoding_Decode data.

(** What the split function hands over decodes again: to the block that
    [pem.Decode] had found in the buffer, with nothing left. *)
Lemma pemSplit_decodes buf size token :
  pemSplit buf = (size, Some token) ->
  exists block rest,
    pem_Decode buf = Some (block, rest) /\
    size = (length buf - length rest)%nat /\
    token = take size buf /\ (0 < size <= length buf)%nat /\
    pem_Decode token = Some (block, []).
Proof.
  intros (block & rest & Hd & -> & -> & Hsize)%pemSplit_token.
  exists block, rest. repeat split; try done; try lia.
  rewrite library in Hd |- *. by apply Decode_again in Hd as [_ Htoken].
Qed.

Lemma pemScanner_decodes reader :
  exists blocks,
    Forall2 (fun token block => pem_Decode token = Some (block, []))
            (pemScanner reader) blocks.
Proof.
  pose proof (scan_inv_NewScanner reader) as (Hok & _).
  pose proof (scan_tokens_split reader (length (data reader)) (NewScanner reader)
                Hok) as Hall.
  fold (pemScanner reader) in Hall.
  induction Hall as [|token tokens (buf & size & _ & Hsplit) Hall [blocks IH]].
  - exists []. constructor.
  - apply pemSplit_decodes in Hsplit as (block & _ & _ & _ & _ & _ & Htoken).
    exists (block :: blocks). by constructor.
Qed.

End NoNilBlock.

(** C10 (as amended): a token of the split function of [pemScanner] is the
    prefix that [pem.Decode] took from the buffer on which the scanner ran
    the function, and in which it found a block; the buffer may hold more
    bytes than the token, so that [pem.Decode] has not been run on the token
    itself.  With [pem.Decode] as the Go library has it, whatever the
    functions that trim a header and decode the body, [pem.Decode] finds in
    the token the block that it found in the buffer, and nothing is left.
    So every token of the scanner, which comes from the split function run
    on a buffer of 64 KiB at most, decodes to a block in
    [readCertsFromStream], and the PEM branch ends without a nil
    dereference, having called the callback once per token. *)
Theorem PEM_tokens_decode {env : Decoders}
    (TrimSpace : list byte -> list byte)
    (StdEncoding_Decode : list byte -> option (list byte))
    reader filename password (w : World Block) :
  (forall data, pem_Decode data = pem.Decode TrimSpace StdEncoding_Decode data) ->
  (forall buf size token, pemSplit buf = (size, Some token) ->
     exists block rest,
       pem_Decode buf = Some (block, rest) /\
       size = (length buf - length rest)%nat /\
       token = take size buf /\ (0 < size <= length buf)%nat /\
       pem_Decode token = Some (block, [])) /\
  Forall (fun token =>
            exists buf size,
              (length buf <= MaxScanTokenSize)%nat /\
              pemSplit buf = (size, Some token))
         (pemScanner reader) /\
  (readCertsFromStream reader filename "PEM" password call w).1 ≠ Panic /\
  exists blocks,
    Forall2 (fun token block => pem_Decode token = Some (block, []))
            (pemScanner reader) blocks /\
    readCertsFromStream reader filename "PEM" password call w =
      (Err ("unknown file type: PEM" ++ nl),
       called w (annotate filename <$> blocks)).
Proof.
  intros Hlibrary.
  destruct (pemScanner_decodes TrimSpace StdEncoding_Decode Hlibrary reader)
    as (blocks & Hblocks).
  assert (readCertsFromStream reader filename "PEM" password call w =
            (Err ("unknown file type: PEM" ++ nl),
             called w (annotate filename <$> blocks))) as Hrun.
  { rewrite readCertsFromStream_PEM.
    erewrite bind_Ok; [reflexivity|].
    apply (PEM_loop_blocks _ blocks (annotate filename)).
    eapply Forall2_impl; [exact Hblocks|]. intros token block Htoken.
    by exists []. }
  split; [|split; [|split]].
  - intros buf size token.
    apply (pemSplit_decodes TrimSpace StdEncoding_Decode Hlibrary).
  - apply scan_tokens_split. apply scan_inv_NewScanner.
  - by rewrite Hrun.
  - by exists blocks.
Qed.

(** [PEM_tokens_decode] on a stream of two blocks, with the decoder of the
    library and a reader that fills the buffer. *)
Lemma PEM_tokens_decode_witness :
  let env := GoPem.decoders GoPem_Decode_shorter in
  let reader :=
    {| data := (Sample.text1 ++ Sample.text2)%list; failure := None |} in
  pemScanner (env := env) reader = [Sample.text1; Sample.text2] /\
  pem_Decode (Decoders := env) Sample.text1 = Some (Sample.block1, []) /\
  (readCertsFromStream (env := env) reader "" "PEM" Sample.password
     call start).1 ≠ Panic.
Proof.
  intros env reader.
  split; [vm_compute; reflexivity|]. split; [vm_compute; reflexivity|].
  apply (PEM_tokens_decode (env := env) GoPem.TrimSpace GoPem.StdEncoding_Decode
           reader "" Sample.password start).
  intros data. reflexivity.
Defined.

(** C10 (as stated) fails: [pem.Decode] has not been run on a token before
    [readCertsFromStream] runs it.  On a stream of two blocks that the first
    read delivers whole, the first round of [Scan] has nothing to split and
    reads, the second runs the split function, and with it [pem.Decode], on
    the two blocks together; the token is the text of the first block, a
    part of that buffer and not the buffer. *)
Lemma PEM_token_not_decoded_before :
  let env := GoPem.decoders GoPem_Decode_shorter in
  let reader :=
    {| data := (Sample.text1 ++ Sample.text2)%list; failure := None |} in
  exists s1 s2,
    pending (NewScanner reader) = [] /\
    scan_round (env := env) reader (NewScanner reader) = Again s1 /\
    pending s1 = (Sample.text1 ++ Sample.text2)%list /\
    scan_round (env := env) reader s1 = Token Sample.text1 s2 /\
    pemSplit (env := env) (pending s1) =
      (length Sample.text1, Some Sample.text1) /\
    Sample.text1 ≠ pending s1 /\
    pemScanner (env := env) reader = [Sample.text1; Sample.text2].
Proof.
  intros env reader.
  eexists _, _.
  split; [reflexivity|].
  split; [vm_compute; reflexivity|].
  split; [reflexivity|].
  split; [vm_compute; reflexivity|].
  split; [vm_compute; reflexivity|].
  split; [|vm_compute; reflexivity].
  intros Heq. apply (f_equal length) in Heq. vm_compute in Heq. discriminate Heq.
Qed.

(** ** Inputs too short to sniff *)

Section ShortInput.
Context {env : Decoders}.

Lemma formatForFile_anonymous_short stream :
  (length (data stream) < 4)%nat ->
  formatForFile stream "" "" =
    Err ("unable to read file: " ++ default "EOF" (failure stream) ++ nl).
Proof. intros Hlen. by apply formatForFile_short. Qed.

Lemma ReadPEMFromFiles_app {Ev} before after format password
    (callback : Block -> io Ev unit) w :
  ReadPEMFromFiles (before ++ after) format password callback w =
    and_then (ReadPEMFromFiles before format password callback w)
      (ReadPEMFromFiles after format password callback).
Proof.
  unfold ReadPEMFromFiles, and_then. rewrite for_range_app.
  by destruct (for_range before _ w) as [[[]|e|] w'].
Qed.

Lemma ReadPEM_app {Ev} before after format password
    (callback : Block -> io Ev unit) w :
  ReadPEM (before ++ after) format password callback w =
    and_then (ReadPEM before format password callback w)
      (ReadPEM after format password callback).
Proof.
  unfold ReadPEM, and_then. rewrite for_range_app.
  by destruct (for_range before _ w) as [[[]|e|] w'].
Qed.

Lemma ReadX509FromFiles_app before after format password callback w :
  ReadX509FromFiles (before ++ after) format password callback w =
    and_then (ReadX509FromFiles before format password callback w)
      (ReadX509FromFiles after format password callback).
Proof.
  unfold ReadX509FromFiles, and_then. rewrite for_range_app.
  by destruct (for_range before _ w) as [[[]|e|] w'].
Qed.

Lemma ReadX509_app before after format password callback w :
  ReadX509 (before ++ after) format password callback w =
    and_then (ReadX509 before format password callback w)
      (ReadX509 after format password callback).
Proof.
  unfold ReadX509, and_then. rewrite for_range_app.
  by destruct (for_range before _ w) as [[[]|e|] w'].
Qed.

End ShortInput.

(** C9: for a stream of fewer than four bytes, with no format hint and no
    extension of the table in the file name, the peek fails and
    [formatForFile] returns an error; each of the four readers then returns
    its error of format guessing, and the callback has been called for the
    inputs before this one only: not for this input and not for any input
    after it. *)
Theorem short_stream_aborts {env : Decoders} (stream : Stream) password :
  (length (data stream) < 4)%nat ->
  (Peek stream 4).2 = Some (default "EOF" (failure stream)) /\
  (forall name, fileExtToFormat !! strings_ToLower (Ext name) = None ->
     formatForFile stream name "" =
       Err ("unable to read file: " ++ default "EOF" (failure stream) ++ nl)) /\
  (forall name before after (w : World Block),
     fileExtToFormat !! strings_ToLower (Ext name) = None ->
     ReadPEMFromFiles (before ++ {| Name := name; content := stream |} :: after)
       "" password call w =
     then_fail (ReadPEMFromFiles before "" password call w)
       ("unable to guess file type (for file " ++ name ++ ")" ++ nl)) /\
  (forall before after (w : World Block),
     ReadPEM (before ++ stream :: after) "" password call w =
     then_fail (ReadPEM before "" password call w)
       "unable to guess format for input stream") /\
  (forall name before after (w : World Certificate),
     fileExtToFormat !! strings_ToLower (Ext name) = None ->
     ReadX509FromFiles (before ++ {| Name := name; content := stream |} :: after)
       "" password call w =
     then_fail (ReadX509FromFiles before "" password call w)
       ("unable to guess file type (for file " ++ name ++ ")")) /\
  (forall before after (w : World Certificate),
     ReadX509 (before ++ stream :: after) "" password call w =
     then_fail (ReadX509 before "" password call w)
       "unable to guess format for input stream").
Proof.
  intros Hlen.
  split; [|split; [|split; [|split; [|split]]]].
  - unfold Peek. destruct (decide _); [lia|done].
  - intros name Hext. by apply formatForFile_short.
  - intros name before after w Hext.
    rewrite ReadPEMFromFiles_app. unfold and_then, then_fail.
    destruct (ReadPEMFromFiles before _ _ _ w) as [[[]|e|] w']; [|done..].
    rewrite ReadPEMFromFiles_cons. simpl.
    by rewrite formatForFile_short.
  - intros before after w.
    rewrite ReadPEM_app. unfold and_then, then_fail.
    destruct (ReadPEM before _ _ _ w) as [[[]|e|] w']; [|done..].
    rewrite ReadPEM_cons.
    by rewrite formatForFile_anonymous_short.
  - intros name before after w Hext.
    rewrite ReadX509FromFiles_app. unfold and_then, then_fail.
    destruct (ReadX509FromFiles before _ _ _ w) as [[[]|e|] w']; [|done..].
    rewrite ReadX509FromFiles_cons. simpl.
    by rewrite formatForFile_short.
  - intros before after w.
    rewrite ReadX509_app. unfold and_then, then_fail.
    destruct (ReadX509 before _ _ _ w) as [[[]|e|] w']; [|done..].
    rewrite ReadX509_cons.
    by rewrite formatForFile_anonymous_short.
Qed.

(** [short_stream_aborts] on an empty stream between two PEM streams: the
    block of the first stream is delivered, then the reader fails. *)
Lemma short_stream_aborts_witness :
  let empty := {| data := []; failure := None |} in
  let pem1 := {| data := Sample.text1; failure := None |} in
  let pem2 := {| data := Sample.text2; failure := None |} in
  (length (data empty) < 4)%nat /\
  ReadPEM (env := Sample.decoders) [pem1; empty; pem2] "" Sample.password
    call start =
    (Err "unable to guess format for input stream", called start [Sample.block1]).
Proof.
  intros empty pem1 pem2.
  assert (length (data empty) < 4)%nat as Hlen by (simpl; lia).
  split; [exact Hlen|].
  pose proof (short_stream_aborts (env := Sample.decoders) empty
                Sample.password Hlen) as (_ & _ & _ & Hanon & _).
  etrans; [exact (Hanon [pem1] [pem2] start)|].
  reflexivity.
Defined.

(** ** PKCS12 input *)

Lemma readCertsFromStream_PKCS12_no_blocks {env : Decoders} {Ev}
    stream filename password (callback : Block -> io Ev unit) pfxData err w :
  ReadAll stream = Ok pfxData ->
  pkcs12_ToPEM pfxData (password "") = ([], err) ->
  readCertsFromStream stream filename "PKCS12" password callback w =
    (Err ("unknown file type: PKCS12" ++ nl), warned w [pkcs12_warning]).
Proof.
  intros Hread Hp12. rewrite readCertsFromStream_PKCS12, Hread, Hp12.
  simpl. by rewrite orb_true_r.
Qed.

(** C3: a PKCS12 input whose decoding fails, or gives no entry, has the
    callback called for none of its blocks, puts the warning on standard
    error, and does not stop the batch: each of the four readers goes on
    with the inputs after it, from a world that differs by the warning
    only.  ([pkcs12.ToPEM] returns no blocks together with an error.) *)
Theorem PKCS12_failure_is_warning {env : Decoders}
    (stream : Stream) password pfxData blocks err :
  ReadAll stream = Ok pfxData ->
  pkcs12_ToPEM pfxData (password "") = (blocks, err) ->
  err ≠ None \/ blocks = [] ->
  (err ≠ None -> blocks = []) ->
  (forall name format after (w : World Block),
     formatForFile stream name format = Ok "PKCS12" ->
     ReadPEMFromFiles ({| Name := name; content := stream |} :: after)
       format password call w =
     ReadPEMFromFiles after format password call (warned w [pkcs12_warning])) /\
  (forall format after (w : World Block),
     formatForFile stream "" format = Ok "PKCS12" ->
     ReadPEM (stream :: after) format password call w =
     ReadPEM after format password call (warned w [pkcs12_warning])) /\
  (forall name format after (w : World Certificate),
     formatForFile stream name format = Ok "PKCS12" ->
     ReadX509FromFiles ({| Name := name; content := stream |} :: after)
       format password call w =
     ReadX509FromFiles after format password call (warned w [pkcs12_warning])) /\
  (forall format after (w : World Certificate),
     formatForFile stream "" format = Ok "PKCS12" ->
     ReadX509 (stream :: after) format password call w =
     ReadX509 after format password call (warned w [pkcs12_warning])).
Proof.
  intros Hread Hp12 Hfail Hnil.
  assert (blocks = []) as -> by (destruct Hfail; auto).
  split; [|split; [|split]].
  - intros name format after w Hfmt.
    rewrite ReadPEMFromFiles_cons. simpl. rewrite Hfmt.
    by rewrite (readCertsFromStream_PKCS12_no_blocks _ _ _ _ pfxData err).
  - intros format after w Hfmt.
    rewrite ReadPEM_cons, Hfmt.
    by rewrite (readCertsFromStream_PKCS12_no_blocks _ _ _ _ pfxData err).
  - intros name format after w Hfmt.
    rewrite ReadX509FromFiles_cons. simpl. rewrite Hfmt.
    by rewrite (readCertsFromStream_PKCS12_no_blocks _ _ _ _ pfxData err).
  - intros format after w Hfmt.
    rewrite ReadX509_cons, Hfmt.
    by rewrite (readCertsFromStream_PKCS12_no_blocks _ _ _ _ pfxData err).
Qed.

(** [PKCS12_failure_is_warning] on a store opened with a wrong password,
    followed by a PEM file. *)
Lemma PKCS12_failure_is_warning_witness :
  let store := {| data := Sample.p12_data; failure := None |} in
  let pem := {| Name := "b.pem";
                content := {| data := Sample.text2; failure := None |} |} in
  pkcs12_ToPEM (Decoders := Sample.decoders) Sample.p12_data
    (Sample.wrong_password "")
    = ([], Some "pkcs12: decryption password incorrect") /\
  ReadPEMFromFiles (env := Sample.decoders)
    [{| Name := "a.p12"; content := store |}; pem] "" Sample.wrong_password
    call start =
    (Ok tt,
     {| calls := [set_Headers Sample.block2 (<[fileHeader := "b.pem"]> ∅)];
        stderr := [pkcs12_warning] |}).
Proof.
  intros store pem.
  split; [reflexivity|].
  pose proof (PKCS12_failure_is_warning (env := Sample.decoders)
                store Sample.wrong_password Sample.p12_data []
                (Some "pkcs12: decryption password incorrect")
                eq_refl eq_refl) as Hp12.
  destruct Hp12 as (Hfiles & _); [by left|done|].
  rewrite (Hfiles "a.p12" "" [pem] start eq_refl).
  vm_compute. reflexivity.
Defined.

(** ** Errors of the decoders *)

Lemma for_range_discard_no_Err {Ev X} (xs : list X)
    (step : X -> result string) (run : X -> string -> io Ev unit)
    (msg : X -> error) w e :
  (for_range xs (fun x =>
     match step x with
     | Ok format => discard_error (run x format)
     | Err _ => fail (msg x)
     | Panic => panic
     end) w).1 = Err e ->
  exists x, x ∈ xs /\ e = msg x /\ exists e', step x = Err e'.
Proof.
  revert w. induction xs as [|x xs IH]; intros w; [done|].
  rewrite for_range_cons.
  destruct (step x) as [format|e'|] eqn:Hstep.
  - unfold discard_error.
    destruct (run x format w) as [[[]|e''|] w']; simpl;
      try (intros (y & Hy & Hmsg)%IH; exists y; split; [by right|done]);
      done.
  - simpl. intros [= <-]. exists x. split; [by left|]. split; [done|by exists e'].
  - done.
Qed.

(** C1, the code against the claim: [ReadPEM] on a stream that is sniffed
    as DER and holds neither certificates nor PKCS#7 data, followed by a
    PEM stream.  The decoder of the first stream returns its error; the
    reader drops it, reads the second stream, and returns nil.  An error
    that any of the four readers does return comes from format detection,
    never from a decoder. *)
Theorem ReadPEM_drops_decoder_error :
  let bad := {| data := Sample.der_garbage; failure := None |} in
  let pem := {| data := Sample.text1; failure := None |} in
  formatForFile (env := Sample.decoders) bad "" "" = Ok "DER" /\
  readCertsFromStream (env := Sample.decoders) bad "" "DER" Sample.password
    call start
    = (Err ("error parsing certificates from DER data" ++ nl), start) /\
  ReadPEM (env := Sample.decoders) [bad; pem] "" Sample.password call start
    = (Ok tt, called start [Sample.block1]) /\
  (forall (env : Decoders) readers format password (w : World Block) e,
     (ReadPEM readers format password call w).1 = Err e ->
     exists r e', r ∈ readers /\ formatForFile r "" format = Err e') /\
  (forall (env : Decoders) files format password (w : World Block) e,
     (ReadPEMFromFiles files format password call w).1 = Err e ->
     exists file e',
       file ∈ files /\
       formatForFile (content file) (Name file) format = Err e') /\
  (forall (env : Decoders) readers format password (w : World Certificate) e,
     (ReadX509 readers format password call w).1 = Err e ->
     exists r e', r ∈ readers /\ formatForFile r "" format = Err e') /\
  (forall (env : Decoders) files format password (w : World Certificate) e,
     (ReadX509FromFiles files format password call w).1 = Err e ->
     exists file e',
       file ∈ files /\
       formatForFile (content file) (Name file) format = Err e').
Proof.
  intros bad pem.
  split; [reflexivity|]. split; [reflexivity|]. split; [reflexivity|].
  split; [|split; [|split]].
  - intros env readers format password w e Herr.
    unfold ReadPEM in Herr.
    apply (for_range_discard_no_Err readers
             (fun r => formatForFile r "" format)
             (fun r format' => readCertsFromStream r "" format' password call)
             (fun _ => "unable to guess format for input stream")) in Herr
      as (r & Hr & _ & e' & He').
    by exists r, e'.
  - intros env files format password w e Herr.
    unfold ReadPEMFromFiles in Herr.
    apply (for_range_discard_no_Err files
             (fun file => formatForFile (content file) (Name file) format)
             (fun file format' =>
                readCertsFromStream (content file) (Name file) format' password call)
             (fun file =>
                "unable to guess file type (for file " ++ Name file ++ ")" ++ nl))
      in Herr as (file & Hfile & _ & e' & He').
    by exists file, e'.
  - intros env readers format password w e Herr.
    unfold ReadX509 in Herr.
    apply (for_range_discard_no_Err readers
             (fun r => formatForFile r "" format)
             (fun r format' =>
                readCertsFromStream r "" format' password (pemToX509 call))
             (fun _ => "unable to guess format for input stream")) in Herr
      as (r & Hr & _ & e' & He').
    by exists r, e'.
  - intros env files format password w e Herr.
    unfold ReadX509FromFiles in Herr.
    apply (for_range_discard_no_Err files
             (fun file => formatForFile (content file) (Name file) format)
             (fun file format' =>
                readCertsFromStream (content file) (Name file) format' password
                  (pemToX509 call))
             (fun file =>
                "unable to guess file type (for file " ++ Name file ++ ")"))
      in Herr as (file & Hfile & _ & e' & He').
    by exists file, e'.
Qed.

(** ** JCEKS input *)

Section Keystore.
Context {env : Decoders}.

Lemma readCertsFromStream_JCEKS {Ev} reader filename password
    (callback : Block -> io Ev unit) :
  readCertsFromStream reader filename "JCEKS" password callback =
    match jceks_LoadFromReader reader (String.list_byte_of_string (password "")) with
    | Ok keyStore =>
        for_range (ListCerts keyStore) (fun alias =>
          match GetCert keyStore alias with
          | Some cert =>
              callback (EncodeX509ToPEM cert (alias_headers filename alias))
          | None => panic
          end) ;;
        for_range (ListPrivateKeys keyStore) (fun alias =>
          match GetPrivateKeyAndCerts keyStore alias
                  (String.list_byte_of_string (password alias)) with
          | Ok (key, certs) =>
              match keyToPem key (alias_headers filename alias) with
              | Ok block =>
                  callback block ;;
                  for_range certs (fun cert =>
                    callback (EncodeX509ToPEM cert (alias_headers filename alias)))
              | Err err => fail ("error reading key: " ++ err ++ nl)
              | Panic => panic
              end
          | Err err => fail ("error parsing keystore: " ++ err ++ nl)
          | Panic => panic
          end) ;;
        fail ("unknown file type: JCEKS" ++ nl)
    | Err err => fail ("error parsing keystore: " ++ err ++ nl)
    | Panic => panic
    end.
Proof. reflexivity. Qed.

Lemma alias_headers_name filename alias :
  alias_headers filename alias !! nameHeader = Some alias.
Proof.
  unfold alias_headers. rewrite mergeHeaders_lookup.
  by rewrite lookup_insert_eq.
Qed.

Lemma keyToPem_Headers key h block :
  keyToPem key h = Ok block -> Headers block = h.
Proof.
  destruct key as [k|k|t]; simpl.
  - by intros [= <-].
  - destruct (x509_MarshalECPrivateKey k); [|done..]. by intros [= <-].
  - done.
Qed.

Lemma certs_loop keyStore filename (certOf : string -> Certificate) aliases
    (w : World Block) :
  (forall alias, alias ∈ aliases -> GetCert keyStore alias = Some (certOf alias)) ->
  for_range aliases (fun alias =>
    match GetCert keyStore alias with
    | Some cert => call (EncodeX509ToPEM cert (alias_headers filename alias))
    | None => panic
    end) w =
  (Ok tt, called w ((fun alias =>
                       EncodeX509ToPEM (certOf alias) (alias_headers filename alias))
                    <$> aliases)).
Proof.
  revert w. induction aliases as [|alias aliases IH]; intros w Hget.
  - simpl. by rewrite called_nil.
  - rewrite for_range_cons, (Hget alias) by (by left).
    unfold call at 1. fold (called w [EncodeX509ToPEM (certOf alias)
                                        (alias_headers filename alias)]).
    rewrite IH by (intros a Ha; apply Hget; by right).
    by rewrite called_app.
Qed.

Lemma keys_loop keyStore filename password
    (keyOf : string -> PrivateKey) (chainOf : string -> list Certificate)
    (keyBlockOf : string -> Block) aliases (w : World Block) :
  (forall alias, alias ∈ aliases ->
     GetPrivateKeyAndCerts keyStore alias
       (String.list_byte_of_string (password alias))
     = Ok (keyOf alias, chainOf alias)) ->
  (forall alias, alias ∈ aliases ->
     keyToPem (keyOf alias) (alias_headers filename alias) = Ok (keyBlockOf alias)) ->
  for_range aliases (fun alias =>
    match GetPrivateKeyAndCerts keyStore alias
            (String.list_byte_of_string (password alias)) with
    | Ok (key, certs) =>
        match keyToPem key (alias_headers filename alias) with
        | Ok block =>
            call block ;;
            for_range certs (fun cert =>
              call (EncodeX509ToPEM cert (alias_headers filename alias)))
        | Err err => fail ("error reading key: " ++ err ++ nl)
        | Panic => panic
        end
    | Err err => fail ("error parsing keystore: " ++ err ++ nl)
    | Panic => panic
    end) w =
  (Ok tt, called w (aliases ≫= fun alias =>
                      keyBlockOf alias ::
                      ((fun cert => EncodeX509ToPEM cert (alias_headers filename alias))
                       <$> chainOf alias))).
Proof.
  revert w. induction aliases as [|alias aliases IH]; intros w Hget Hpem.
  - simpl. by rewrite called_nil.
  - rewrite for_range_cons, (Hget alias), (Hpem alias) by (by left).
    assert ((call (keyBlockOf alias) ;;
             for_range (chainOf alias) (fun cert =>
               call (EncodeX509ToPEM cert (alias_headers filename alias)))) w
            = (Ok tt, called w (keyBlockOf alias ::
                 ((fun cert => EncodeX509ToPEM cert (alias_headers filename alias))
                  <$> chainOf alias)))) as ->.
    { erewrite bind_Ok by reflexivity. rewrite for_range_call.
      f_equal. unfold called. simpl. by rewrite <- app_assoc. }
    rewrite IH by (intros a Ha; (apply Hget || apply Hpem); by right).
    by rewrite called_app.
Qed.

End Keystore.

Lemma keyToPem_Type {env : Decoders} key h block :
  keyToPem key h = Ok block ->
  Type' block = "RSA PRIVATE KEY" \/ Type' block = "EC PRIVATE KEY".
Proof.
  destruct key as [k|k|t]; simpl.
  - intros [= <-]. by left.
  - destruct (x509_MarshalECPrivateKey k); [|done..]. intros [= <-]. by right.
  - done.
Qed.

(** C4: for a JCEKS keystore that loads and whose entries all decode, the
    callback gets first one CERTIFICATE block per certificate alias, in the
    order of [ListCerts], and then, per private-key alias in the order of
    [ListPrivateKeys], the block of the key followed by the CERTIFICATE
    blocks of its chain, in chain order; every one of these blocks has the
    header [friendlyName] equal to its alias.  A store with no certificate
    alias and one key alias with a chain of two certificates gives the key
    block and then the two certificate blocks. *)
Theorem JCEKS_emission_order {env : Decoders}
    stream filename password keyStore
    (certOf : string -> Certificate) (keyOf : string -> PrivateKey)
    (chainOf : string -> list Certificate) (keyBlockOf : string -> Block)
    (w : World Block) :
  jceks_LoadFromReader stream (String.list_byte_of_string (password ""))
    = Ok keyStore ->
  (forall alias, alias ∈ ListCerts keyStore ->
     GetCert keyStore alias = Some (certOf alias)) ->
  (forall alias, alias ∈ ListPrivateKeys keyStore ->
     GetPrivateKeyAndCerts keyStore alias
       (String.list_byte_of_string (password alias))
     = Ok (keyOf alias, chainOf alias)) ->
  (forall alias, alias ∈ ListPrivateKeys keyStore ->
     keyToPem (keyOf alias) (alias_headers filename alias) = Ok (keyBlockOf alias)) ->
  let cert_block alias cert :=
    EncodeX509ToPEM cert (alias_headers filename alias) in
  let of_cert_alias alias := cert_block alias (certOf alias) in
  let of_key_alias alias := keyBlockOf alias :: (cert_block alias <$> chainOf alias) in
  let after := readCertsFromStream stream filename "JCEKS" password call w in
  after = (Err ("unknown file type: JCEKS" ++ nl),
           called w ((of_cert_alias <$> ListCerts keyStore)
                     ++ (ListPrivateKeys keyStore ≫= of_key_alias))) /\
  (forall alias cert,
     Type' (cert_block alias cert) = "CERTIFICATE" /\
     Bytes (cert_block alias cert) = Raw cert /\
     Headers (cert_block alias cert) !! nameHeader = Some alias) /\
  (forall alias, alias ∈ ListPrivateKeys keyStore ->
     (Type' (keyBlockOf alias) = "RSA PRIVATE KEY" \/
      Type' (keyBlockOf alias) = "EC PRIVATE KEY") /\
     Headers (keyBlockOf alias) !! nameHeader = Some alias) /\
  (forall alias c1 c2,
     ListCerts keyStore = [] -> ListPrivateKeys keyStore = [alias] ->
     chainOf alias = [c1; c2] ->
     calls after.2 =
       (calls w ++ [keyBlockOf alias; cert_block alias c1; cert_block alias c2])%list).
Proof.
  intros Hload Hcerts Hkeys Hpem cert_block of_cert_alias of_key_alias after.
  assert (after = (Err ("unknown file type: JCEKS" ++ nl),
           called w ((of_cert_alias <$> ListCerts keyStore)
                     ++ (ListPrivateKeys keyStore ≫= of_key_alias)))) as Hafter.
  { subst after. rewrite readCertsFromStream_JCEKS, Hload.
    erewrite bind_Ok by (by apply certs_loop with (certOf := certOf)).
    erewrite bind_Ok
      by (by apply keys_loop with (keyOf := keyOf) (chainOf := chainOf)
                                  (keyBlockOf := keyBlockOf)).
    by rewrite called_app. }
  split; [exact Hafter|]. split; [|split].
  - intros alias cert. subst cert_block. cbn [EncodeX509ToPEM Type' Bytes Headers].
    repeat split. apply alias_headers_name.
  - intros alias Halias. specialize (Hpem alias Halias). split.
    + by apply keyToPem_Type in Hpem.
    + apply keyToPem_Headers in Hpem as ->. apply alias_headers_name.
  - intros alias c1 c2 Hnocerts Honekey Hchain.
    rewrite Hafter, Hnocerts, Honekey.
    subst of_key_alias. cbn [fmap list_fmap mbind list_bind app called calls snd].
    by rewrite Hchain.
Qed.

(** [JCEKS_emission_order] on the sample keystore: the certificate [ca],
    then the key [server] and the two certificates of its chain. *)
Lemma JCEKS_emission_order_witness :
  let stream := {| data := Sample.jceks_data; failure := None |} in
  let h alias := alias_headers "store.jceks" alias in
  jceks_LoadFromReader (Decoders := Sample.decoders) stream
    (String.list_byte_of_string (Sample.password "")) = Ok Sample.key_store /\
  calls (readCertsFromStream (env := Sample.decoders) stream "store.jceks" "JCEKS"
           Sample.password call start).2 =
    [ EncodeX509ToPEM Sample.cert_a (h "ca");
      {| Type' := "RSA PRIVATE KEY"; Headers := h "server"; Bytes := [x30; x00] |};
      EncodeX509ToPEM Sample.cert_b (h "server");
      EncodeX509ToPEM Sample.cert_c (h "server") ].
Proof.
  intros stream h.
  assert (jceks_LoadFromReader (Decoders := Sample.decoders) stream
            (String.list_byte_of_string (Sample.password ""))
          = Ok Sample.key_store) as Hload by reflexivity.
  split; [exact Hload|].
  pose proof (JCEKS_emission_order (env := Sample.decoders)
    stream "store.jceks" Sample.password Sample.key_store
    (fun _ => Sample.cert_a) (fun _ => RSAKey Sample.rsa_key)
    (fun _ => [Sample.cert_b; Sample.cert_c])
    (fun alias =>
       {| Type' := "RSA PRIVATE KEY"; Headers := h alias; Bytes := [x30; x00] |})
    start Hload) as Horder.
  destruct Horder as (Hafter & _).
  - intros alias ->%list_elem_of_singleton. reflexivity.
  - intros alias ->%list_elem_of_singleton. reflexivity.
  - intros alias ->%list_elem_of_singleton. reflexivity.
  - by rewrite Hafter.
Defined.


(** * Further properties *)

(** ** Header merging as an operation *)

(** X9: merging is associative, the empty map is neutral on both sides,
    and merging a map with itself gives the map. *)
Theorem mergeHeaders_monoid (a b c : headers) :
  mergeHeaders (mergeHeaders a b) c = mergeHeaders a (mergeHeaders b c) /\
  mergeHeaders ∅ a = a /\
  mergeHeaders a ∅ = a /\
  mergeHeaders a a = a.
Proof.
  rewrite !mergeHeaders_union. repeat split.
  - apply (assoc_L (∪)).
  - apply (right_id_L ∅ (∪)).
  - apply (left_id_L ∅ (∪)).
  - apply (idemp_L (∪)).
Qed.

(** ** The scanner cuts the input in order *)

(** X10: the tokens of [pemScanner] are consecutive pieces of the input,
    none of them empty and none longer than 64 KiB: put end to end they are
    the input up to a rest that the scanner gives no token of.  The scanner
    gives no token at all when [pem.Decode] finds no block in any of the
    first 64 KiB of the input taken from its start, whatever the input holds
    after them. *)
Theorem pemScanner_partition {env : Decoders} (reader : Stream) :
  (exists leftover,
     data reader = (concat (pemScanner reader) ++ leftover)%list) /\
  Forall (fun token => (0 < length token <= MaxScanTokenSize)%nat)
         (pemScanner reader) /\
  ((forall n, (n <= MaxScanTokenSize)%nat ->
      pem_Decode (take n (data reader)) = None) ->
   pemScanner reader = []).
Proof.
  pose proof (scan_inv_NewScanner reader) as (Hok & _).
  destruct (scan_tokens_pieces reader (length (data reader)) (NewScanner reader)
              Hok) as (leftover & Hcut & Hall).
  split; [by exists leftover|]. split; [done|].
  intros Hnone. unfold pemScanner.
  destruct (data reader) as [|b input] eqn:Hdata; [done|].
  simpl length. simpl scan_tokens.
  pose proof (Scan_rounds_nothing reader
                (length (unread (NewScanner reader)) + 2)
                (NewScanner reader) Hok) as Hscan.
  fold (Scan reader (NewScanner reader)) in Hscan.
  destruct (Scan reader (NewScanner reader)) as [[token|] s']; [|done].
  discriminate Hscan. simpl. by rewrite Hdata.
Qed.

(** [pemScanner_partition] on a stream of one line that holds no block. *)
Lemma pemScanner_partition_witness :
  let reader := {| data := Sample.bytes ("# end" ++ nl); failure := None |} in
  pemScanner (env := Sample.decoders) reader = [].
Proof.
  intros reader.
  destruct (pemScanner_partition (env := Sample.decoders) reader)
    as (_ & _ & Hnone).
  apply Hnone.
  apply (reads_check_sound (env := Sample.decoders) []). vm_compute. reflexivity.
Defined.

(** ** File names and the extension table *)

Lemma string_get_app_r (s t : string) (i : nat) :
  String.get (String.length s + i) (s ++ t) = String.get i t.
Proof. induction s as [|c s IH]; simpl; [done|exact IH]. Qed.

Lemma string_length_app (s t : string) :
  String.length (s ++ t) = (String.length s + String.length t)%nat.
Proof. induction s as [|c s IH]; simpl; [done|by rewrite IH]. Qed.

Lemma string_substring_all (t : string) :
  String.substring 0 (String.length t) t = t.
Proof. induction t as [|c t IH]; simpl; [done|by rewrite IH]. Qed.

Lemma string_substring_app_r (s t : string) :
  String.substring (String.length s) (String.length t) (s ++ t) = t.
Proof.
  induction s as [|c s IH]; simpl; [apply string_substring_all|exact IH].
Qed.

Lemma string_get_None (t : string) (i : nat) :
  (i < String.length t)%nat -> String.get i t ≠ None.
Proof.
  revert i. induction t as [|c t IH]; intros i Hi; simpl in *; [lia|].
  destruct i as [|i]; [done|]. apply IH. lia.
Qed.

Lemma plain_suffix_get t i c :
  plain_suffix t = true -> String.get i t = Some c ->
  IsPathSeparator c = false /\ bool_decide (c = "."%char) = false.
Proof.
  revert i. induction t as [|c' t IH]; intros i Hplain Hget; [done|].
  simpl in Hplain.
  apply andb_prop in Hplain as [[Hsep Hdot]%andb_prop Hplain].
  destruct i as [|i]; simpl in Hget.
  - injection Hget as <-. by split; apply negb_true_iff.
  - by apply (IH i).
Qed.

(** The extension of [base.suffix] is [.suffix], whatever [base] is. *)
Lemma Ext_dot_suffix (base suffix : string) :
  plain_suffix suffix = true ->
  Ext (base ++ String "."%char suffix) = String "."%char suffix.
Proof.
  intros Hplain. unfold Ext.
  set (path := base ++ String "."%char suffix).
  assert (forall k, (k <= String.length suffix)%nat ->
            Ext_loop path (String.length base + 1 + k) = String "."%char suffix)
    as Hloop.
  { induction k as [|k IH]; intros Hk.
    - replace (String.length base + 1 + 0)%nat with (S (String.length base)) by lia.
      simpl.
      replace (String.length base) with (String.length base + 0)%nat at 1 by lia.
      unfold path at 1. rewrite string_get_app_r. simpl.
      unfold path. rewrite string_length_app. simpl.
      replace (String.length base + S (String.length suffix) - String.length base)%nat
        with (String.length (String "."%char suffix)) by (simpl; lia).
      apply string_substring_app_r.
    - replace (String.length base + 1 + S k)%nat
        with (S (String.length base + S k)) by lia.
      simpl. unfold path at 1. rewrite string_get_app_r. simpl.
      destruct (String.get k suffix) as [c|] eqn:Hget.
      + destruct (plain_suffix_get suffix k c Hplain Hget) as [-> ->].
        replace (String.length base + S k)%nat
          with (String.length base + 1 + k)%nat by lia.
        apply IH. lia.
      + exfalso. by apply (string_get_None suffix k). }
  replace (String.length path)
    with (String.length base + 1 + String.length suffix)%nat
    by (unfold path; rewrite string_length_app; simpl; lia).
  by apply Hloop.
Qed.

Lemma strings_ToLower_ascii {env : Decoders} (s : string) :
  all_ascii s = true -> strings_ToLower s = map_string lower_char s.
Proof. intros Hs. unfold strings_ToLower. by rewrite Hs. Qed.

(** X1: a file name that ends in a dot and an extension body, in any mix of
    upper and lower case ASCII letters, has the format that the table gives
    for the lowered extension, whatever the directories and the base name
    are and whatever the stream holds. *)
Theorem formatForFile_by_extension {env : Decoders}
    (file : Stream) (base suffix guess : string) :
  plain_suffix suffix = true ->
  all_ascii suffix = true ->
  fileExtToFormat !! String "."%char (map_string lower_char suffix) = Some guess ->
  formatForFile file (base ++ String "."%char suffix) "" = Ok guess.
Proof.
  intros Hplain Hascii Hguess.
  apply formatForFile_ext.
  rewrite Ext_dot_suffix by done.
  rewrite strings_ToLower_ascii by (simpl; by rewrite Hascii).
  exact Hguess.
Qed.

(** [formatForFile_by_extension] on a path with dots in its directories and
    an extension in capitals. *)
Lemma formatForFile_by_extension_witness :
  plain_suffix "P12" = true /\ all_ascii "P12" = true /\
  fileExtToFormat !! ".p12" = Some "PKCS12" /\
  formatForFile (env := Sample.decoders) {| data := []; failure := None |}
    "/etc/ssl.d/my.store.P12" "" = Ok "PKCS12".
Proof.
  split; [reflexivity|]. split; [reflexivity|]. split; [reflexivity|].
  apply (formatForFile_by_extension (env := Sample.decoders)
           {| data := []; failure := None |} "/etc/ssl.d/my.store" "P12" "PKCS12");
    reflexivity.
Defined.

(** ** What format detection can answer *)

Lemma fileExtToFormat_values ext guess :
  fileExtToFormat !! ext = Some guess ->
  guess ∈ ["PEM"; "DER"; "PKCS12"; "JCEKS"].
Proof.
  unfold fileExtToFormat. intros Hext%elem_of_list_to_map_2.
  repeat (apply elem_of_cons in Hext as [[= _ <-]|Hext];
          [set_solver|]).
  by apply elem_of_nil in Hext.
Qed.

Lemma guess_magic_values magic :
  guess_magic magic ≠ Panic /\
  forall guess, guess_magic magic = Ok guess ->
                guess ∈ ["PEM"; "DER"; "PKCS12"; "JCEKS"].
Proof.
  unfold guess_magic.
  repeat (case_bool_decide; simpl); split; try done;
    intros guess [= <-]; set_solver.
Qed.

(** X2: without a format hint, [formatForFile] fails or answers one of the
    four formats that [readCertsFromStream] has a branch for, and it does
    not run into the index check of the big-endian read. *)
Theorem formatForFile_detects_known_format {env : Decoders}
    (file : Stream) (filename : string) :
  formatForFile file filename "" ≠ Panic /\
  forall guess, formatForFile file filename "" = Ok guess ->
                guess ∈ ["PEM"; "DER"; "PKCS12"; "JCEKS"].
Proof.
  unfold formatForFile. simpl.
  destruct (fileExtToFormat !! _) as [guess'|] eqn:Hext.
  - split; [done|]. intros guess [= <-]. by apply fileExtToFormat_values in Hext.
  - unfold Peek. destruct (decide _) as [Hlen|Hlen]; [|by split].
    destruct (data file) as [|b0 [|b1 [|b2 [|b3 rest]]]]; simpl in Hlen; try lia.
    simpl. apply guess_magic_values.
Qed.

(** ** Formats without a branch *)

Section UnknownFormat.
Context {env : Decoders}.

Lemma readCertsFromStream_unknown {Ev} reader filename format password
    (callback : Block -> io Ev unit) w :
  format ∉ ["PEM"; "DER"; "PKCS12"; "JCEKS"] ->
  readCertsFromStream reader filename format password callback w =
    (Err ("unknown file type: " ++ format ++ nl), w).
Proof.
  intros Hformat. unfold readCertsFromStream.
  rewrite !bool_decide_eq_false_2; [done|..]; intros ->; apply Hformat; set_solver.
Qed.

Lemma for_range_skip {Ev X} (xs : list X) (body : X -> io Ev unit) w :
  (forall x w', body x w' = (Ok tt, w')) ->
  for_range xs body w = (Ok tt, w).
Proof.
  intros Hbody. induction xs as [|x xs IH]; [done|].
  by rewrite for_range_cons, Hbody.
Qed.

End UnknownFormat.

(** X3: a format hint that is not empty and not one of [PEM], [DER],
    [PKCS12], [JCEKS] (the names are case-sensitive) makes each of the
    four readers return nil without a call of the callback and without a
    line on standard error, whatever the inputs are. *)
Theorem unknown_hint_reads_nothing {env : Decoders} (format : string) password :
  format ≠ "" ->
  format ∉ ["PEM"; "DER"; "PKCS12"; "JCEKS"] ->
  (forall files (w : World Block),
     ReadPEMFromFiles files format password call w = (Ok tt, w)) /\
  (forall readers (w : World Block),
     ReadPEM readers format password call w = (Ok tt, w)) /\
  (forall files (w : World Certificate),
     ReadX509FromFiles files format password call w = (Ok tt, w)) /\
  (forall readers (w : World Certificate),
     ReadX509 readers format password call w = (Ok tt, w)).
Proof.
  intros Hne Hformat.
  split; [|split; [|split]]; intros inputs w;
    [unfold ReadPEMFromFiles|unfold ReadPEM
    |unfold ReadX509FromFiles|unfold ReadX509];
    apply for_range_skip; intros x w';
    rewrite formatForFile_hint by done;
    unfold discard_error;
    by rewrite readCertsFromStream_unknown.
Qed.

(** [unknown_hint_reads_nothing] for the hint [pem] in lower case. *)
Lemma unknown_hint_reads_nothing_witness :
  "pem" ≠ "" /\ ("pem" ∉ ["PEM"; "DER"; "PKCS12"; "JCEKS"]) /\
  ReadPEM (env := Sample.decoders)
    [{| data := Sample.text1; failure := None |}] "pem" Sample.password call start
    = (Ok tt, start).
Proof.
  assert ("pem" ≠ "") as Hne by discriminate.
  assert ("pem" ∉ ["PEM"; "DER"; "PKCS12"; "JCEKS"]) as Hformat.
  { intros Hin. repeat (apply elem_of_cons in Hin as [Hin|Hin]; [discriminate|]).
    by apply elem_of_nil in Hin. }
  split; [exact Hne|]. split; [exact Hformat|].
  apply (unknown_hint_reads_nothing (env := Sample.decoders) "pem"
           Sample.password Hne Hformat).
Defined.

(** ** The result of [readCertsFromStream] *)

Lemma bind_fail_result {Ev A} (m : io Ev A) (e : error) w :
  ((m ;; fail (A := unit) e) w).1 ≠ Ok tt.
Proof.
  unfold mbind, io_bind. by destruct (m w) as [[a|e'|] w'].
Qed.

Lemma bind_result_not_Ok {Ev A} (m : io Ev A) (f : A -> io Ev unit) w :
  (forall a w', (f a w').1 ≠ Ok tt) ->
  ((m ≫= f) w).1 ≠ Ok tt.
Proof.
  intros Hf. unfold mbind, io_bind.
  destruct (m w) as [[a|e'|] w']; [apply Hf|done..].
Qed.

(** X4: [readCertsFromStream] returns nil for the format [DER] only: for
    every other format, [PEM], [PKCS12] and [JCEKS] among them, it returns
    an error or panics, whatever it has read and whatever the callback
    does. *)
Theorem readCertsFromStream_nil_only_DER {env : Decoders} {Ev}
    reader filename format password (callback : Block -> io Ev unit) w :
  format ≠ "DER" ->
  (readCertsFromStream reader filename format password callback w).1 ≠ Ok tt.
Proof.
  intros Hformat. unfold readCertsFromStream.
  case_bool_decide; [apply bind_fail_result|].
  case_bool_decide; [done|].
  case_bool_decide.
  { destruct (ReadAll reader) as [der|e|]; [|done..].
    destruct (pkcs12_ToPEM der (password "")) as [blocks err].
    apply bind_result_not_Ok. intros _ w'. apply bind_fail_result. }
  case_bool_decide; [|done].
  destruct (jceks_LoadFromReader _ _) as [keyStore|e|]; [|done..].
  apply bind_result_not_Ok. intros _ w'. apply bind_fail_result.
Qed.

(** [readCertsFromStream_nil_only_DER] on a PEM stream that is read
    without fault. *)
Lemma readCertsFromStream_nil_only_DER_witness :
  "PEM" ≠ "DER" /\
  readCertsFromStream (env := Sample.decoders)
    {| data := Sample.text1; failure := None |} "" "PEM" Sample.password
    call start
  = (Err ("unknown file type: PEM" ++ nl), called start [Sample.block1]) /\
  (readCertsFromStream (env := Sample.decoders)
     {| data := Sample.text1; failure := None |} "" "PEM" Sample.password
     call start).1 ≠ Ok tt.
Proof.
  assert ("PEM" ≠ "DER") as Hformat by discriminate.
  split; [exact Hformat|]. split; [reflexivity|].
  apply (readCertsFromStream_nil_only_DER (env := Sample.decoders)
           {| data := Sample.text1; failure := None |} "" "PEM"
           Sample.password call start Hformat).
Defined.

(** ** DER input *)

Section DER.
Context {env : Decoders}.

(** X5: the DER branch tries the bytes as X.509 certificates first and as
    PKCS#7 signed data only when that fails.  Certificates give one
    CERTIFICATE block each, in order, with the raw bytes of the
    certificate and the provenance headers, and the result nil; envelopes
    give PKCS7 blocks in the same way; when both parsers fail the callback
    is not called and the result is the parse error. *)
Theorem DER_branch reader filename password der (w : World Block) :
  ReadAll reader = Ok der ->
  let run := readCertsFromStream reader filename "DER" password call w in
  let h := origin_headers filename in
  (forall certs, x509_ParseCertificates der = Ok certs ->
     run = (Ok tt, called w ((fun cert =>
                                {| Type' := "CERTIFICATE"; Headers := h;
                                   Bytes := Raw cert |}) <$> certs))) /\
  (forall e envelopes,
     x509_ParseCertificates der = Err e ->
     pkcs7_ParseSignedData der = Ok envelopes ->
     run = (Ok tt, called w ((fun envelope =>
                                {| Type' := "PKCS7"; Headers := h;
                                   Bytes := EnvelopeRaw envelope |})
                             <$> envelopes))) /\
  (forall e e',
     x509_ParseCertificates der = Err e ->
     pkcs7_ParseSignedData der = Err e' ->
     run = (Err ("error parsing certificates from DER data" ++ nl), w)).
Proof.
  intros Hread run h. subst run.
  rewrite readCertsFromStream_DER, Hread.
  split; [|split].
  - intros certs ->. apply for_range_call.
  - intros e envelopes -> ->. apply for_range_call.
  - by intros e e' -> ->.
Qed.

(** X6: [pemToX509] on the blocks of the DER branch: when each certificate
    that [x509.ParseCertificates] found parses again from its raw bytes to
    itself, a certificate consumer gets exactly these certificates, in
    order. *)
Theorem DER_certificates_delivered reader filename password der certs
    (w : World Certificate) :
  ReadAll reader = Ok der ->
  x509_ParseCertificates der = Ok certs ->
  (forall cert, cert ∈ certs -> x509_ParseCertificate (Raw cert) = Ok cert) ->
  readCertsFromStream reader filename "DER" password (pemToX509 call) w =
    (Ok tt, called w certs).
Proof.
  intros Hread Hparse Hagain.
  rewrite readCertsFromStream_DER, Hread, Hparse.
  clear Hread Hparse. revert w.
  induction certs as [|cert certs IH]; intros w.
  - simpl. by rewrite called_nil.
  - rewrite for_range_cons.
    unfold pemToX509 at 1. simpl.
    rewrite (Hagain cert) by (by left).
    unfold call at 1. fold (called w [cert]).
    rewrite IH by (intros c Hc; apply Hagain; by right).
    by rewrite called_app.
Qed.

End DER.

(** [DER_branch] on the sample certificate, read from the file [ca.der]. *)
Lemma DER_branch_witness :
  let reader := {| data := Sample.der_cert; failure := None |} in
  ReadAll reader = Ok Sample.der_cert /\
  readCertsFromStream (env := Sample.decoders) reader "ca.der" "DER"
    Sample.password call start =
    (Ok tt, called start
       [{| Type' := "CERTIFICATE"; Headers := origin_headers "ca.der";
           Bytes := Sample.der_cert |}]).
Proof.
  intros reader. split; [reflexivity|].
  pose proof (DER_branch (env := Sample.decoders) reader "ca.der"
                Sample.password Sample.der_cert start eq_refl) as (Hx509 & _).
  exact (Hx509 [{| Raw := Sample.der_cert |}] eq_refl).
Defined.

(** [DER_certificates_delivered] on the sample certificate. *)
Lemma DER_certificates_delivered_witness :
  let reader := {| data := Sample.der_cert; failure := None |} in
  ReadAll reader = Ok Sample.der_cert /\
  readCertsFromStream (env := Sample.decoders) reader "ca.der" "DER"
    Sample.password (pemToX509 (env := Sample.decoders) call) start =
    (Ok tt, called start [{| Raw := Sample.der_cert |}]).
Proof.
  intros reader. split; [reflexivity|].
  apply (DER_certificates_delivered (env := Sample.decoders) reader "ca.der"
           Sample.password Sample.der_cert [{| Raw := Sample.der_cert |}] start
           eq_refl eq_refl).
  intros cert ->%list_elem_of_singleton. reflexivity.
Defined.

(** ** PKCS12 input, in general *)

(** X7: the PKCS12 branch calls the callback with every block that
    [pkcs12.ToPEM] returns, in order, each with the provenance headers
    merged over its own, also when [pkcs12.ToPEM] returns an error beside
    them; the warning is written exactly when there is an error or no
    block; the store password is asked for with the empty alias. *)
Theorem PKCS12_branch {env : Decoders} reader filename password der blocks err
    (w : World Block) :
  ReadAll reader = Ok der ->
  pkcs12_ToPEM der (password "") = (blocks, err) ->
  readCertsFromStream reader filename "PKCS12" password call w =
    (Err ("unknown file type: PKCS12" ++ nl),
     called (warned w (if bool_decide (err ≠ None) || bool_decide (blocks = [])
                       then [pkcs12_warning] else []))
            (annotate filename <$> blocks)).
Proof.
  intros Hread Hp12.
  rewrite readCertsFromStream_PKCS12, Hread, Hp12.
  assert (bool_decide (length blocks = 0%nat) = bool_decide (blocks = [])) as ->.
  { apply bool_decide_ext. by destruct blocks. }
  set (warn := bool_decide (err ≠ None) || bool_decide (blocks = [])).
  set (w1 := warned w (if warn then [pkcs12_warning] else [])).
  assert ((if warn then eprint pkcs12_warning else mret tt) w = (Ok tt, w1)) as Hwarn.
  { subst w1. destruct warn; [done|].
    unfold warned. simpl. rewrite app_nil_r. by destruct w. }
  erewrite bind_Ok by exact Hwarn.
  erewrite bind_Ok by apply (for_range_call blocks (annotate filename)).
  done.
Qed.

(** [PKCS12_branch] on the sample store with its password, from the file
    [id.p12]: one block, no warning. *)
Lemma PKCS12_branch_witness :
  let reader := {| data := Sample.p12_data; failure := None |} in
  ReadAll reader = Ok Sample.p12_data /\
  pkcs12_ToPEM (Decoders := Sample.decoders) Sample.p12_data (Sample.password "")
    = ([Sample.p12_key_block], None) /\
  readCertsFromStream (env := Sample.decoders) reader "id.p12" "PKCS12"
    Sample.password call start =
    (Err ("unknown file type: PKCS12" ++ nl),
     {| calls := [set_Headers Sample.p12_key_block
                    (<[fileHeader := "id.p12"]> ∅)];
        stderr := [] |}).
Proof.
  intros reader. split; [reflexivity|]. split; [reflexivity|].
  rewrite (PKCS12_branch (env := Sample.decoders) reader "id.p12"
             Sample.password Sample.p12_data [Sample.p12_key_block] None start
             eq_refl eq_refl).
  vm_compute. reflexivity.
Defined.

(** ** A keystore entry that does not decode *)

(** X8: when the entry of a private-key alias does not decode, or holds a
    key that [keyToPem] cannot encode, the JCEKS branch stops there with
    the error: the callback has been called with the blocks of all
    certificate aliases and of the key aliases before it, and with nothing
    of this alias (its chain is not delivered) or of those after it. *)
Theorem JCEKS_key_failure {env : Decoders}
    stream filename password keyStore
    (certOf : string -> Certificate) (keyOf : string -> PrivateKey)
    (chainOf : string -> list Certificate) (keyBlockOf : string -> Block)
    (before after : list string) (bad : string) (w : World Block) :
  jceks_LoadFromReader stream (String.list_byte_of_string (password ""))
    = Ok keyStore ->
  (forall alias, alias ∈ ListCerts keyStore ->
     GetCert keyStore alias = Some (certOf alias)) ->
  ListPrivateKeys keyStore = (before ++ bad :: after)%list ->
  (forall alias, alias ∈ before ->
     GetPrivateKeyAndCerts keyStore alias
       (String.list_byte_of_string (password alias))
     = Ok (keyOf alias, chainOf alias)) ->
  (forall alias, alias ∈ before ->
     keyToPem (keyOf alias) (alias_headers filename alias) = Ok (keyBlockOf alias)) ->
  let cert_block alias cert :=
    EncodeX509ToPEM cert (alias_headers filename alias) in
  let delivered :=
    (((fun alias => cert_block alias (certOf alias)) <$> ListCerts keyStore)
     ++ (before ≫= fun alias =>
           keyBlockOf alias :: (cert_block alias <$> chainOf alias)))%list in
  let run := readCertsFromStream stream filename "JCEKS" password call w in
  (forall e,
     GetPrivateKeyAndCerts keyStore bad (String.list_byte_of_string (password bad))
       = Err e ->
     run = (Err ("error parsing keystore: " ++ e ++ nl), called w delivered)) /\
  (forall key chain e,
     GetPrivateKeyAndCerts keyStore bad (String.list_byte_of_string (password bad))
       = Ok (key, chain) ->
     keyToPem key (alias_headers filename bad) = Err e ->
     run = (Err ("error reading key: " ++ e ++ nl), called w delivered)).
Proof.
  intros Hload Hcerts Hkeys Hget Hpem cert_block delivered run.
  subst run. rewrite readCertsFromStream_JCEKS, Hload, Hkeys.
  erewrite bind_Ok by (by apply certs_loop with (certOf := certOf)).
  subst delivered. rewrite <- called_app.
  set (w1 := called w _).
  split.
  - intros e Hbad. apply bind_Err.
    rewrite for_range_app.
    rewrite (keys_loop keyStore filename password keyOf chainOf keyBlockOf)
      by done.
    by rewrite for_range_cons, Hbad.
  - intros key chain e Hbad Hkey. apply bind_Err.
    rewrite for_range_app.
    rewrite (keys_loop keyStore filename password keyOf chainOf keyBlockOf)
      by done.
    by rewrite for_range_cons, Hbad, Hkey.
Qed.

(** [JCEKS_key_failure] on the sample keystore with a wrong password for
    the key [server]: the certificate [ca] is delivered, the key and its
    chain are not. *)
Lemma JCEKS_key_failure_witness :
  let stream := {| data := Sample.jceks_data; failure := None |} in
  let password alias :=
    if bool_decide (alias = "") then "storepass" else "guess" in
  jceks_LoadFromReader (Decoders := Sample.decoders) stream
    (String.list_byte_of_string (password "")) = Ok Sample.key_store /\
  ListPrivateKeys Sample.key_store = ([] ++ "server" :: [])%list /\
  readCertsFromStream (env := Sample.decoders) stream "" "JCEKS" password
    call start =
    (Err ("error parsing keystore: jceks: private key decrypt error" ++ nl),
     called start [EncodeX509ToPEM Sample.cert_a (alias_headers "" "ca")]).
Proof.
  intros stream password.
  split; [reflexivity|]. split; [reflexivity|].
  pose proof (JCEKS_key_failure (env := Sample.decoders)
    stream "" password Sample.key_store
    (fun _ => Sample.cert_a) (fun _ => RSAKey Sample.rsa_key)
    (fun _ => []) (fun _ => Sample.block1) [] [] "server" start
    eq_refl) as Hfail.
  destruct Hfail as (Hget & _).
  - intros alias ->%list_elem_of_singleton. reflexivity.
  - reflexivity.
  - by intros alias ?%elem_of_nil.
  - by intros alias ?%elem_of_nil.
  - exact (Hget "jceks: private key decrypt error" eq_refl).
Defined.


(** ** Certificate consumers see what block consumers see *)

Section Commutes.
Context {env : Decoders}.

Lemma to_certs_called (w : World Block) blocks :
  to_certs (called w blocks) = called (to_certs w) (blocks ≫= certs_of_block).
Proof. unfold to_certs, called. simpl. by rewrite bind_app. Qed.

Lemma commutes_ret : commutes (mret tt) (mret tt).
Proof. by intros w. Qed.

Lemma commutes_fail e : commutes (fail e) (fail e).
Proof. by intros w. Qed.

Lemma commutes_panic : commutes panic panic.
Proof. by intros w. Qed.

Lemma commutes_eprint msg : commutes (eprint msg) (eprint msg).
Proof. by intros w. Qed.

Lemma commutes_bind m1 m2 k1 k2 :
  commutes m1 m2 -> commutes k1 k2 -> commutes (m1 ;; k1) (m2 ;; k2).
Proof.
  intros Hm Hk w. unfold mbind, io_bind. rewrite Hm.
  destruct (m1 w) as [[[]|e|] w']; simpl; [apply Hk|done..].
Qed.

Lemma commutes_for_range {X} (xs : list X) body1 body2 :
  (forall x, commutes (body1 x) (body2 x)) ->
  commutes (for_range xs body1) (for_range xs body2).
Proof.
  intros Hbody. induction xs as [|x xs IH]; [apply commutes_ret|].
  simpl. by apply commutes_bind.
Qed.

Lemma commutes_discard_error m1 m2 :
  commutes m1 m2 -> commutes (discard_error m1) (discard_error m2).
Proof.
  intros Hm w. unfold discard_error. rewrite Hm.
  by destruct (m1 w) as [[[]|e|] w'].
Qed.

Lemma pemToX509_call block (w : World Certificate) :
  parsers_return ->
  pemToX509 call block w = (Ok tt, called w (certs_of_block block)).
Proof.
  intros Hreturn. unfold pemToX509, certs_of_block.
  destruct (Hreturn (Bytes block)) as [Hx509 Hpkcs7].
  case_bool_decide.
  { destruct (x509_ParseCertificate (Bytes block)) as [cert|e|]; [done| |done].
    simpl. by rewrite called_nil. }
  case_bool_decide.
  { destruct (pkcs7_ExtractCertificates (Bytes block)) as [certs|e|]; [| |done].
    - pose proof (for_range_call certs (fun c => c) w) as Hloop.
      rewrite list_fmap_id in Hloop. exact Hloop.
    - simpl. by rewrite called_nil. }
  simpl. by rewrite called_nil.
Qed.

Lemma commutes_call block :
  parsers_return -> commutes (call block) (pemToX509 call block).
Proof.
  intros Hreturn w. rewrite pemToX509_call by done.
  unfold as_certs, call. simpl.
  fold (called w [block]). rewrite to_certs_called. simpl.
  by rewrite app_nil_r.
Qed.

Lemma commutes_readCertsFromStream reader filename format password :
  parsers_return ->
  commutes (readCertsFromStream reader filename format password call)
           (readCertsFromStream reader filename format password (pemToX509 call)).
Proof.
  intros Hreturn.
  destruct (decide (format = "PEM")) as [->|HPEM].
  { intros w. rewrite !readCertsFromStream_PEM. revert w.
    apply commutes_bind; [|apply commutes_fail].
    apply commutes_for_range. intros token.
    destruct (pem_Decode token) as [[block rest]|];
      [by apply commutes_call|apply commutes_panic]. }
  destruct (decide (format = "DER")) as [->|HDER].
  { intros w. rewrite !readCertsFromStream_DER. revert w.
    destruct (ReadAll reader) as [der|e|];
      [|apply commutes_fail|apply commutes_panic].
    destruct (x509_ParseCertificates der) as [certs|e|];
      [| |apply commutes_panic].
    - apply commutes_for_range. intros cert. by apply commutes_call.
    - destruct (pkcs7_ParseSignedData der) as [envelopes|e'|];
        [|apply commutes_fail|apply commutes_panic].
      apply commutes_for_range. intros envelope. by apply commutes_call. }
  destruct (decide (format = "PKCS12")) as [->|HPKCS12].
  { intros w. rewrite !readCertsFromStream_PKCS12. revert w.
    destruct (ReadAll reader) as [der|e|];
      [|apply commutes_fail|apply commutes_panic].
    destruct (pkcs12_ToPEM der (password "")) as [blocks err].
    apply commutes_bind.
    { destruct (_ || _); [apply commutes_eprint|apply commutes_ret]. }
    apply commutes_bind; [|apply commutes_fail].
    apply commutes_for_range. intros block. by apply commutes_call. }
  destruct (decide (format = "JCEKS")) as [->|HJCEKS].
  { intros w. rewrite !readCertsFromStream_JCEKS. revert w.
    destruct (jceks_LoadFromReader _ _) as [keyStore|e|];
      [|apply commutes_fail|apply commutes_panic].
    apply commutes_bind.
    { apply commutes_for_range. intros alias.
      destruct (GetCert keyStore alias);
        [by apply commutes_call|apply commutes_panic]. }
    apply commutes_bind; [|apply commutes_fail].
    apply commutes_for_range. intros alias.
    destruct (GetPrivateKeyAndCerts _ _ _) as [[key certs]|e|];
      [|apply commutes_fail|apply commutes_panic].
    destruct (keyToPem key _) as [block|e|];
      [|apply commutes_fail|apply commutes_panic].
    apply commutes_bind; [by apply commutes_call|].
    apply commutes_for_range. intros cert. by apply commutes_call. }
  assert (format ∉ ["PEM"; "DER"; "PKCS12"; "JCEKS"]) as Hformat.
  { intros Hin. repeat (apply elem_of_cons in Hin as [Hin|Hin]; [done|]).
    by apply elem_of_nil in Hin. }
  intros w. by rewrite !readCertsFromStream_unknown.
Qed.

End Commutes.

(** X11: when the two parsers of [pemToX509] return, [ReadX509] does what
    [ReadPEM] does, seen through [pemToX509]: the same result, the same
    lines on standard error, and as calls of the certificate callback the
    certificates of the blocks that the block callback is called with, in
    order: one per CERTIFICATE block that parses, those of each PKCS7
    block that parses, none for any other block.  [ReadX509FromFiles] and
    [ReadPEMFromFiles] end in corresponding worlds in the same way. *)
Theorem ReadX509_through_ReadPEM {env : Decoders} format password
    (w : World Block) :
  parsers_return ->
  (forall readers,
     ReadX509 readers format password call (to_certs w) =
     as_certs (ReadPEM readers format password call w)) /\
  (forall files,
     (ReadX509FromFiles files format password call (to_certs w)).2 =
     to_certs (ReadPEMFromFiles files format password call w).2).
Proof.
  intros Hreturn. split.
  - intros readers. unfold ReadX509, ReadPEM.
    apply commutes_for_range. intros r.
    destruct (formatForFile r "" format) as [format'|e|];
      [|apply commutes_fail|apply commutes_panic].
    by apply commutes_discard_error, commutes_readCertsFromStream.
  - intros files. revert w. induction files as [|file files IH]; intros w; [done|].
    rewrite ReadX509FromFiles_cons, ReadPEMFromFiles_cons.
    destruct (formatForFile _ _ _) as [format'|e|]; [|done..].
    rewrite (commutes_readCertsFromStream _ _ _ _ Hreturn w).
    destruct (readCertsFromStream _ _ _ _ call w) as [[[]|e|] w']; simpl;
      [apply IH|apply IH|done].
Qed.

Lemma sample_parsers_return : parsers_return (env := Sample.decoders).
Proof.
  intros der. split; [|done]. simpl. by case_bool_decide.
Qed.

(** [ReadX509_through_ReadPEM] on an anonymous stream of three certificate
    blocks. *)
Lemma ReadX509_through_ReadPEM_witness :
  let stream :=
    {| data := (Sample.text1 ++ Sample.text2 ++ Sample.text3)%list;
       failure := None |} in
  parsers_return (env := Sample.decoders) /\
  ReadX509 (env := Sample.decoders) [stream] "" Sample.password call start =
    (Ok tt, called start [{| Raw := [x01; x02; x03] |};
                          {| Raw := [x04; x05; x06] |};
                          {| Raw := [x07; x08; x09] |}]).
Proof.
  intros stream. split; [exact sample_parsers_return|].
  pose proof (ReadX509_through_ReadPEM (env := Sample.decoders) ""
                Sample.password start sample_parsers_return) as (Hstreams & _).
  etrans; [exact (Hstreams [stream])|].
  reflexivity.
Defined.

(** ** PEM input, in general *)

Section PEMInput.
Context {env : Decoders}.

(** X12: a PEM input that reads as any number of blocks, each of them found
    by [pem.Decode] in a buffer of the scanner, which holds 64 KiB at most,
    gives one call of the callback per block, in the order of the input,
    with the type and the bytes of the block and with the provenance headers
    merged over the headers of the block; the bytes after the last block, in
    which the scanner finds no block, are passed over in silence, and the
    result is the error of the end of [readCertsFromStream]. *)
Theorem PEM_branch reader filename password blocks (w : World Block) :
  delivers reader ->
  reads blocks (data reader) ->
  readCertsFromStream reader filename "PEM" password call w =
    (Err ("unknown file type: PEM" ++ nl),
     called w (annotate filename <$> blocks)) /\
  Forall2 (fun block out =>
             Type' out = Type' block /\ Bytes out = Bytes block /\
             forall k, Headers out !! k =
                       match origin_headers filename !! k with
                       | Some v => Some v
                       | None => Headers block !! k
                       end)
    blocks (annotate filename <$> blocks).
Proof.
  intros Hdelivers Hreads. split.
  - exact (readCertsFromStream_PEM_blocks _ _ _ _ w Hdelivers Hreads).
  - clear. induction blocks as [|block blocks IH]; [constructor|].
    rewrite fmap_cons. constructor; [|exact IH].
    repeat split. intros k. simpl. apply mergeHeaders_lookup.
Qed.

End PEMInput.

(** [PEM_branch] with the decoder of the library, on two blocks and a
    trailing line, from the file [a.pem]. *)
Lemma PEM_branch_witness :
  let env := GoPem.decoders GoPem_Decode_shorter in
  let trailer := Sample.bytes ("# end" ++ nl) in
  let reader :=
    {| data := (Sample.text1 ++ Sample.text2 ++ trailer)%list;
       failure := None |} in
  readCertsFromStream (env := env) reader "a.pem" "PEM"
    Sample.password call start =
    (Err ("unknown file type: PEM" ++ nl),
     called start [annotate "a.pem" Sample.block1; annotate "a.pem" Sample.block2]).
Proof.
  intros env trailer reader.
  apply (PEM_branch (env := env) reader "a.pem" Sample.password
           [Sample.block1; Sample.block2] start).
  - apply GoPem_delivers.
  - apply reads_check_sound. vm_compute. reflexivity.
Defined.

(** ** File names without an extension *)

Lemma Ext_no_dot (dir name : string) :
  plain_suffix name = true ->
  Ext (dir ++ String "/"%char name) = "".
Proof.
  intros Hplain. unfold Ext.
  set (path := dir ++ String "/"%char name).
  assert (forall k, (k <= String.length name)%nat ->
            Ext_loop path (String.length dir + 1 + k) = "") as Hloop.
  { induction k as [|k IH]; intros Hk.
    - replace (String.length dir + 1 + 0)%nat with (S (String.length dir)) by lia.
      simpl.
      replace (String.length dir) with (String.length dir + 0)%nat at 1 by lia.
      unfold path at 1. by rewrite string_get_app_r.
    - replace (String.length dir + 1 + S k)%nat
        with (S (String.length dir + S k)) by lia.
      simpl. unfold path at 1. rewrite string_get_app_r. simpl.
      destruct (String.get k name) as [c|] eqn:Hget; [|done].
      destruct (plain_suffix_get name k c Hplain Hget) as [-> ->].
      replace (String.length dir + S k)%nat
        with (String.length dir + 1 + k)%nat by lia.
      apply IH. lia. }
  replace (String.length path)
    with (String.length dir + 1 + String.length name)%nat
    by (unfold path; rewrite string_length_app; simpl; lia).
  by apply Hloop.
Qed.

Lemma Ext_plain (name : string) :
  plain_suffix name = true -> Ext name = "".
Proof.
  intros Hplain. unfold Ext.
  assert (forall k, Ext_loop name k = "") as Hloop; [|apply Hloop].
  induction k as [|k IH]; [done|]. simpl.
  destruct (String.get k name) as [c|] eqn:Hget; [|done].
  by destruct (plain_suffix_get name k c Hplain Hget) as [-> ->].
Qed.

(** X13: a file whose last path element has no dot is detected as an
    anonymous stream is, by hint or by its first bytes: dots in the
    directories of the path do not count as an extension, so that
    [certs.pem/bundle] is not PEM by its name. *)
Theorem formatForFile_no_extension {env : Decoders}
    (file : Stream) (dir name format : string) :
  plain_suffix name = true ->
  formatForFile file (dir ++ String "/"%char name) format =
    formatForFile file "" format /\
  formatForFile file name format = formatForFile file "" format.
Proof.
  intros Hplain. unfold formatForFile.
  rewrite (Ext_no_dot dir name), (Ext_plain name) by done.
  split; reflexivity.
Qed.

(** [formatForFile_no_extension] on a DER certificate under a directory
    named like a PEM file. *)
Lemma formatForFile_no_extension_witness :
  plain_suffix "bundle" = true /\
  formatForFile (env := Sample.decoders)
    {| data := Sample.der_cert; failure := None |} "certs.pem/bundle" ""
  = Ok "DER".
Proof.
  split; [reflexivity|].
  etrans; [exact (proj1 (formatForFile_no_extension (env := Sample.decoders)
                           {| data := Sample.der_cert; failure := None |}
                           "certs.pem" "bundle" "" eq_refl))|].
  reflexivity.
Defined.
